(** * The RAG service: content ingestion and tenant-scoped hybrid retrieval

    A shallow embedding of [RAGService] (rag.service.ts) and of the library
    behaviour it relies on, with the properties of the natural-language
    specification stated and proved (or refuted) against it. *)

From Stdlib Require Import ZArith List Lia String Ascii DecimalString.
From stdpp Require Import gmap strings list fin_maps.

Local Open Scope Z_scope.

(** ** JavaScript values *)

Module JS.

(** A JavaScript string is a sequence of UTF-16 code units. *)
Abbreviation jsstring := (list Z).

(** An ASCII literal of the source, as code units. *)
Fixpoint lit (s : string) : jsstring :=
  match s with
  | EmptyString => []
  | String a s' => Z.of_N (N_of_ascii a) :: lit s'
  end.

(** [String(n)] for an integer-valued number below [10^21] in magnitude, the
    numbers JavaScript renders by all their digits. *)
Definition decimal (n : Z) : jsstring :=
  lit (NilZero.string_of_int (Z.to_int n)).

(** A JavaScript number that is not an integer index: a binary floating-point
    value [(-1)^neg * m * 2^e], kept in the unique form with [m] odd. *)
Inductive num :=
  | NaN
  | Inf (neg : bool)
  | Zero (neg : bool)
  | Fin (neg : bool) (m : positive) (e : Z).

(** The scalars found in a document's metadata and in a point's payload. *)
Inductive value :=
  | VStr (s : jsstring)
  | VNum (n : Z).

#[export] Instance value_eq_dec : EqDecision value.
Proof. solve_decision. Defined.

(** A thrown exception, with its message. *)
Inductive exn := Error (message : jsstring).

(** [String(v)] as a template literal renders a property that may be
    missing. *)
Definition to_string (v : option value) : jsstring :=
  match v with
  | None => lit "undefined"
  | Some (VStr s) => s
  | Some (VNum n) => decimal n
  end.

(** White space and line terminators, the code units [String.prototype.trim]
    removes. *)
Definition is_space (c : Z) : bool :=
  (9 <=? c) && (c <=? 13) || (c =? 32) || (c =? 160) || (c =? 5760)
  || (8192 <=? c) && (c <=? 8202) || (c =? 8232) || (c =? 8233)
  || (c =? 8239) || (c =? 8287) || (c =? 12288) || (c =? 65279).

Arguments is_space : simpl never.

Fixpoint trimStart (s : jsstring) : jsstring :=
  match s with
  | c :: s' => if is_space c then trimStart s' else s
  | [] => []
  end.

Definition trimEnd (s : jsstring) : jsstring := rev (trimStart (rev s)).

Definition trim (s : jsstring) : jsstring := trimEnd (trimStart s).

(** The code units of a string that are not white space, in order. *)
Definition nonspace (s : jsstring) : jsstring :=
  List.filter (fun c => negb (is_space c)) s.

End JS.
Import JS.

(** ** The text splitter

    [RecursiveCharacterTextSplitter] of langchain's text_splitter module, with
    the defaults the service leaves in place: [keepSeparator] is true, and the
    length function is the string's [length]. *)

Module Splitter.

(** The [length] of a string or of an array. *)
Definition len {A} (s : list A) : Z := Z.of_nat (length s).

Definition is_empty {A} (l : list A) : bool :=
  match l with [] => true | _ => false end.

(** [s.startsWith(sep)] and [s.includes(sep)]. *)
Fixpoint starts_with (sep s : jsstring) : bool :=
  match sep, s with
  | [], _ => true
  | _ :: _, [] => false
  | c :: sep', d :: s' => (c =? d) && starts_with sep' s'
  end.

Fixpoint includes (s sep : jsstring) : bool :=
  starts_with sep s
  || match s with [] => false | _ :: s' => includes s' sep end.

(** [text.split(new RegExp("(?=sep)"))] for a non-empty, escaped [sep]: the
    text is cut in front of every occurrence of [sep] but the one at index 0,
    and nothing is removed. *)
Fixpoint split_lookahead (sep s : jsstring) : list jsstring :=
  match s with
  | [] => [[]]
  | c :: s' =>
      if negb (is_empty s') && starts_with sep s'
      then [c] :: split_lookahead sep s'
      else match split_lookahead sep s' with
           | p :: ps => (c :: p) :: ps
           | [] => [[c]]
           end
  end.

(** [splitOnSeparator]: the pieces, the empty ones filtered out. *)
Definition splitOnSeparator (text separator : jsstring) : list jsstring :=
  let splits :=
    if is_empty separator then map (fun c => [c]) text
    else split_lookahead separator text in
  List.filter (fun s => negb (is_empty s)) splits.

(** [joinDocs]: the pieces joined and trimmed, [null] when nothing is left. *)
Fixpoint join (separator : jsstring) (docs : list jsstring) : jsstring :=
  match docs with
  | [] => []
  | d :: rest => if is_empty rest then d else d ++ separator ++ join separator rest
  end.

Definition joinDocs (docs : list jsstring) (separator : jsstring) : option jsstring :=
  let text := trim (join separator docs) in
  if is_empty text then None else Some text.

Section Config.

Variables chunkSize chunkOverlap : Z.

(** The inner [while] loop of [mergeSplits]; [None] is the [TypeError] of
    reading the length of [currentDoc[0]] when [currentDoc] is empty. *)
Fixpoint shiftLoop (separator : jsstring) (_len total : Z) (currentDoc : list jsstring)
  : option (Z * list jsstring) :=
  if (chunkOverlap <? total)
     || ((chunkSize <? total + _len + len currentDoc * len separator) && (0 <? total))
  then match currentDoc with
       | [] => None
       | d :: rest => shiftLoop separator _len (total - len d) rest
       end
  else Some (total, currentDoc).

(** [mergeSplits]: the loop over the splits, with the chunks made so far, the
    pieces of the chunk in the making and their total length. *)
Fixpoint mergeLoop (separator : jsstring) (splits docs currentDoc : list jsstring)
  (total : Z) : option (list jsstring) :=
  match splits with
  | [] =>
      Some (match joinDocs currentDoc separator with
            | Some doc => docs ++ [doc]
            | None => docs
            end)
  | d :: rest =>
      let _len := len d in
      if (chunkSize <? total + _len + len currentDoc * len separator)
         && negb (is_empty currentDoc)
      then
        let docs' := match joinDocs currentDoc separator with
                     | Some doc => docs ++ [doc]
                     | None => docs
                     end in
        match shiftLoop separator _len total currentDoc with
        | None => None
        | Some (total', currentDoc') =>
            mergeLoop separator rest docs' (currentDoc' ++ [d]) (total' + _len)
        end
      else mergeLoop separator rest docs (currentDoc ++ [d]) (total + _len)
  end.

Definition mergeSplits (splits : list jsstring) (separator : jsstring)
  : option (list jsstring) :=
  mergeLoop separator splits [] [] 0.

(** The loop of [_splitText] over the splits: [recur] is the call on the
    remaining separators, absent when [newSeparators] is undefined. *)
Fixpoint splitLoop (recur : option (jsstring -> option (list jsstring)))
  (splits goodSplits finalChunks : list jsstring) : option (list jsstring) :=
  match splits with
  | [] =>
      if is_empty goodSplits then Some finalChunks
      else match mergeSplits goodSplits [] with
           | None => None
           | Some mergedText => Some (finalChunks ++ mergedText)
           end
  | s :: rest =>
      if len s <? chunkSize then splitLoop recur rest (goodSplits ++ [s]) finalChunks
      else
        match (if is_empty goodSplits then Some finalChunks
               else match mergeSplits goodSplits [] with
                    | None => None
                    | Some mergedText => Some (finalChunks ++ mergedText)
                    end) with
        | None => None
        | Some finalChunks' =>
            match recur with
            | None => splitLoop recur rest [] (finalChunks' ++ [s])
            | Some call =>
                match call s with
                | None => None
                | Some otherInfo => splitLoop recur rest [] (finalChunks' ++ otherInfo)
                end
            end
        end
  end.

(** [_splitText]: the first separator that is empty or occurs in the text is
    chosen, [fallback] (the last separator of the call) when none does. *)
Fixpoint splitRec (separators : list jsstring) (fallback text : jsstring)
  : option (list jsstring) :=
  match separators with
  | [] => splitLoop None (splitOnSeparator text fallback) [] []
  | s :: newSeparators =>
      if is_empty s then splitLoop None (splitOnSeparator text s) [] []
      else if includes text s
      then splitLoop (Some (splitRec newSeparators (List.last newSeparators [])))
                     (splitOnSeparator text s) [] []
      else splitRec newSeparators fallback text
  end.

Definition _splitText (text : jsstring) (separators : list jsstring)
  : option (list jsstring) :=
  splitRec separators (List.last separators []) text.

End Config.

(** The separators of [fromLanguage("markdown")]. *)
Definition markdown_separators : list jsstring :=
  map lit
    [ String "010" "## "; String "010" "### "; String "010" "#### ";
      String "010" "##### "; String "010" "###### ";
      ("```" ++ String "010" (String "010" ""))%string;
      String "010" (String "010" ("***" ++ String "010" (String "010" "")))%string;
      String "010" (String "010" ("---" ++ String "010" (String "010" "")))%string;
      String "010" (String "010" ("___" ++ String "010" (String "010" "")))%string;
      String "010" (String "010" "");
      String "010" "";
      " "%string;
      ""%string ].

(** [splitText] of the splitter the service builds in its constructor:
    markdown separators, [chunkSize] 1000, [chunkOverlap] 0. *)
Definition splitText (text : jsstring) : option (list jsstring) :=
  _splitText 1000 0 text markdown_separators.

(** *** The notions its guarantees are stated with *)

(** A chunk as the splitter emits it: not empty, already trimmed, and within
    the chunk size. *)
Definition good (chunkSize : Z) (c : jsstring) : Prop :=
  c <> [] /\ trim c = c /\ len c <= chunkSize.

(** A piece a chunk is merged from. *)
Definition small (chunkSize : Z) (d : jsstring) : Prop := d <> [] /\ len d < chunkSize.

(** [docs.push(doc)] when [joinDocs] gives a chunk. *)
Definition push_doc (docs currentDoc : list jsstring) : list jsstring :=
  match joinDocs currentDoc [] with
  | Some doc => docs ++ [doc]
  | None => docs
  end.

(** What a call on the remaining separators must deliver. *)
Definition delivers (chunkSize : Z) (call : jsstring -> option (list jsstring)) : Prop :=
  forall s, exists chunks,
    call s = Some chunks /\ Forall (good chunkSize) chunks
    /\ nonspace (concat chunks) = nonspace s.

(** The chunks cut from spans of a text: every span trimmed, and no chunk
    for a span of which nothing is left. *)
Definition chunks_of_spans (spans : list jsstring) : list jsstring :=
  List.filter (fun c => negb (is_empty c)) (map trim spans).

(** The chunks are cut from consecutive spans that make up the text. *)
Definition cut_from (text : jsstring) (chunks : list jsstring) : Prop :=
  exists spans, concat spans = text /\ chunks = chunks_of_spans spans.

(** What a call on the remaining separators gives is cut from spans of its
    text. *)
Definition cuts (call : jsstring -> option (list jsstring)) : Prop :=
  forall s out, call s = Some out -> cut_from s out.

End Splitter.

(** ** The archival codec

    The Avro binary encoding, as the avsc library implements it, of the two
    record types the service declares: [Chunk] and [ContentChunks]. Bytes are
    integers from 0 to 255. *)

Module Avro.

Import Splitter.

(** [ContentData]: what [ContentAvroType] encodes. *)
Record Chunk := {
  chunk_id : jsstring;
  chunk_url : jsstring;
  chunk_type : jsstring;
  chunk_title : jsstring;
  chunk_content : jsstring;
  chunk_vector : list num;
}.

Record ContentData := { chunks : list Chunk }.

(** *** Longs: zig-zag, then base 128 with a continuation bit *)

Definition zigzag (n : Z) : Z := if n <? 0 then - 2 * n - 1 else 2 * n.

Definition unzigzag (m : Z) : Z := if Z.even m then m / 2 else - ((m + 1) / 2).

Fixpoint varint (fuel : nat) (m : Z) : list Z :=
  match fuel with
  | O => [m]
  | S fuel' => if m <? 128 then [m] else (128 + m mod 128) :: varint fuel' (m / 128)
  end.

Definition writeLong (n : Z) : list Z :=
  varint (Z.to_nat (Z.log2 (zigzag n))) (zigzag n).

(** A read gives the value and the rest of the buffer, or fails when the
    buffer ends too soon. *)
Fixpoint read_varint (buf : list Z) : option (Z * list Z) :=
  match buf with
  | [] => None
  | b :: rest =>
      if b <? 128 then Some (b, rest)
      else match read_varint rest with
           | Some (m, rest') => Some (b - 128 + 128 * m, rest')
           | None => None
           end
  end.

Definition readLong (buf : list Z) : option (Z * list Z) :=
  match read_varint buf with
  | Some (m, rest) => Some (unzigzag m, rest)
  | None => None
  end.

(** *** Strings: the length in bytes, then the UTF-8 bytes *)

Definition in_range (lo hi b : Z) : bool := (lo <=? b) && (b <=? hi).

(** [Buffer.write(s, "utf8")]: a surrogate pair becomes one four-byte
    sequence, a lone surrogate the three bytes of U+FFFD. *)
Fixpoint utf8_encode (s : jsstring) : list Z :=
  match s with
  | [] => []
  | c :: rest =>
      if c <? 128 then c :: utf8_encode rest
      else if c <? 2048 then (192 + c / 64) :: (128 + c mod 64) :: utf8_encode rest
      else if in_range 55296 56319 c then
        match rest with
        | d :: rest' =>
            if in_range 56320 57343 d then
              let cp := 65536 + (c - 55296) * 1024 + (d - 56320) in
              (240 + cp / 262144) :: (128 + (cp / 4096) mod 64)
              :: (128 + (cp / 64) mod 64) :: (128 + cp mod 64) :: utf8_encode rest'
            else 239 :: 191 :: 189 :: utf8_encode rest
        | [] => [239; 191; 189]
        end
      else if in_range 56320 57343 c then 239 :: 191 :: 189 :: utf8_encode rest
      else (224 + c / 4096) :: (128 + (c / 64) mod 64) :: (128 + c mod 64)
           :: utf8_encode rest
  end.

(** [buf.toString("utf8")]: well-formed sequences give their code units, and
    every maximal ill-formed prefix the code unit U+FFFD. *)
Fixpoint utf8_decode (bytes : list Z) : jsstring :=
  match bytes with
  | [] => []
  | b0 :: r1 =>
      if b0 <? 128 then b0 :: utf8_decode r1
      else if in_range 194 223 b0 then
        match r1 with
        | b1 :: r2 =>
            if in_range 128 191 b1
            then ((b0 - 192) * 64 + (b1 - 128)) :: utf8_decode r2
            else 65533 :: utf8_decode r1
        | [] => [65533]
        end
      else if in_range 224 239 b0 then
        match r1 with
        | b1 :: r2 =>
            if in_range (if b0 =? 224 then 160 else 128) (if b0 =? 237 then 159 else 191) b1
            then match r2 with
                 | b2 :: r3 =>
                     if in_range 128 191 b2
                     then ((b0 - 224) * 4096 + (b1 - 128) * 64 + (b2 - 128))
                          :: utf8_decode r3
                     else 65533 :: utf8_decode r2
                 | [] => [65533]
                 end
            else 65533 :: utf8_decode r1
        | [] => [65533]
        end
      else if in_range 240 244 b0 then
        match r1 with
        | b1 :: r2 =>
            if in_range (if b0 =? 240 then 144 else 128) (if b0 =? 244 then 143 else 191) b1
            then match r2 with
                 | b2 :: r3 =>
                     if in_range 128 191 b2
                     then match r3 with
                          | b3 :: r4 =>
                              if in_range 128 191 b3
                              then
                                let cp := (b0 - 240) * 262144 + (b1 - 128) * 4096
                                          + (b2 - 128) * 64 + (b3 - 128) in
                                (55296 + (cp - 65536) / 1024)
                                :: (56320 + (cp - 65536) mod 1024) :: utf8_decode r4
                              else 65533 :: utf8_decode r3
                          | [] => [65533]
                          end
                     else 65533 :: utf8_decode r2
                 | [] => [65533]
                 end
            else 65533 :: utf8_decode r1
        | [] => [65533]
        end
      else 65533 :: utf8_decode r1
  end.

(** The loop of [Tap.writeString] over the code units, which avsc runs in
    place of the buffer's encoder when the string takes at most 64 bytes: a
    high surrogate followed by a low one becomes one four-byte sequence, and
    every other code unit from 2048 on its own three bytes, a surrogate
    without its partner too. *)
Fixpoint utf8_write (s : jsstring) : list Z :=
  match s with
  | [] => []
  | c1 :: rest =>
      if c1 <? 128 then c1 :: utf8_write rest
      else if c1 <? 2048 then (192 + c1 / 64) :: (128 + c1 mod 64) :: utf8_write rest
      else
        match rest with
        | c2 :: rest' =>
            if in_range 55296 56319 c1 && in_range 56320 57343 c2 then
              let cp := 65536 + (c1 - 55296) * 1024 + (c2 - 56320) in
              (240 + cp / 262144) :: (128 + (cp / 4096) mod 64)
              :: (128 + (cp / 64) mod 64) :: (128 + cp mod 64) :: utf8_write rest'
            else (224 + c1 / 4096) :: (128 + (c1 / 64) mod 64) :: (128 + c1 mod 64)
                 :: utf8_write rest
        | [] => [224 + c1 / 4096; 128 + (c1 / 64) mod 64; 128 + c1 mod 64]
        end
  end.

(** [Tap.writeString]: the length is [Buffer.byteLength(s)]; the bytes are
    the buffer encoder's when there are more than 64 of them, and the ones of
    the loop otherwise. *)
Definition writeString (s : jsstring) : list Z :=
  let len := len (utf8_encode s) in
  writeLong len ++ (if 64 <? len then utf8_encode s else utf8_write s).

Definition readString (buf : list Z) : option (jsstring * list Z) :=
  match readLong buf with
  | Some (n, rest) =>
      if (n <? 0) || (len rest <? n) then None
      else Some (utf8_decode (take (Z.to_nat n) rest), drop (Z.to_nat n) rest)
  | None => None
  end.

(** *** Floats: four bytes, the IEEE 754 binary32 value nearest the number *)

(** The position of the leading bit of [m * 2^e]. *)
Definition exponent (m : positive) (e : Z) : Z := e + Z.log2 (Z.pos m).

(** [k * 2^q] with the factors of two moved from [k] to the exponent. *)
Fixpoint normalize (fuel : nat) (k q : Z) : Z * Z :=
  match fuel with
  | O => (k, q)
  | S fuel' => if Z.even k then normalize fuel' (k / 2) (q + 1) else (k, q)
  end.

(** The number [k * 2^q], for [0 <= k < 2^64]. *)
Definition finite (neg : bool) (k q : Z) : num :=
  if k =? 0 then Zero neg
  else let '(m, e) := normalize 64 k q in Fin neg (Z.to_pos m) e.

(** [m / 2^shift] rounded to the nearest integer, ties to even. *)
Definition round_half_even (m shift : Z) : Z :=
  let k := m / 2 ^ shift in
  let r := m mod 2 ^ shift in
  let half := 2 ^ (shift - 1) in
  if (half <? r) || ((r =? half) && Z.odd k) then k + 1 else k.

(** [Math.fround]: the nearest binary32 value, as a number. The significand
    is taken at the quantum of the binary32 format, 24 bits below the leading
    bit and never below [2^-149]. *)
Definition fround (v : num) : num :=
  match v with
  | Fin neg m e =>
      let q := Z.max (exponent m e - 23) (-149) in
      let k := if q <=? e then Z.pos m * 2 ^ (e - q)
               else round_half_even (Z.pos m) (q - e) in
      if k =? 0 then Zero neg
      else if 127 <? q + Z.log2 k then Inf neg
      else finite neg k q
  | _ => v
  end.

Definition sign_bit (neg : bool) : Z := if neg then 2147483648 else 0.

(** The bit pattern of a binary32 value. *)
Definition bits32 (v : num) : Z :=
  match v with
  | NaN => 2143289344
  | Inf neg => sign_bit neg + 2139095040
  | Zero neg => sign_bit neg
  | Fin neg m e =>
      if -126 <=? exponent m e
      then sign_bit neg + (exponent m e + 127) * 8388608
           + (Z.pos m * 2 ^ (23 - Z.log2 (Z.pos m)) - 8388608)
      else sign_bit neg + Z.pos m * 2 ^ (e + 149)
  end.

Definition of_bits32 (b : Z) : num :=
  let neg := 2147483648 <=? b in
  let biased := (b / 8388608) mod 256 in
  let frac := b mod 8388608 in
  if biased =? 255 then (if frac =? 0 then Inf neg else NaN)
  else if biased =? 0 then finite neg frac (-149)
  else finite neg (8388608 + frac) (biased - 150).

(** [buf.writeFloatLE] and [buf.readFloatLE]. *)
Definition writeFloat (v : num) : list Z :=
  let b := bits32 (fround v) in
  [b mod 256; (b / 256) mod 256; (b / 65536) mod 256; b / 16777216].

Definition readFloat (buf : list Z) : option (num * list Z) :=
  match buf with
  | b0 :: b1 :: b2 :: b3 :: rest =>
      Some (of_bits32 (b0 + 256 * b1 + 65536 * b2 + 16777216 * b3), rest)
  | _ => None
  end.

(** *** Arrays: blocks of a count and its items, closed by a zero count *)

Section Arrays.

Context {A : Type}.
Variable write_item : A -> list Z.
Variable read_item : list Z -> option (A * list Z).

Definition writeArray (val : list A) : list Z :=
  (if is_empty val then [] else writeLong (len val) ++ flat_map write_item val)
  ++ writeLong 0.

Fixpoint read_items (n : nat) (buf : list Z) : option (list A * list Z) :=
  match n with
  | O => Some ([], buf)
  | S n' =>
      match read_item buf with
      | Some (x, rest) =>
          match read_items n' rest with
          | Some (xs, rest') => Some (x :: xs, rest')
          | None => None
          end
      | None => None
      end
  end.

(** The [while ((n = tap.readLong()))] loop of the array reader; a negative
    count is followed by the block's size in bytes, which is skipped. Every
    turn reads at least one byte, which bounds the number of turns. *)
Fixpoint read_blocks (fuel : nat) (buf : list Z) (val : list A) : option (list A * list Z) :=
  match fuel with
  | O => None
  | S fuel' =>
      match readLong buf with
      | None => None
      | Some (n, rest) =>
          if n =? 0 then Some (val, rest)
          else
            match (if n <? 0 then readLong rest else Some (0, rest)) with
            | None => None
            | Some (_, rest') =>
                match read_items (Z.to_nat (Z.abs n)) rest' with
                | Some (items, rest'') => read_blocks fuel' rest'' (val ++ items)
                | None => None
                end
            end
      end
  end.

Definition readArray (buf : list Z) : option (list A * list Z) :=
  read_blocks (S (length buf)) buf [].

End Arrays.

(** *** The two records *)

Definition writeChunk (c : Chunk) : list Z :=
  writeString (chunk_id c) ++ writeString (chunk_url c) ++ writeString (chunk_type c)
  ++ writeString (chunk_title c) ++ writeString (chunk_content c)
  ++ writeArray writeFloat (chunk_vector c).

Definition readChunk (buf : list Z) : option (Chunk * list Z) :=
  match readString buf with
  | None => None
  | Some (id, buf) =>
  match readString buf with
  | None => None
  | Some (url, buf) =>
  match readString buf with
  | None => None
  | Some (type, buf) =>
  match readString buf with
  | None => None
  | Some (title, buf) =>
  match readString buf with
  | None => None
  | Some (content, buf) =>
  match readArray readFloat buf with
  | None => None
  | Some (vector, buf) =>
      Some ({| chunk_id := id; chunk_url := url; chunk_type := type;
               chunk_title := title; chunk_content := content;
               chunk_vector := vector |}, buf)
  end end end end end end.

(** [ContentAvroType.toBuffer]. *)
Definition toBuffer (data : ContentData) : list Z :=
  writeArray writeChunk (chunks data).

(** [ContentAvroType.fromBuffer]: the value read, unless the buffer is
    truncated or has trailing data. *)
Definition fromBuffer (buf : list Z) : option ContentData :=
  match readArray readChunk buf with
  | Some (cs, []) => Some {| chunks := cs |}
  | _ => None
  end.

(** *** The values that survive the encoding *)

(** [s.isWellFormed()]: code units with every surrogate in a pair. *)
Fixpoint isWellFormed (s : jsstring) : bool :=
  match s with
  | [] => true
  | c :: rest =>
      if in_range 55296 56319 c then
        match rest with
        | d :: rest' => in_range 56320 57343 d && isWellFormed rest'
        | [] => false
        end
      else in_range 0 65535 c && negb (in_range 56320 57343 c) && isWellFormed rest
  end.

(** A number in its unique form that is a binary64 value, and one that is a
    binary32 value as well. *)
Definition is_double (v : num) : bool :=
  match v with
  | Fin _ m e =>
      Z.odd (Z.pos m) && (Z.log2 (Z.pos m) <=? 52) && (-1074 <=? e)
      && (exponent m e <=? 1023)
  | _ => true
  end.

Definition is_float32 (v : num) : bool :=
  match v with
  | Fin _ m e =>
      Z.odd (Z.pos m) && (Z.log2 (Z.pos m) <=? 23) && (-149 <=? e)
      && (exponent m e <=? 127)
  | _ => true
  end.

Definition exact_chunk (c : Chunk) : bool :=
  isWellFormed (chunk_id c) && isWellFormed (chunk_url c) && isWellFormed (chunk_type c)
  && isWellFormed (chunk_title c) && isWellFormed (chunk_content c)
  && forallb is_float32 (chunk_vector c).

Definition exact (data : ContentData) : bool := forallb exact_chunk (chunks data).

End Avro.

(** ** The data of the service *)

Record User := { uid : jsstring }.

(** A langchain [Document]. *)
Record Document := {
  pageContent : jsstring;
  metadata : gmap string value;
}.

(** [PointStruct] of the vector store; [point_vector] is absent when the
    embedding provider returned no vector at the chunk's index. *)
Record PointStruct := {
  point_id : jsstring;
  point_vector : option (list num);
  point_payload : gmap string value;
}.

(** The filter grammar of the vector store: a conjunction of conditions on
    payload fields, each an equality or an any-of match. *)
Inductive Match :=
  | MatchValue (v : value)
  | MatchAny (any : list value).

Record Condition := {
  cond_key : string;
  cond_match : Match;
}.

Record Filter := { must : list Condition }.

Record SearchFilter := {
  nodeTypes : option (list jsstring);
  urls : option (list jsstring);
  noteIds : option (list jsstring);
  resourceIds : option (list jsstring);
  collectionIds : option (list jsstring);
}.

Record HybridSearchParam := {
  param_query : jsstring;
  param_vector : option (list num);
  param_filter : option SearchFilter;
}.

(** What [response.json()] resolves to. *)
#[local] Set Warnings "-register-all".
Inductive json :=
  | JNull
  | JBool (b : bool)
  | JNumber (n : num)
  | JString (s : jsstring)
  | JArray (items : list json)
  | JObject (fields : list (jsstring * json)).

#[local] Set Warnings "register-all".

(** The response of [fetch]: [resp_json] is the outcome of [response.json()],
    an exception when the body is not JSON. *)
Record Response := {
  resp_status : Z;
  resp_statusText : jsstring;
  resp_json : exn + json;
}.

(** JavaScript truthiness of a parsed value. *)
Definition truthy (v : json) : bool :=
  match v with
  | JNull => false
  | JBool b => b
  | JNumber (Zero _) | JNumber NaN => false
  | JNumber _ => true
  | JString s => negb (Splitter.is_empty s)
  | JArray _ | JObject _ => true
  end.

(** The state the service and its collaborators hold. *)
Record World := {
  (** the durable vector store's points, by point id *)
  qdrant : gmap jsstring PointStruct;
  (** the batches [batchSaveData] received, the latest first *)
  upserts : list (list PointStruct);
  (** the filters [batchDelete] received, the latest first *)
  deletes : list Filter;
  (** the LRU cache of reader results, the most recently used first *)
  cache : list (jsstring * json);
  (** the URLs requested from the remote reader, the latest first *)
  requests : list jsstring;
  (** the vectors of the in-memory store, in insertion order *)
  memoryVectors : list (Document * option (list num));
  (** the object storage, bytes by key *)
  objects : gmap jsstring (list Z);
}.

Definition set_qdrant (f : gmap jsstring PointStruct -> gmap jsstring PointStruct) (w : World) : World :=
  {| qdrant := f (qdrant w); upserts := upserts w; deletes := deletes w; cache := cache w;
     requests := requests w; memoryVectors := memoryVectors w; objects := objects w |}.

Definition set_upserts (f : list (list PointStruct) -> list (list PointStruct)) (w : World) : World :=
  {| qdrant := qdrant w; upserts := f (upserts w); deletes := deletes w; cache := cache w;
     requests := requests w; memoryVectors := memoryVectors w; objects := objects w |}.

Definition set_deletes (f : list Filter -> list Filter) (w : World) : World :=
  {| qdrant := qdrant w; upserts := upserts w; deletes := f (deletes w); cache := cache w;
     requests := requests w; memoryVectors := memoryVectors w; objects := objects w |}.

Definition set_cache (f : list (jsstring * json) -> list (jsstring * json)) (w : World) : World :=
  {| qdrant := qdrant w; upserts := upserts w; deletes := deletes w; cache := f (cache w);
     requests := requests w; memoryVectors := memoryVectors w; objects := objects w |}.

Definition set_requests (f : list jsstring -> list jsstring) (w : World) : World :=
  {| qdrant := qdrant w; upserts := upserts w; deletes := deletes w; cache := cache w;
     requests := f (requests w); memoryVectors := memoryVectors w; objects := objects w |}.

Definition set_memoryVectors
  (f : list (Document * option (list num)) -> list (Document * option (list num)))
  (w : World) : World :=
  {| qdrant := qdrant w; upserts := upserts w; deletes := deletes w; cache := cache w;
     requests := requests w; memoryVectors := f (memoryVectors w); objects := objects w |}.

Definition set_objects (f : gmap jsstring (list Z) -> gmap jsstring (list Z)) (w : World) : World :=
  {| qdrant := qdrant w; upserts := upserts w; deletes := deletes w; cache := cache w;
     requests := requests w; memoryVectors := memoryVectors w; objects := f (objects w) |}.

(** ** Asynchronous methods: state passing with exceptions *)

Definition M (A : Type) : Type := World -> (exn + A) * World.

Definition ret {A} (a : A) : M A := fun w => (inr a, w).

Definition throw {A} (e : exn) : M A := fun w => (inl e, w).

Definition bind {A B} (m : M A) (k : A -> M B) : M B :=
  fun w => match m w with
           | (inl e, w') => (inl e, w')
           | (inr a, w') => k a w'
           end.

(** A call that settles without touching the state. *)
Definition await {A} (r : exn + A) : M A := fun w => (r, w).

Definition gets {A} (f : World -> A) : M A := fun w => (inr (f w), w).

Definition modify (f : World -> World) : M unit := fun w => (inr tt, f w).

Declare Scope rag_scope.
Delimit Scope rag_scope with rag.
Notation "'let*' x ':=' m 'in' k" := (bind m (fun x => k))
  (at level 10, x pattern, m at level 100, k at level 200) : rag_scope.
Notation "m ';;' k" := (bind m (fun _ => k))
  (at level 100, k at level 200, right associativity) : rag_scope.
Local Open Scope rag_scope.

(** ** The durable vector store

    [QdrantService] is not part of the sources at hand; its three operations
    are modelled from section 4.5 and the filter grammar of section 6 of the
    specification. *)

(** Modelled from the spec: one condition of the filter grammar holds of a
    payload when the field is present and equals the value, or is one of the
    any-of values. *)
Definition holds (c : Condition) (payload : gmap string value) : bool :=
  match payload !! cond_key c with
  | Some v =>
      match cond_match c with
      | MatchValue w => bool_decide (v = w)
      | MatchAny ws => bool_decide (v ∈ ws)
      end
  | None => false
  end.

(** Modelled from the spec: a filter is the conjunction of its conditions. *)
Definition satisfies (f : Filter) (payload : gmap string value) : bool :=
  forallb (fun c => holds c payload) (must f).

(** A ranking takes the elements in their order of arrival, each put in front
    of the first one that does not score higher: the higher score first, and
    among equal scores the earlier arrival first, which is how the stable
    [sort] of the in-memory store leaves them. *)
Fixpoint insert_ranked {A} (score : A -> Z) (x : A) (l : list A) : list A :=
  match l with
  | [] => [x]
  | y :: l' => if score x <? score y then y :: insert_ranked score x l' else x :: y :: l'
  end.

(** Modelled from the spec: a search result is ranked by similarity
    descending and holds the [k] best elements. *)
Definition ranked {A} (score : A -> Z) (k : nat) (l : list A) : list A :=
  take k (foldr (insert_ranked score) [] l).

(** Modelled from the spec: [upsert] is by point id, a later point of the same
    id replacing the earlier one. *)
Definition upsert (points : list PointStruct) (store : gmap jsstring PointStruct)
  : gmap jsstring PointStruct :=
  foldl (fun m p => <[point_id p := p]> m) store points.

(** The store is taken to accept every batch and every delete: a call that
    the store rejects, which may leave part of a batch written, is outside
    this model. *)
Definition batchSaveData (points : list PointStruct) : M unit :=
  modify (fun w => set_qdrant (upsert points) (set_upserts (cons points) w)).

(** Modelled from the spec: [delete] removes every point matching the
    filter. *)
Definition batchDelete (f : Filter) : M unit :=
  modify (fun w =>
    set_qdrant (filter (fun kv => satisfies f (point_payload kv.2) = false))
      (set_deletes (cons f) w)).

(** ** The LRU cache of reader results ([lru-cache], [max] entries) *)

Module LRU.

Definition lookup (k : jsstring) (c : list (jsstring * json)) : option json :=
  snd <$> List.find (fun kv => bool_decide (kv.1 = k)) c.

Definition remove (k : jsstring) (c : list (jsstring * json)) : list (jsstring * json) :=
  List.filter (fun kv => negb (bool_decide (kv.1 = k))) c.

(** [get] makes a found entry the most recently used. *)
Definition get (k : jsstring) (c : list (jsstring * json))
  : option json * list (jsstring * json) :=
  match lookup k c with
  | Some v => (Some v, (k, v) :: remove k c)
  | None => (None, c)
  end.

(** [set] makes the entry the most recently used and evicts from the least
    recently used end what exceeds [max]. *)
Definition set (max : nat) (k : jsstring) (v : json) (c : list (jsstring * json))
  : list (jsstring * json) :=
  take max ((k, v) :: remove k c).

End LRU.

Definition cache_max : nat := 1000.

Definition cache_get (url : jsstring) : M (option json) :=
  fun w => let '(v, c) := LRU.get url (cache w) in (inr v, set_cache (fun _ => c) w).

Definition cache_set (url : jsstring) (data : json) : M unit :=
  modify (set_cache (LRU.set cache_max url data)).

Definition READER_URL : jsstring := lit "https://r.jina.ai/".

(** ** The object storage

    Modelled from the spec: [MinioService] is not part of the sources at hand;
    section 6 of the specification gives it as put and get of bytes by key. *)

Definition putObject (storageKey : jsstring) (buf : list Z) : M unit :=
  modify (set_objects <[storageKey := buf]>).

Definition getObject (storageKey : jsstring) : M (list Z) :=
  fun w => match objects w !! storageKey with
           | Some buf => (inr buf, w)
           | None => (inl (Error (lit "NoSuchKey")), w)
           end.

Definition saveContentChunks (storageKey : jsstring) (data : Avro.ContentData) : M unit :=
  let buf := Avro.toBuffer data in
  putObject storageKey buf.

Definition loadContentChunks (storageKey : jsstring) : M Avro.ContentData :=
  let* buffer := getObject storageKey in
  match Avro.fromBuffer buffer with
  | Some data => ret data
  | None => throw (Error (lit "invalid buffer"))
  end.

(** The state at start-up. *)
Definition empty_world : World :=
  {| qdrant := ∅; upserts := []; deletes := []; cache := []; requests := [];
     memoryVectors := []; objects := ∅ |}.

(** [content.slice(s, e)] for offsets [0 <= s <= e]. *)
Definition slice (content : jsstring) (s e : Z) : jsstring :=
  take (Z.to_nat (e - s)) (drop (Z.to_nat s) content).

(** ** The service *)

(** The collaborators the service is built over. *)
Class Collaborators := {
  (** [cleanMarkdownForIngest] of the utilities package *)
  cleanMarkdownForIngest : jsstring -> jsstring;
  (** [genResourceUuid] of the utilities *)
  genResourceUuid : jsstring -> jsstring;
  (** the embedding provider; a call may fail *)
  embedDocuments : list jsstring -> exn + list (list num);
  embedQuery : jsstring -> exn + list num;
  (** the similarity score both stores rank by, and the store's result limit *)
  similarity : list num -> option (list num) -> Z;
  topK : nat;
  (** [QdrantService.estimatePointsSize] *)
  estimatePointsSize : list PointStruct -> Z;
  (** the network: what [fetch] settles to for a URL *)
  fetch : jsstring -> exn + Response;
  (** what the method [response.text], which the service never calls, renders
      to inside a template literal *)
  text_method_source : jsstring;
}.

Section RAGService.

Context {env : Collaborators}.

(** Modelled from the spec: [search] returns the stored points that satisfy
    the filter, ranked by similarity to the query vector. *)
Definition qdrant_search (param : HybridSearchParam) (f : Filter) : M (list PointStruct) :=
  gets (fun w =>
    ranked (fun p => similarity (default [] (param_vector param)) (point_vector p)) topK
      (List.filter (fun p => satisfies f (point_payload p)) (snd <$> map_to_list (qdrant w)))).

(** The [TypeError] of reading the content of a document that is not
    there. *)
Definition missing_document : exn :=
  Error (lit "Cannot read properties of undefined (reading 'pageContent')").

(** The [vectors.map((embedding, idx) => ...)] of
    [MemoryVectorStore.addVectors], from index [idx] on: an entry is made of
    the embedding and of the document at its index, and reading the content
    of a document that is not there throws. *)
Fixpoint memory_vectors (idx : nat) (vectors : list (list num)) (documents : list Document)
  : exn + list (Document * option (list num)) :=
  match vectors with
  | [] => inr []
  | embedding :: rest =>
      match documents !! idx with
      | None => inl missing_document
      | Some document =>
          match memory_vectors (S idx) rest documents with
          | inl e => inl e
          | inr entries => inr ((document, Some embedding) :: entries)
          end
      end
  end.

(** [MemoryVectorStore.addVectors]: the entries are made, one per vector, and
    then appended. *)
Definition addVectors (vectors : list (list num)) (documents : list Document) : M unit :=
  let* memoryVectors := await (memory_vectors 0 vectors documents) in
  modify (set_memoryVectors (fun mv => mv ++ memoryVectors)).

(** [MemoryVectorStore.addDocuments]: the texts are embedded in one call and
    the documents added with the vectors of the reply. *)
Definition addDocuments (documents : list Document) : M unit :=
  let* vectors := await (embedDocuments (map pageContent documents)) in
  addVectors vectors documents.

(** [MemoryVectorStore.similaritySearch]: the query is embedded, the stored
    documents the filter accepts are ranked, the [k] best returned. *)
Definition similaritySearch (query : jsstring) (k : nat) (f : Document -> bool)
  : M (list Document) :=
  let* v := await (embedQuery query) in
  gets (fun w => fst <$> ranked (fun dv => similarity v dv.2) k
                        (List.filter (fun dv => f dv.1) (memoryVectors w))).

Definition remote_fetch (url : jsstring) : M Response :=
  modify (set_requests (cons url));;
  await (fetch url).

Definition crawlFromRemoteReader (url : jsstring) : M (option json) :=
  let* hit := cache_get url in
  if match hit with Some v => truthy v | None => false end
  then cache_get url
  else
    let* response := remote_fetch (READER_URL ++ url) in
    if negb (resp_status response =? 200)
    then throw (Error (lit "call remote reader failed: "
                       ++ decimal (resp_status response) ++ lit " "
                       ++ resp_statusText response ++ lit " "
                       ++ text_method_source))
    else
      let* data := await (resp_json response) in
      if negb (truthy data)
      then throw (Error (lit "invalid data from remote reader: " ++ text_method_source))
      else
        cache_set url data;;
        ret (Some data).

Definition chunkText (text : jsstring) : M (list jsstring) :=
  await (match Splitter.splitText (cleanMarkdownForIngest text) with
         | Some chunks => inr chunks
         | None => inl (Error (lit "TypeError"))
         end).

(** The [map] of [inMemoryIndexContent], [startIndex] being the variable the
    callback advances. *)
Fixpoint chunk_documents (uid : jsstring) (meta : gmap string value) (startIndex : Z)
  (chunks : list jsstring) : list Document :=
  match chunks with
  | [] => []
  | chunk :: rest =>
      {| pageContent := trim chunk;
         metadata := <["end" := VNum (startIndex + Splitter.len (trim chunk))]>
                       (<["start" := VNum startIndex]>
                          (<["tenantId" := VStr uid]> meta)) |}
      :: chunk_documents uid meta (startIndex + Splitter.len (trim chunk)) rest
  end.

Definition inMemoryIndexContent (user : User) (doc : Document) (needChunk : bool) : M unit :=
  let* chunks := (if needChunk then chunkText (pageContent doc)
                  else ret [pageContent doc]) in
  addDocuments (chunk_documents (uid user) (metadata doc) 0 chunks).

Definition inMemoryIndexDocuments (user : User) (docs : list Document) : M unit :=
  addDocuments
    (map (fun item => {| pageContent := pageContent item;
                         metadata := <["tenantId" := VStr (uid user)]> (metadata item) |})
         docs).

Definition inMemorySearch (user : User) (query : jsstring) (k : option nat)
  (f : Document -> bool) : M (list Document) :=
  let wrapperFilter := fun doc =>
    f doc && bool_decide (metadata doc !! "tenantId" = Some (VStr (uid user))) in
  similaritySearch query (default 10%nat k) wrapperFilter.

(** The points [indexContent] builds in its loop. *)
Definition build_points (uid : jsstring) (meta : gmap string value) (docId : option value)
  (chunks : list jsstring) (chunkEmbeds : list (list num)) : list PointStruct :=
  imap (fun i chunk =>
          {| point_id := genResourceUuid (to_string docId ++ lit "-" ++ decimal (Z.of_nat i));
             point_vector := chunkEmbeds !! i;
             point_payload := <["tenantId" := VStr uid]>
                                (<["content" := VStr chunk]>
                                   (<["seq" := VNum (Z.of_nat i)]> meta)) |})
       chunks.

(** [docId] of [indexContent]. *)
Definition document_id (meta : gmap string value) : option value :=
  if bool_decide (meta !! "nodeType" = Some (VStr (lit "note")))
  then meta !! "noteId" else meta !! "resourceId".

Definition indexContent (user : User) (doc : Document) : M Z :=
  let meta := metadata doc in
  let docId := document_id meta in
  let* chunks := chunkText (pageContent doc) in
  let* chunkEmbeds := await (embedDocuments chunks) in
  let points := build_points (uid user) meta docId chunks chunkEmbeds in
  batchSaveData points;;
  ret (estimatePointsSize points).

Definition deleteResourceNodes (user : User) (resourceId : jsstring) : M unit :=
  batchDelete {| must := [ {| cond_key := "tenantId"; cond_match := MatchValue (VStr (uid user)) |};
                           {| cond_key := "resourceId"; cond_match := MatchValue (VStr resourceId) |} ] |}.

Definition deleteNoteNodes (user : User) (noteId : jsstring) : M unit :=
  batchDelete {| must := [ {| cond_key := "tenantId"; cond_match := MatchValue (VStr (uid user)) |};
                           {| cond_key := "noteId"; cond_match := MatchValue (VStr noteId) |} ] |}.

(** [param.filter?.facet?.length > 0]. *)
Definition populated (param : HybridSearchParam) (facet : SearchFilter -> option (list jsstring))
  : bool :=
  match param_filter param ≫= facet with
  | Some l => 0 <? Splitter.len l
  | None => false
  end.

(** One [if (...) conditions.push(...)] of [retrieve]. *)
Definition push_facet (param : HybridSearchParam) (facet : SearchFilter -> option (list jsstring))
  (key : string) (conditions : list Condition) : list Condition :=
  if populated param facet
  then conditions ++ [ {| cond_key := key;
                          cond_match := MatchAny (VStr <$> default [] (param_filter param ≫= facet)) |} ]
  else conditions.

Definition retrieve_conditions (user : User) (param : HybridSearchParam) : list Condition :=
  let conditions := [ {| cond_key := "tenantId"; cond_match := MatchValue (VStr (uid user)) |} ] in
  let conditions := push_facet param nodeTypes "nodeType" conditions in
  let conditions := push_facet param urls "url" conditions in
  let conditions := push_facet param noteIds "noteId" conditions in
  let conditions := push_facet param resourceIds "resourceId" conditions in
  let conditions := push_facet param collectionIds "collectionId" conditions in
  conditions.

Definition retrieve (user : User) (param : HybridSearchParam)
  : M (list (gmap string value)) :=
  let* param := (match param_vector param with
                 | Some _ => ret param
                 | None =>
                     let* v := await (embedQuery (param_query param)) in
                     ret {| param_query := param_query param;
                            param_vector := Some v;
                            param_filter := param_filter param |}
                 end) in
  let* results := qdrant_search param {| must := retrieve_conditions user param |} in
  ret (point_payload <$> results).

(** *** Notions the properties of the service are stated with *)

(** The condition every filter of [retrieve] starts with. *)
Definition tenant_condition (user : User) : Condition :=
  {| cond_key := "tenantId"; cond_match := MatchValue (VStr (uid user)) |}.

(** What a call returned: the elements of its result, none when it threw. *)
Definition returned {A} (r : (exn + list A) * World) : list A :=
  match r.1 with
  | inr l => l
  | inl _ => []
  end.

(** The any-of condition of one facet, as the specification words it: present
    exactly when the caller's list is given and non-empty. *)
Definition facet_condition (param : HybridSearchParam)
  (facet : SearchFilter -> option (list jsstring)) (key : string) : list Condition :=
  match param_filter param with
  | Some f =>
      match facet f with
      | Some (x :: l) => [ {| cond_key := key; cond_match := MatchAny (VStr <$> x :: l) |} ]
      | Some [] | None => []
      end
  | None => []
  end.

(** The query vector [retrieve] searches with: the caller's, or the embedding
    of the query text. *)
Definition query_vector (param : HybridSearchParam) : exn + list num :=
  match param_vector param with
  | Some v => inr v
  | None => embedQuery (param_query param)
  end.

(** The filter of a delete by owner: tenant equality and equality on the
    owner-id field. *)
Definition owner_filter (user : User) (field : string) (ownerId : jsstring) : Filter :=
  {| must := [ tenant_condition user;
               {| cond_key := field; cond_match := MatchValue (VStr ownerId) |} ] |}.

(** The store after a delete by owner: a point is gone exactly when its
    payload carries both the caller's tenantId and the owner id. *)
Definition after_owner_delete (user : User) (field : string) (ownerId : jsstring)
  (store : gmap jsstring PointStruct) (k : jsstring) : option PointStruct :=
  match store !! k with
  | Some p =>
      if bool_decide (point_payload p !! "tenantId" = Some (VStr (uid user))
                      /\ point_payload p !! field = Some (VStr ownerId))
      then None else Some p
  | None => None
  end.

(** The last point of a batch that carries the id [k]. *)
Definition last_with_id (k : jsstring) (points : list PointStruct) : option PointStruct :=
  last (List.filter (fun p => bool_decide (point_id p = k)) points).

(** The ids of the points of a document of [n] chunks: a function of the
    document id and the chunk index alone. *)
Definition point_ids (docId : option value) (n : nat) : list jsstring :=
  (fun i => genResourceUuid (to_string docId ++ lit "-" ++ decimal (Z.of_nat i))) <$> seq 0 n.

(** The entry [(url, data)] stands in the cache with at most [n] entries in
    front of it, none of them for [url]. *)
Definition cached_within (url : jsstring) (data : json) (n : nat)
  (c : list (jsstring * json)) : Prop :=
  exists pre post,
    c = pre ++ (url, data) :: post
    /\ (length pre <= n)%nat
    /\ Forall (fun kv => kv.1 <> url) pre.

(** The state after a sequence of calls, whatever each of them settles to. *)
Definition run_crawls (urls : list jsstring) (w : World) : World :=
  foldl (fun w u => (crawlFromRemoteReader u w).2) w urls.

(** The chunks [inMemoryIndexContent] works on. *)
Definition chunks_of (doc : Document) (needChunk : bool) : option (list jsstring) :=
  if needChunk then Splitter.splitText (cleanMarkdownForIngest (pageContent doc))
  else Some [pageContent doc].

(** The claim of the specification on chunking: the chunks of a text,
    concatenated in order, give the text back. *)
Definition reconstructs (text : jsstring) : Prop :=
  exists chunks,
    (chunkText text empty_world).1 = inr chunks /\ concat chunks = text.

End RAGService.

(** ** Notions and values the properties are stated with *)

(** The claim of the specification: the error of a failed call carries the
    upstream status and status text. *)
Definition carries_upstream (response : Response) (e : exn) : Prop :=
  match e with
  | Error message =>
      Splitter.includes message (decimal (resp_status response)) = true
      /\ Splitter.includes message (resp_statusText response) = true
  end.

(** The claim of the specification: start and end are offsets into the
    original content, where the stored chunk is found. *)
Definition offsets_into (content : jsstring) (d : Document) : Prop :=
  exists s e,
    metadata d !! "start" = Some (VNum s)
    /\ metadata d !! "end" = Some (VNum e)
    /\ slice content s e = pageContent d.

(** *** Collaborators and inputs of the concrete runs *)

(** A text cleaner that finds nothing to strip. *)
Definition plain (text : jsstring) : jsstring := text.

(** A stand-in for the UUID derivation: the name itself. *)
Definition uuid_of_name (name : jsstring) : jsstring := name.

(** An embedding provider that is down, and one that answers every text with
    the one-dimensional vector of 1. *)
Definition provider_down {A} (_ : A) : exn + list (list num) :=
  inl (Error (lit "embedding timeout")).

Definition unit_vectors (texts : list jsstring) : exn + list (list num) :=
  inr ((fun _ => [Fin false 1 0]) <$> texts).

Definition payload_size (points : list PointStruct) : Z := Splitter.len points.

Definition user_u1 : User := {| uid := lit "u1" |}.

Definition user_u2 : User := {| uid := lit "u2" |}.

Definition note_n1 : Document :=
  {| pageContent := lit "first paragraph";
     metadata := {[ "nodeType" := VStr (lit "note"); "noteId" := VStr (lit "n1") ]} |}.

(** A query for the chunks of the note n1, with an empty facet beside. *)
Definition about_n1 : HybridSearchParam :=
  {| param_query := lit "first";
     param_vector := None;
     param_filter := Some {| nodeTypes := None; urls := None;
                             noteIds := Some [lit "n1"]; resourceIds := Some [];
                             collectionIds := None |} |}.


Definition padded : Document :=
  {| pageContent := lit " a"; metadata := ∅ |}.

(** What [response.text] renders to when it is a built-in method. *)
Definition native_text : jsstring := lit "function text() { [native code] }".

(** A network on which every request gets the same response. *)
Definition always (response : Response) (_ : jsstring) : exn + Response := inr response.

Definition unavailable : Response :=
  {| resp_status := 503; resp_statusText := lit "Service Unavailable"; resp_json := inr JNull |}.

Definition empty_ok : Response :=
  {| resp_status := 200; resp_statusText := lit "OK"; resp_json := inr JNull |}.

Definition empty_no_content : Response :=
  {| resp_status := 200; resp_statusText := lit "No Content"; resp_json := inr (JBool false) |}.

Definition page : json := JObject [(lit "title", JString (lit "Example Domain"))].

Definition found : Response :=
  {| resp_status := 200; resp_statusText := lit "OK"; resp_json := inr page |}.

(** A chunk set with text beyond ASCII (an accented letter, the euro sign and
    a character outside the basic plane) and the vector (1, -0.75). *)
Definition archived : Avro.ContentData :=
  {| Avro.chunks :=
       [ {| Avro.chunk_id := lit "c1";
            Avro.chunk_url := lit "https://example.com";
            Avro.chunk_type := lit "weblink";
            Avro.chunk_title := [233; 8364; 55357; 56832];
            Avro.chunk_content := lit "hello";
            Avro.chunk_vector := [Fin false 1 0; Fin true 3 (-2)] |} ] |}.

(** The double nearest to one tenth, [3602879701896397 * 2^-55]. *)
Definition tenth : num := Fin false 3602879701896397 (-55).

Definition with_vector (vector : list num) : Avro.ContentData :=
  {| Avro.chunks :=
       [ {| Avro.chunk_id := lit "c1"; Avro.chunk_url := lit "";
            Avro.chunk_type := lit ""; Avro.chunk_title := lit "";
            Avro.chunk_content := lit ""; Avro.chunk_vector := vector |} ] |}.

(** The collaborators of the concrete runs: a cleaner that finds nothing to
    strip, the given embedding provider, and a network that answers every
    request with the given response. *)
Definition collaborators (embed : list jsstring -> exn + list (list num))
  (response : Response) : Collaborators :=
  {| cleanMarkdownForIngest := plain;
     genResourceUuid := uuid_of_name;
     embedDocuments := embed;
     embedQuery := fun _ => inr [Fin false 1 0];
     similarity := fun _ _ => 0;
     topK := 10;
     estimatePointsSize := payload_size;
     fetch := always response;
     text_method_source := native_text |}.


(** ** Further notions *)

(** The chunks of a text that fits in one chunk: the trimmed text, when
    anything is left of it. *)
Definition one_chunk (text : jsstring) : list jsstring :=
  if Splitter.is_empty (trim text) then [] else [trim text].

(** The five facets of a search filter, each with the payload field
    [retrieve] matches it against. *)
Definition facets : list ((SearchFilter -> option (list jsstring)) * string) :=
  [ (nodeTypes, "nodeType"); (urls, "url"); (noteIds, "noteId");
    (resourceIds, "resourceId"); (collectionIds, "collectionId") ].

(** The two deletes by owner, each with the payload field it matches the
    owner id against. *)
Definition owner_deletes : list (string * (User -> jsstring -> M unit)) :=
  [ ("resourceId", deleteResourceNodes); ("noteId", deleteNoteNodes) ].

(** The document [inMemoryIndexDocuments] stores for an item: the item with
    the tenantId of the caller. *)
Definition stamped (user : User) (item : Document) : Document :=
  {| pageContent := pageContent item;
     metadata := <["tenantId" := VStr (uid user)]> (metadata item) |}.

(** The predicate [inMemorySearch] hands to the in-memory store: the caller's
    filter and tenant equality. *)
Definition accepts (user : User) (f : Document -> bool) (doc : Document) : bool :=
  f doc && bool_decide (metadata doc !! "tenantId" = Some (VStr (uid user))).

(** What the cache of reader results is kept to: no more than [cache_max]
    entries, one entry for a URL at most, and no value that is not truthy. *)
Definition cache_ok (c : list (jsstring * json)) : Prop :=
  (length c <= cache_max)%nat
  /\ NoDup c.*1
  /\ Forall (fun kv => truthy kv.2 = true) c.

(** The cache answers for [url] without a request: it holds a truthy value
    for it. *)
Definition served (url : jsstring) (c : list (jsstring * json)) : bool :=
  match LRU.lookup url c with
  | Some v => truthy v
  | None => false
  end.

(** *** What the archival codec reads back *)

(** A string with every surrogate that is not half of a pair replaced by
    the code units [r]. *)
Fixpoint replace_unpaired (r s : jsstring) : jsstring :=
  match s with
  | [] => []
  | c :: rest =>
      if Avro.in_range 55296 56319 c then
        match rest with
        | d :: rest' =>
            if Avro.in_range 56320 57343 d then c :: d :: replace_unpaired r rest'
            else r ++ replace_unpaired r rest
        | [] => r
        end
      else if Avro.in_range 56320 57343 c then r ++ replace_unpaired r rest
      else c :: replace_unpaired r rest
  end.

(** [s.toWellFormed()]: U+FFFD for every unpaired surrogate. *)
Definition toWellFormed (s : jsstring) : jsstring := replace_unpaired [65533] s.

(** [Buffer.byteLength(s)]. *)
Definition byteLength (s : jsstring) : Z := Splitter.len (Avro.utf8_encode s).

(** A string as the archive gives it back: well-formed as by [toWellFormed]
    when it takes more than 64 bytes, and with three U+FFFD for every
    unpaired surrogate when it takes 64 bytes or fewer. *)
Definition read_back (s : jsstring) : jsstring :=
  if 64 <? byteLength s then toWellFormed s
  else replace_unpaired [65533; 65533; 65533] s.

(** A string of UTF-16 code units. *)
Definition is_string (s : jsstring) : bool := forallb (Avro.in_range 0 65535) s.

Definition valid_chunk (c : Avro.Chunk) : bool :=
  is_string (Avro.chunk_id c) && is_string (Avro.chunk_url c)
  && is_string (Avro.chunk_type c) && is_string (Avro.chunk_title c)
  && is_string (Avro.chunk_content c).

(** A [ContentData] as the service can hold one: strings of code units, and
    any numbers. *)
Definition valid (data : Avro.ContentData) : bool :=
  forallb valid_chunk (Avro.chunks data).

(** A chunk as the archive gives it back: the strings as they are read back,
    the vector components rounded to binary32. *)
Definition stored_chunk (c : Avro.Chunk) : Avro.Chunk :=
  {| Avro.chunk_id := read_back (Avro.chunk_id c);
     Avro.chunk_url := read_back (Avro.chunk_url c);
     Avro.chunk_type := read_back (Avro.chunk_type c);
     Avro.chunk_title := read_back (Avro.chunk_title c);
     Avro.chunk_content := read_back (Avro.chunk_content c);
     Avro.chunk_vector := Avro.fround <$> Avro.chunk_vector c |}.

Definition stored (data : Avro.ContentData) : Avro.ContentData :=
  {| Avro.chunks := stored_chunk <$> Avro.chunks data |}.

(** A chunk set with a title that is a lone surrogate, a content of 22 lone
    surrogates (66 bytes) and the vector component 0.1. *)
Definition unpaired : Avro.ContentData :=
  {| Avro.chunks :=
       [ {| Avro.chunk_id := lit "c1"; Avro.chunk_url := lit "";
            Avro.chunk_type := lit ""; Avro.chunk_title := [55357];
            Avro.chunk_content := replicate 22 55357; Avro.chunk_vector := [tenth] |} ] |}.

(** A document whose content is two blanks. *)
Definition blank : Document := {| pageContent := lit "  "; metadata := ∅ |}.

(** * The properties *)

(** ** Trimming *)

Lemma trimStart_length s : (length (trimStart s) <= length s)%nat.
Proof. induction s as [|c s IH]; simpl; [lia|]. destruct (is_space c); simpl; lia. Qed.

Lemma trimStart_nonspace s : nonspace (trimStart s) = nonspace s.
Proof.
  unfold nonspace. induction s as [|c s IH]; simpl; [reflexivity|].
  destruct (is_space c) eqn:E; simpl; rewrite ?E; simpl; auto.
Qed.

Lemma trimStart_head s :
  trimStart s = [] \/ exists c r, trimStart s = c :: r /\ is_space c = false.
Proof.
  induction s as [|c s IH]; simpl; [now left|].
  destruct (is_space c) eqn:E; [exact IH|]. right. eauto.
Qed.

Lemma trimStart_fixed c r : is_space c = false -> trimStart (c :: r) = c :: r.
Proof. intros E. simpl. now rewrite E. Qed.

Lemma trimStart_idem s : trimStart (trimStart s) = trimStart s.
Proof.
  destruct (trimStart_head s) as [->|(c & r & -> & E)]; [reflexivity|].
  now apply trimStart_fixed.
Qed.

Lemma trimStart_snoc s c :
  is_space c = false -> trimStart (s ++ [c]) = trimStart s ++ [c].
Proof.
  intros E. induction s as [|d s IH]; simpl; [now rewrite E|].
  destruct (is_space d); [exact IH|reflexivity].
Qed.

Lemma nonspace_rev s : nonspace (rev s) = rev (nonspace s).
Proof.
  unfold nonspace. induction s as [|c s IH]; simpl; [reflexivity|].
  rewrite List.filter_app, IH. simpl. destruct (negb (is_space c)); simpl.
  - reflexivity.
  - now rewrite app_nil_r.
Qed.

Lemma trimEnd_length s : (length (trimEnd s) <= length s)%nat.
Proof.
  unfold trimEnd. rewrite length_rev.
  pose proof (trimStart_length (rev s)) as H. now rewrite length_rev in H.
Qed.

Lemma trimEnd_nonspace s : nonspace (trimEnd s) = nonspace s.
Proof.
  unfold trimEnd. now rewrite nonspace_rev, trimStart_nonspace, nonspace_rev, rev_involutive.
Qed.

Lemma trimEnd_idem s : trimEnd (trimEnd s) = trimEnd s.
Proof. unfold trimEnd. now rewrite rev_involutive, trimStart_idem. Qed.

Lemma trimEnd_head c r :
  is_space c = false -> exists r', trimEnd (c :: r) = c :: r'.
Proof.
  intros E. unfold trimEnd. simpl rev. rewrite trimStart_snoc by assumption.
  rewrite rev_app_distr. simpl. eauto.
Qed.

Lemma trim_length s : (length (trim s) <= length s)%nat.
Proof.
  unfold trim. pose proof (trimEnd_length (trimStart s)). pose proof (trimStart_length s). lia.
Qed.

Lemma trim_nonspace s : nonspace (trim s) = nonspace s.
Proof. unfold trim. now rewrite trimEnd_nonspace, trimStart_nonspace. Qed.

Lemma trimStart_trim s : trimStart (trim s) = trim s.
Proof.
  unfold trim. destruct (trimStart_head s) as [->|(c & r & -> & E)]; [reflexivity|].
  destruct (trimEnd_head c r E) as [r' ->]. now apply trimStart_fixed.
Qed.

Lemma trim_idem s : trim (trim s) = trim s.
Proof.
  unfold trim at 1. rewrite trimStart_trim. unfold trim. apply trimEnd_idem.
Qed.

(** A trimmed string that is not empty has a code unit that is not white
    space. *)
Lemma trimmed_nonspace s : trim s = s -> s <> [] -> nonspace s <> [].
Proof.
  intros Ht Hne. pose proof (trimStart_trim s) as Hs. rewrite Ht in Hs.
  destruct (trimStart_head s) as [H|(c & r & H & E)]; rewrite Hs in H.
  - contradiction.
  - subst s. unfold nonspace. simpl. now rewrite E.
Qed.

(** ** What the splitter guarantees *)

Section Guarantees.

Import Splitter.

Variable chunkSize : Z.
Hypothesis chunkSize_gt_1 : 1 < chunkSize.

Local Abbreviation good := (Splitter.good chunkSize).
Local Abbreviation small := (Splitter.small chunkSize).
Local Abbreviation delivers := (Splitter.delivers chunkSize).

Lemma len_app {A} (l k : list A) : len (l ++ k) = len l + len k.
Proof. unfold len. rewrite length_app. lia. Qed.

Lemma len_nonneg {A} (l : list A) : 0 <= len l.
Proof. unfold len. lia. Qed.

Lemma len_pos (d : jsstring) : d <> [] -> 0 < len d.
Proof. destruct d; [congruence|]. unfold len. simpl. lia. Qed.

Lemma nonspace_app s t : nonspace (s ++ t) = nonspace s ++ nonspace t.
Proof. apply List.filter_app. Qed.

Lemma join_empty docs : join [] docs = concat docs.
Proof.
  induction docs as [|d docs IH]; simpl; [reflexivity|].
  destruct docs; simpl in *; [now rewrite app_nil_r|]. now rewrite IH.
Qed.

Lemma is_empty_true {A} (l : list A) : is_empty l = true <-> l = [].
Proof. destruct l; simpl; split; congruence. Qed.

Lemma push_doc_good docs cur :
  Forall good docs -> len (concat cur) <= chunkSize ->
  Forall good (push_doc docs cur)
  /\ nonspace (concat (push_doc docs cur)) = nonspace (concat docs ++ concat cur).
Proof.
  intros Hdocs Hlen. unfold push_doc, joinDocs. rewrite join_empty.
  destruct (is_empty (trim (concat cur))) eqn:E.
  - apply is_empty_true in E. split; [assumption|].
    rewrite nonspace_app, <- (trim_nonspace (concat cur)), E. simpl. now rewrite app_nil_r.
  - split.
    + apply Forall_app. split; [assumption|]. constructor; [|constructor].
      repeat split.
      * intros H. rewrite H in E. discriminate.
      * apply trim_idem.
      * pose proof (trim_length (concat cur)). unfold len in *. lia.
    + rewrite concat_app, !nonspace_app. simpl. now rewrite app_nil_r, trim_nonspace.
Qed.

Lemma shiftLoop_drain _len cur :
  Forall (fun d => d <> []) cur ->
  shiftLoop chunkSize 0 [] _len (len (concat cur)) cur = Some (0, []).
Proof.
  induction 1 as [|d cur Hd _ IH].
  - cbn [shiftLoop concat]. change (len (A:=Z) []) with 0.
    now rewrite Z.ltb_irrefl, andb_false_r.
  - cbn [shiftLoop concat]. rewrite len_app.
    pose proof (len_pos d Hd). pose proof (len_nonneg (concat cur)).
    replace (0 <? len d + len (concat cur)) with true by (symmetry; apply Z.ltb_lt; lia).
    cbn [orb]. replace (len d + len (concat cur) - len d) with (len (concat cur)) by lia.
    exact IH.
Qed.

Lemma mergeLoop_good splits : forall docs cur total,
  Forall small splits ->
  Forall (fun d => d <> []) cur ->
  total = len (concat cur) -> total <= chunkSize ->
  Forall good docs ->
  exists out,
    mergeLoop chunkSize 0 [] splits docs cur total = Some out
    /\ Forall good out
    /\ nonspace (concat out) = nonspace (concat docs ++ concat cur ++ concat splits).
Proof.
  induction splits as [|d splits IH]; intros docs cur total Hs Hcur Htotal Hle Hdocs.
  - cbn [mergeLoop]. fold (push_doc docs cur).
    destruct (push_doc_good docs cur Hdocs) as [Hg Hn]; [lia|].
    eexists. split; [reflexivity|]. split; [assumption|].
    simpl. now rewrite app_nil_r.
  - apply Forall_cons in Hs as [[Hd Hdlen] Hs].
    cbn [mergeLoop]. cbv zeta. fold (push_doc docs cur).
    assert (Hlen0 : len (A:=Z) [] = 0) by reflexivity.
    rewrite Hlen0, Z.mul_0_r, Z.add_0_r.
    destruct ((chunkSize <? total + len d) && negb (is_empty cur)) eqn:E.
    + rewrite Htotal, shiftLoop_drain by assumption.
      destruct (push_doc_good docs cur Hdocs) as [Hg Hn]; [lia|].
      destruct (IH (push_doc docs cur) ([] ++ [d]) (0 + len d)) as (out & Hrun & Hout & Hnon);
        try assumption.
      * simpl. constructor; [assumption|constructor].
      * simpl. rewrite app_nil_r. lia.
      * lia.
      * exists out. split; [exact Hrun|]. split; [exact Hout|].
        rewrite Hnon. simpl. rewrite !nonspace_app, Hn, !nonspace_app, app_nil_r.
        now rewrite <- !app_assoc.
    + destruct (IH docs (cur ++ [d]) (total + len d)) as (out & Hrun & Hout & Hnon);
        try assumption.
      * apply Forall_app. split; [assumption|]. constructor; [assumption|constructor].
      * rewrite concat_app, len_app. simpl. rewrite app_nil_r. lia.
      * apply andb_false_iff in E as [E|E].
        -- apply Z.ltb_ge in E. lia.
        -- apply negb_false_iff, is_empty_true in E. subst cur total.
           change (len (concat [])) with 0. lia.
      * exists out. split; [exact Hrun|]. split; [exact Hout|].
        rewrite Hnon, concat_app. simpl. rewrite app_nil_r, !nonspace_app.
        now rewrite <- !app_assoc.
Qed.

Lemma mergeSplits_good splits :
  Forall small splits ->
  exists out,
    mergeSplits chunkSize 0 splits [] = Some out
    /\ Forall good out
    /\ nonspace (concat out) = nonspace (concat splits).
Proof.
  intros Hs. unfold mergeSplits.
  destruct (mergeLoop_good splits [] [] 0 Hs) as (out & Hrun & Hout & Hn);
    try (constructor || reflexivity || lia).
  eauto.
Qed.

(** [finalChunks.push(...mergedText)] when there are good splits. *)
Lemma flush_good goodSplits finalChunks :
  Forall small goodSplits -> Forall good finalChunks ->
  exists out,
    (if is_empty goodSplits then Some finalChunks
     else match mergeSplits chunkSize 0 goodSplits [] with
          | None => None
          | Some mergedText => Some (finalChunks ++ mergedText)
          end) = Some out
    /\ Forall good out
    /\ nonspace (concat out) = nonspace (concat finalChunks ++ concat goodSplits).
Proof.
  intros Hg Hf. destruct (is_empty goodSplits) eqn:E.
  - apply is_empty_true in E. subst. exists finalChunks. simpl. now rewrite app_nil_r.
  - destruct (mergeSplits_good goodSplits Hg) as (out & -> & Hout & Hn).
    exists (finalChunks ++ out). split; [reflexivity|]. split; [now apply Forall_app|].
    now rewrite concat_app, !nonspace_app, Hn.
Qed.

Lemma splitLoop_good recur splits : forall goodSplits finalChunks,
  match recur with
  | None => Forall small splits
  | Some call => delivers call
  end ->
  Forall (fun s => s <> []) splits ->
  Forall small goodSplits -> Forall good finalChunks ->
  exists out,
    splitLoop chunkSize 0 recur splits goodSplits finalChunks = Some out
    /\ Forall good out
    /\ nonspace (concat out)
       = nonspace (concat finalChunks ++ concat goodSplits ++ concat splits).
Proof.
  induction splits as [|s splits IH]; intros goodSplits finalChunks Hrec Hne Hg Hf.
  - cbn [splitLoop]. destruct (flush_good goodSplits finalChunks Hg Hf) as (out & -> & Hout & Hn).
    exists out. split; [reflexivity|]. split; [assumption|].
    simpl. now rewrite app_nil_r.
  - apply Forall_cons in Hne as [Hs Hne]. cbn [splitLoop].
    assert (Hrec' : match recur with
                    | None => Forall small splits
                    | Some call => delivers call
                    end).
    { destruct recur; [assumption|]. now apply Forall_cons in Hrec as [_ ?]. }
    destruct (len s <? chunkSize) eqn:E.
    + apply Z.ltb_lt in E.
      destruct (IH (goodSplits ++ [s]) finalChunks) as (out & Hrun & Hout & Hn); try assumption.
      { apply Forall_app. split; [assumption|]. constructor; [now split|constructor]. }
      exists out. split; [exact Hrun|]. split; [exact Hout|].
      rewrite Hn, concat_app. simpl. rewrite app_nil_r, !nonspace_app.
      now rewrite <- !app_assoc.
    + apply Z.ltb_ge in E.
      destruct recur as [call|].
      * destruct (flush_good goodSplits finalChunks Hg Hf) as (fc & -> & Hfc & Hnfc).
        destruct (Hrec s) as (other & -> & Hother & Hnother).
        destruct (IH [] (fc ++ other)) as (out & Hrun & Hout & Hn); try assumption.
        { constructor. }
        { now apply Forall_app. }
        exists out. split; [exact Hrun|]. split; [exact Hout|].
        rewrite Hn, concat_app. simpl. rewrite !nonspace_app, Hnfc, Hnother, !nonspace_app.
        now rewrite <- !app_assoc.
      * apply Forall_cons in Hrec as [[_ Hlt] _]. lia.
Qed.

Lemma concat_split_lookahead sep s : concat (split_lookahead sep s) = s.
Proof.
  induction s as [|c s IH]; [reflexivity|]. cbn [split_lookahead].
  destruct (negb (is_empty s) && starts_with sep s).
  - simpl. now rewrite IH.
  - destruct (split_lookahead sep s) as [|p ps]; simpl in *; now rewrite <- IH.
Qed.

Lemma concat_filter_nonempty (l : list jsstring) :
  concat (List.filter (fun s => negb (is_empty s)) l) = concat l.
Proof.
  induction l as [|x l IH]; [reflexivity|]. simpl.
  destruct x; simpl; [exact IH|]. now rewrite IH.
Qed.

Lemma splitOnSeparator_concat text separator :
  concat (splitOnSeparator text separator) = text.
Proof.
  unfold splitOnSeparator. rewrite concat_filter_nonempty.
  destruct (is_empty separator).
  - induction text as [|c text IH]; simpl; [reflexivity|]. now rewrite IH.
  - apply concat_split_lookahead.
Qed.

Lemma splitOnSeparator_nonempty text separator :
  Forall (fun s => s <> []) (splitOnSeparator text separator).
Proof.
  unfold splitOnSeparator. apply Forall_forall. intros s Hs.
  rewrite list_elem_of_In in Hs. apply filter_In in Hs as [_ Hs].
  destruct s; [discriminate|congruence].
Qed.

Lemma splitOnSeparator_chars text :
  Forall small (splitOnSeparator text []).
Proof.
  unfold splitOnSeparator. cbn [is_empty]. apply Forall_forall. intros s Hs.
  rewrite list_elem_of_In in Hs. apply filter_In in Hs as [Hs _].
  apply in_map_iff in Hs as (c & <- & _). split; [congruence|].
  unfold len. simpl. lia.
Qed.

(** With the empty separator among them, the separators always lead to
    chunks, all of them good, that keep every code unit of the text but
    white space. *)
Lemma splitRec_good separators : forall fallback,
  In [] separators -> delivers (splitRec chunkSize 0 separators fallback).
Proof.
  induction separators as [|s rest IH]; intros fallback Hin text; [destruct Hin|].
  cbn [splitRec]. destruct (is_empty s) eqn:Es.
  - apply is_empty_true in Es. subst s.
    destruct (splitLoop_good None (splitOnSeparator text []) [] [])
      as (out & Hrun & Hout & Hn);
      try (constructor || apply splitOnSeparator_chars || apply splitOnSeparator_nonempty).
    exists out. split; [exact Hrun|]. split; [exact Hout|].
    rewrite Hn. simpl. now rewrite splitOnSeparator_concat.
  - assert (Hrest : In [] rest).
    { destruct Hin as [Hs|Hin]; [subst s; discriminate|assumption]. }
    destruct (includes text s).
    + destruct (splitLoop_good (Some (splitRec chunkSize 0 rest (List.last rest [])))
                  (splitOnSeparator text s) [] [])
        as (out & Hrun & Hout & Hn);
        try (constructor || apply splitOnSeparator_nonempty).
      { now apply IH. }
      exists out. split; [exact Hrun|]. split; [exact Hout|].
      rewrite Hn. simpl. now rewrite splitOnSeparator_concat.
    + now apply IH.
Qed.

(** *** The chunks are cut from spans of the text *)

Lemma chunks_of_spans_app spans spans' :
  chunks_of_spans (spans ++ spans') = chunks_of_spans spans ++ chunks_of_spans spans'.
Proof. unfold chunks_of_spans. now rewrite map_app, List.filter_app. Qed.

Lemma push_doc_span docs cur : push_doc docs cur = docs ++ chunks_of_spans [concat cur].
Proof.
  unfold push_doc, joinDocs, chunks_of_spans. rewrite join_empty. cbn [map List.filter].
  destruct (is_empty (trim (concat cur))); cbn [negb]; [now rewrite app_nil_r|reflexivity].
Qed.

Lemma mergeLoop_spans splits : forall docs cur total out,
  Forall (fun d => d <> []) splits ->
  Forall (fun d => d <> []) cur ->
  total = len (concat cur) ->
  mergeLoop chunkSize 0 [] splits docs cur total = Some out ->
  exists spans,
    out = docs ++ chunks_of_spans spans /\ concat spans = concat cur ++ concat splits.
Proof.
  induction splits as [|d splits IH]; intros docs cur total out Hs Hcur Htotal Hrun.
  - cbn [mergeLoop] in Hrun. fold (push_doc docs cur) in Hrun. injection Hrun as <-.
    exists [concat cur]. split; [apply push_doc_span|]. cbn [concat]. now rewrite !app_nil_r.
  - apply Forall_cons in Hs as [Hd Hs].
    cbn [mergeLoop] in Hrun. cbv zeta in Hrun. fold (push_doc docs cur) in Hrun.
    destruct ((chunkSize <? total + len d + len cur * len (A:=Z) []) && negb (is_empty cur)).
    + rewrite Htotal, shiftLoop_drain in Hrun by assumption.
      apply IH in Hrun as (spans & -> & Hspans); try assumption.
      * exists (concat cur :: spans). split.
        -- change (concat cur :: spans) with ([concat cur] ++ spans).
           now rewrite chunks_of_spans_app, push_doc_span, <- app_assoc.
        -- cbn [concat app] in *. now rewrite Hspans, app_nil_r.
      * constructor; [assumption|constructor].
      * cbn [app concat]. rewrite app_nil_r. lia.
    + apply IH in Hrun as (spans & -> & Hspans); try assumption.
      * exists spans. split; [reflexivity|].
        rewrite Hspans, concat_app. cbn [concat]. now rewrite app_nil_r, <- app_assoc.
      * apply Forall_app. split; [assumption|]. constructor; [assumption|constructor].
      * rewrite concat_app, len_app. cbn [concat]. rewrite app_nil_r. lia.
Qed.

(** [finalChunks.push(...mergedText)] when there are good splits. *)
Lemma flush_spans goodSplits finalChunks out :
  Forall (fun d => d <> []) goodSplits ->
  (if is_empty goodSplits then Some finalChunks
   else match mergeSplits chunkSize 0 goodSplits [] with
        | None => None
        | Some mergedText => Some (finalChunks ++ mergedText)
        end) = Some out ->
  exists spans,
    out = finalChunks ++ chunks_of_spans spans /\ concat spans = concat goodSplits.
Proof.
  intros Hg Hrun. destruct (is_empty goodSplits) eqn:E.
  - apply is_empty_true in E. subst. injection Hrun as <-.
    exists []. split; [now rewrite app_nil_r|reflexivity].
  - unfold mergeSplits in Hrun.
    destruct (mergeLoop chunkSize 0 [] goodSplits [] [] 0) as [merged|] eqn:Hm; [|discriminate].
    injection Hrun as <-.
    apply mergeLoop_spans in Hm as (spans & -> & Hspans);
      [|assumption|constructor|reflexivity].
    exists spans. split; [reflexivity|exact Hspans].
Qed.

Lemma splitLoop_spans recur splits : forall goodSplits finalChunks out,
  match recur with
  | None => Forall small splits
  | Some call => cuts call
  end ->
  Forall (fun s => s <> []) splits ->
  Forall (fun s => s <> []) goodSplits ->
  splitLoop chunkSize 0 recur splits goodSplits finalChunks = Some out ->
  exists spans,
    out = finalChunks ++ chunks_of_spans spans
    /\ concat spans = concat goodSplits ++ concat splits.
Proof.
  induction splits as [|s splits IH]; intros goodSplits finalChunks out Hrec Hne Hg Hrun.
  - cbn [splitLoop] in Hrun. apply flush_spans in Hrun as (spans & -> & Hspans); [|assumption].
    exists spans. split; [reflexivity|]. cbn [concat]. now rewrite app_nil_r.
  - apply Forall_cons in Hne as [Hs Hne]. cbn [splitLoop] in Hrun.
    assert (Hrec' : match recur with
                    | None => Forall small splits
                    | Some call => cuts call
                    end).
    { destruct recur; [assumption|]. now apply Forall_cons in Hrec as [_ ?]. }
    destruct (len s <? chunkSize) eqn:E.
    + apply IH in Hrun as (spans & -> & Hspans); try assumption.
      * exists spans. split; [reflexivity|].
        rewrite Hspans, concat_app. cbn [concat]. now rewrite app_nil_r, <- app_assoc.
      * apply Forall_app. split; [assumption|]. constructor; [assumption|constructor].
    + apply Z.ltb_ge in E.
      destruct recur as [call|].
      * destruct (if is_empty goodSplits then Some finalChunks else _) as [fc|] eqn:Hflush;
          [|discriminate].
        apply flush_spans in Hflush as (spans1 & -> & Hspans1); [|assumption].
        destruct (call s) as [other|] eqn:Hcall; [|discriminate].
        apply Hrec in Hcall as (spans2 & Hspans2 & ->).
        apply IH in Hrun as (spans3 & -> & Hspans3); try assumption; [|constructor].
        exists (spans1 ++ spans2 ++ spans3). split.
        -- now rewrite !chunks_of_spans_app, <- !app_assoc.
        -- rewrite !concat_app, Hspans1, Hspans2, Hspans3. reflexivity.
      * apply Forall_cons in Hrec as [[_ Hlt] _]. lia.
Qed.

Lemma splitRec_spans separators : forall fallback,
  In [] separators -> cuts (splitRec chunkSize 0 separators fallback).
Proof.
  induction separators as [|s rest IH]; intros fallback Hin text out Hrun; [destruct Hin|].
  cbn [splitRec] in Hrun. destruct (is_empty s) eqn:Es.
  - apply is_empty_true in Es. subst s.
    apply splitLoop_spans in Hrun as (spans & -> & Hspans);
      try (constructor || apply splitOnSeparator_chars || apply splitOnSeparator_nonempty).
    exists spans. split; [|reflexivity].
    rewrite Hspans. cbn [concat app]. apply splitOnSeparator_concat.
  - assert (Hrest : In [] rest).
    { destruct Hin as [Hs|Hin]; [subst s; discriminate|assumption]. }
    destruct (includes text s).
    + apply splitLoop_spans in Hrun as (spans & -> & Hspans);
        try (constructor || apply splitOnSeparator_nonempty).
      * exists spans. split; [|reflexivity].
        rewrite Hspans. cbn [concat app]. apply splitOnSeparator_concat.
      * now apply IH.
    + now apply (IH fallback Hrest text).
Qed.

End Guarantees.

Lemma splitText_spans (text : jsstring) (chunks : list jsstring) :
  Splitter.splitText text = Some chunks -> Splitter.cut_from text chunks.
Proof.
  unfold Splitter.splitText, Splitter._splitText.
  apply (splitRec_spans 1000); [lia|].
  unfold Splitter.markdown_separators. apply in_map_iff. exists ""%string. split; [reflexivity|].
  repeat ((left; reflexivity) || right).
Qed.

Lemma splitText_good (text : jsstring) :
  exists chunks,
    Splitter.splitText text = Some chunks
    /\ Forall (Splitter.good 1000) chunks
    /\ nonspace (concat chunks) = nonspace text.
Proof.
  unfold Splitter.splitText, Splitter._splitText.
  apply (splitRec_good 1000); [lia|].
  unfold Splitter.markdown_separators. apply in_map_iff. exists ""%string. split; [reflexivity|].
  repeat ((left; reflexivity) || right).
Qed.

(** ** The archival codec: round trips of the parts *)

Section AvroFacts.

Import Splitter Avro.

Lemma unzigzag_zigzag n : unzigzag (zigzag n) = n.
Proof.
  unfold zigzag, unzigzag. destruct (n <? 0) eqn:E.
  - apply Z.ltb_lt in E.
    replace (- 2 * n - 1) with (1 + 2 * (- n - 1)) by lia.
    rewrite Z.even_add_mul_2. simpl Z.even. cbv iota.
    replace (1 + 2 * (- n - 1) + 1) with ((- n) * 2) by lia.
    rewrite Z.div_mul by lia. lia.
  - rewrite Z.even_mul. simpl. rewrite Z.mul_comm, Z.div_mul by lia. reflexivity.
Qed.

Lemma zigzag_nonneg n : 0 <= zigzag n.
Proof. unfold zigzag. destruct (n <? 0) eqn:E; [apply Z.ltb_lt in E|apply Z.ltb_ge in E]; lia. Qed.

Lemma read_varint_varint fuel : forall m rest,
  0 <= m -> Z.log2 m <= Z.of_nat fuel ->
  read_varint (varint fuel m ++ rest) = Some (m, rest).
Proof.
  induction fuel as [|fuel IH]; intros m rest Hm Hlog.
  - assert (m < 128).
    { destruct (Z.eq_dec m 0) as [->|]; [lia|].
      pose proof (Z.log2_nonneg m). assert (Z.log2 m = 0) as H0 by lia.
      pose proof (Z.log2_spec m ltac:(lia)) as [_ Hup]. rewrite H0 in Hup. simpl in Hup. lia. }
    simpl. replace (m <? 128) with true by (symmetry; now apply Z.ltb_lt). reflexivity.
  - cbn [varint]. destruct (m <? 128) eqn:E.
    + simpl. now rewrite E.
    + apply Z.ltb_ge in E. cbn [app read_varint].
      replace (128 + m mod 128 <? 128) with false
        by (symmetry; apply Z.ltb_ge; pose proof (Z.mod_pos_bound m 128); lia).
      rewrite IH.
      * do 2 f_equal. pose proof (Z.div_mod m 128). lia.
      * apply Z.div_pos; lia.
      * change 128 with (2 ^ 7). rewrite <- Z.shiftr_div_pow2 by lia.
        rewrite Z.log2_shiftr by lia. lia.
Qed.

Lemma readLong_writeLong n rest : readLong (writeLong n ++ rest) = Some (n, rest).
Proof.
  unfold readLong, writeLong.
  rewrite read_varint_varint.
  - now rewrite unzigzag_zigzag.
  - apply zigzag_nonneg.
  - pose proof (Z.log2_nonneg (zigzag n)). lia.
Qed.

Lemma writeLong_0 : writeLong 0 = [0].
Proof. reflexivity. Qed.

Lemma len_take_drop (n : nat) (bytes rest : list Z) :
  n = length bytes ->
  take n (bytes ++ rest) = bytes /\ drop n (bytes ++ rest) = rest.
Proof. intros ->. split; [apply take_app_length|apply drop_app_length]. Qed.

Lemma readString_framing (bytes rest : list Z) :
  readString (writeLong (len bytes) ++ bytes ++ rest) = Some (utf8_decode bytes, rest).
Proof.
  unfold readString. rewrite readLong_writeLong.
  pose proof (len_nonneg bytes).
  replace (len bytes <? 0) with false by (symmetry; apply Z.ltb_ge; lia).
  replace (len (bytes ++ rest) <? len bytes) with false
    by (symmetry; apply Z.ltb_ge; rewrite len_app; pose proof (len_nonneg rest); lia).
  cbn [orb]. unfold len. rewrite Nat2Z.id.
  destruct (len_take_drop (length bytes) bytes rest eq_refl) as [-> ->].
  reflexivity.
Qed.

(** The tests of the decoders are comparisons of integers: [solve_test]
    proves the value of one, [decide_tests] settles the ones in the goal. *)
Ltac solve_test :=
  unfold in_range;
  lazymatch goal with
  | |- (_ <? _) = true => apply (proj2 (Z.ltb_lt _ _)); lia
  | |- (_ <? _) = false => apply (proj2 (Z.ltb_ge _ _)); lia
  | |- (_ =? _) = true => apply (proj2 (Z.eqb_eq _ _)); lia
  | |- (_ =? _) = false => apply (proj2 (Z.eqb_neq _ _)); lia
  | |- (_ <=? _) && (_ <=? _) = true =>
      apply (proj2 (andb_true_iff _ _)); split; apply (proj2 (Z.leb_le _ _)); lia
  | |- (_ <=? _) && (_ <=? _) = false =>
      apply (proj2 (andb_false_iff _ _));
      first [ left; apply (proj2 (Z.leb_gt _ _)); lia
            | right; apply (proj2 (Z.leb_gt _ _)); lia ]
  end.

Ltac decide_tests :=
  repeat match goal with
    | |- context [if ?b then _ else _] =>
        first [ replace b with true by (symmetry; solve_test)
              | replace b with false by (symmetry; solve_test) ];
        cbv iota
    end.

Lemma utf8_decode_1 c t :
  0 <= c < 128 -> utf8_decode (c :: t) = c :: utf8_decode t.
Proof. intros Hc. cbn [utf8_decode]. decide_tests. reflexivity. Qed.

Lemma utf8_decode_2 c t :
  128 <= c < 2048 ->
  utf8_decode ((192 + c / 64) :: (128 + c mod 64) :: t) = c :: utf8_decode t.
Proof.
  intros Hc.
  assert (H : c = 64 * (c / 64) + c mod 64 /\ 0 <= c mod 64 < 64)
    by (Z.div_mod_to_equations; lia).
  revert H. generalize (c / 64) (c mod 64). intros q r0 [Heq Hr0].
  cbn [utf8_decode]. decide_tests. f_equal. lia.
Qed.

Lemma utf8_decode_3 c t :
  2048 <= c < 65536 -> ~ 55296 <= c <= 57343 ->
  utf8_decode ((224 + c / 4096) :: (128 + (c / 64) mod 64) :: (128 + c mod 64) :: t)
  = c :: utf8_decode t.
Proof.
  intros Hc Hs.
  assert (H : c = 4096 * (c / 4096) + 64 * ((c / 64) mod 64) + c mod 64
              /\ 0 <= (c / 64) mod 64 < 64 /\ 0 <= c mod 64 < 64)
    by (Z.div_mod_to_equations; lia).
  revert H. generalize (c / 4096) ((c / 64) mod 64) (c mod 64).
  intros q r1 r0 (Heq & Hr1 & Hr0).
  cbn [utf8_decode].
  destruct (Z.eq_dec q 0); [|destruct (Z.eq_dec q 13)];
    decide_tests; f_equal; lia.
Qed.

Lemma utf8_decode_4 c d t :
  55296 <= c <= 56319 -> 56320 <= d <= 57343 ->
  let cp := 65536 + (c - 55296) * 1024 + (d - 56320) in
  utf8_decode ((240 + cp / 262144) :: (128 + (cp / 4096) mod 64)
               :: (128 + (cp / 64) mod 64) :: (128 + cp mod 64) :: t)
  = c :: d :: utf8_decode t.
Proof.
  intros Hc Hd cp.
  assert (Hcp : 65536 <= cp <= 1114111) by (unfold cp; lia).
  assert (Hc' : c = 55296 + (cp - 65536) / 1024)
    by (unfold cp; Z.div_mod_to_equations; lia).
  assert (Hd' : d = 56320 + (cp - 65536) mod 1024)
    by (unfold cp; Z.div_mod_to_equations; lia).
  clearbody cp. rewrite Hc', Hd'. clear Hc Hd Hc' Hd' c d.
  assert (H : cp = 262144 * (cp / 262144) + 4096 * ((cp / 4096) mod 64)
                   + 64 * ((cp / 64) mod 64) + cp mod 64
              /\ 0 <= (cp / 4096) mod 64 < 64 /\ 0 <= (cp / 64) mod 64 < 64
              /\ 0 <= cp mod 64 < 64)
    by (Z.div_mod_to_equations; lia).
  revert H. generalize (cp / 262144) ((cp / 4096) mod 64) ((cp / 64) mod 64) (cp mod 64).
  intros q r2 r1 r0 (Heq & Hr2 & Hr1 & Hr0).
  cbn [utf8_decode].
  destruct (Z.eq_dec q 0); [|destruct (Z.eq_dec q 4)];
    decide_tests; cbv zeta;
    (replace ((240 + q - 240) * 262144 + (128 + r2 - 128) * 4096
              + (128 + r1 - 128) * 64 + (128 + r0 - 128)) with cp by lia);
    reflexivity.
Qed.

(** The three bytes the loop of [Tap.writeString] writes for a surrogate on
    its own are no UTF-8 sequence: each of them is read as U+FFFD. *)
Lemma utf8_decode_surrogate c t :
  55296 <= c <= 57343 ->
  utf8_decode ((224 + c / 4096) :: (128 + (c / 64) mod 64) :: (128 + c mod 64) :: t)
  = 65533 :: 65533 :: 65533 :: utf8_decode t.
Proof.
  intros Hc.
  assert (H : c / 4096 = 13 /\ 32 <= (c / 64) mod 64 < 64 /\ 0 <= c mod 64 < 64)
    by (Z.div_mod_to_equations; lia).
  revert H. generalize (c / 4096) ((c / 64) mod 64) (c mod 64).
  intros q r1 r0 (-> & Hr1 & Hr0).
  cbn [utf8_decode]. decide_tests. cbn [utf8_decode]. decide_tests. reflexivity.
Qed.

Lemma in_range_spec lo hi b : in_range lo hi b = true <-> lo <= b <= hi.
Proof. unfold in_range. rewrite andb_true_iff, !Z.leb_le. reflexivity. Qed.

Lemma in_range_false lo hi b : in_range lo hi b = false <-> ~ lo <= b <= hi.
Proof. rewrite <- in_range_spec. destruct (in_range lo hi b); split; congruence. Qed.

Lemma utf8_decode_encode_bounded (n : nat) : forall s,
  (length s <= n)%nat -> isWellFormed s = true -> utf8_decode (utf8_encode s) = s.
Proof.
  induction n as [|n IH]; intros s Hlen Hwf.
  - destruct s; [reflexivity|simpl in Hlen; lia].
  - destruct s as [|c rest]; [reflexivity|].
    cbn [isWellFormed utf8_encode] in *. simpl in Hlen.
    destruct (in_range 55296 56319 c) eqn:Ehi.
    + apply in_range_spec in Ehi.
      destruct rest as [|d rest]; [discriminate|].
      apply andb_true_iff in Hwf as [Elo Hwf]. rewrite Elo.
      apply in_range_spec in Elo. simpl in Hlen.
      replace (c <? 128) with false by (symmetry; apply Z.ltb_ge; lia).
      replace (c <? 2048) with false by (symmetry; apply Z.ltb_ge; lia).
      rewrite utf8_decode_4 by assumption.
      rewrite IH by (assumption || lia). reflexivity.
    + apply in_range_false in Ehi.
      apply andb_true_iff in Hwf as [Hc Hwf]. apply andb_true_iff in Hc as [Hc Elo].
      apply in_range_spec in Hc. apply negb_true_iff in Elo. rewrite Elo.
      apply in_range_false in Elo.
      destruct (c <? 128) eqn:E1; [|destruct (c <? 2048) eqn:E2].
      * apply Z.ltb_lt in E1. rewrite utf8_decode_1 by lia.
        rewrite IH by (assumption || lia). reflexivity.
      * apply Z.ltb_ge in E1. apply Z.ltb_lt in E2. rewrite utf8_decode_2 by lia.
        rewrite IH by (assumption || lia). reflexivity.
      * apply Z.ltb_ge in E2. rewrite utf8_decode_3 by lia.
        rewrite IH by (assumption || lia). reflexivity.
Qed.

Lemma utf8_decode_encode s :
  isWellFormed s = true -> utf8_decode (utf8_encode s) = s.
Proof. apply (utf8_decode_encode_bounded (length s)). lia. Qed.

(** On a well-formed string the loop of [Tap.writeString] writes what the
    buffer's encoder writes. *)
Lemma utf8_write_bounded (n : nat) : forall s,
  (length s <= n)%nat -> isWellFormed s = true -> utf8_write s = utf8_encode s.
Proof.
  induction n as [|n IH]; intros s Hlen Hwf.
  - destruct s; [reflexivity|simpl in Hlen; lia].
  - destruct s as [|c rest]; [reflexivity|].
    cbn [isWellFormed utf8_write utf8_encode] in *. simpl in Hlen.
    destruct (c <? 128) eqn:E1.
    { f_equal. apply IH; [lia|].
      apply Z.ltb_lt in E1.
      replace (in_range 55296 56319 c) with false in Hwf
        by (symmetry; apply in_range_false; lia).
      now apply andb_true_iff in Hwf as [_ ?]. }
    destruct (c <? 2048) eqn:E2.
    { do 2 f_equal. apply IH; [lia|].
      apply Z.ltb_lt in E2.
      replace (in_range 55296 56319 c) with false in Hwf
        by (symmetry; apply in_range_false; lia).
      now apply andb_true_iff in Hwf as [_ ?]. }
    destruct (in_range 55296 56319 c) eqn:Ehi.
    + destruct rest as [|d rest]; [discriminate|].
      apply andb_true_iff in Hwf as [Elo Hwf]. rewrite Elo. cbn [andb].
      simpl in Hlen. cbv zeta. do 4 f_equal. apply IH; [lia|assumption].
    + apply andb_true_iff in Hwf as [Hc Hwf]. apply andb_true_iff in Hc as [_ Elo].
      apply negb_true_iff in Elo. rewrite Elo. cbn [andb].
      assert (Hrest : utf8_write rest = utf8_encode rest) by (apply IH; [lia|assumption]).
      destruct rest as [|d rest]; [reflexivity|]. now rewrite Hrest.
Qed.

Lemma utf8_write_encode (s : jsstring) :
  isWellFormed s = true -> utf8_write s = utf8_encode s.
Proof. apply (utf8_write_bounded (length s)). lia. Qed.

Lemma readString_writeString (s : jsstring) (rest : list Z) :
  isWellFormed s = true -> readString (writeString s ++ rest) = Some (s, rest).
Proof.
  intros Hwf. unfold writeString. cbv zeta. rewrite (utf8_write_encode s Hwf).
  destruct (64 <? len (utf8_encode s));
    now rewrite <- app_assoc, readString_framing, utf8_decode_encode.
Qed.

Lemma normalize_odd (fuel : nat) : forall (j : nat) (m q : Z),
  Z.odd m = true -> (j <= fuel)%nat ->
  normalize fuel (m * 2 ^ Z.of_nat j) q = (m, q + Z.of_nat j).
Proof.
  induction fuel as [|fuel IH]; intros j m q Hodd Hj.
  - assert (j = 0%nat) as -> by lia. simpl. now rewrite Z.mul_1_r, Z.add_0_r.
  - destruct j as [|j].
    + simpl. rewrite Z.mul_1_r, Z.add_0_r, <- Z.negb_odd, Hodd. reflexivity.
    + cbn [normalize]. rewrite Nat2Z.inj_succ, Z.pow_succ_r by lia.
      replace (m * (2 * 2 ^ Z.of_nat j)) with (m * 2 ^ Z.of_nat j * 2) by lia.
      rewrite Z.even_mul, Z.div_mul by lia.
      replace (Z.even 2) with true by reflexivity. rewrite orb_true_r.
      rewrite IH by (assumption || lia). f_equal. lia.
Qed.

Lemma finite_shifted neg (m : positive) (j q : Z) :
  Z.odd (Z.pos m) = true -> 0 <= j <= 64 ->
  finite neg (Z.pos m * 2 ^ j) q = Fin neg m (q + j).
Proof.
  intros Hodd Hj. unfold finite.
  assert (0 < 2 ^ j) by (apply Z.pow_pos_nonneg; lia).
  replace (Z.pos m * 2 ^ j =? 0) with false by (symmetry; apply Z.eqb_neq; nia).
  rewrite <- (Z2Nat.id j) by lia.
  rewrite normalize_odd by (assumption || lia). reflexivity.
Qed.

Lemma log2_shifted (m : positive) (j : Z) :
  0 <= j -> Z.log2 (Z.pos m * 2 ^ j) = Z.log2 (Z.pos m) + j.
Proof. intros Hj. rewrite Z.log2_mul_pow2 by lia. lia. Qed.

(** The parts of the conditions of [is_float32]. *)
Lemma is_float32_Fin neg m e :
  is_float32 (Fin neg m e) = true ->
  Z.odd (Z.pos m) = true /\ 0 <= Z.log2 (Z.pos m) <= 23 /\ -149 <= e
  /\ exponent m e <= 127.
Proof.
  cbn [is_float32]. rewrite !andb_true_iff, !Z.leb_le.
  pose proof (Z.log2_nonneg (Z.pos m)). tauto.
Qed.

Lemma fround_exact v : is_float32 v = true -> fround v = v.
Proof.
  destruct v as [| | |neg m e]; try reflexivity.
  intros (Hodd & HL & He & HE)%is_float32_Fin. unfold exponent in *.
  cbn [fround]. cbv zeta. unfold exponent.
  set (q := Z.max (e + Z.log2 (Z.pos m) - 23) (-149)).
  assert (Hq : q <= e /\ e - q <= 23) by (unfold q; lia).
  replace (q <=? e) with true by (symmetry; apply Z.leb_le; lia).
  assert (0 < 2 ^ (e - q)) by (apply Z.pow_pos_nonneg; lia).
  replace (Z.pos m * 2 ^ (e - q) =? 0) with false by (symmetry; apply Z.eqb_neq; nia).
  rewrite log2_shifted by lia.
  replace (127 <? q + (Z.log2 (Z.pos m) + (e - q))) with false
    by (symmetry; apply Z.ltb_ge; lia).
  rewrite finite_shifted by (assumption || lia). f_equal. lia.
Qed.

(** The significand of a binary32 value, shifted to 24 bits. *)
Lemma significand_bounds (m : positive) :
  0 <= Z.log2 (Z.pos m) <= 23 ->
  8388608 <= Z.pos m * 2 ^ (23 - Z.log2 (Z.pos m)) < 16777216.
Proof.
  intros HL. destruct (Z.log2_spec (Z.pos m) ltac:(lia)) as [Hlo Hhi].
  set (L := Z.log2 (Z.pos m)) in *.
  assert (Hp : 0 < 2 ^ (23 - L)) by (apply Z.pow_pos_nonneg; lia).
  assert (H23 : 2 ^ L * 2 ^ (23 - L) = 8388608).
  { rewrite <- Z.pow_add_r by lia. replace (L + (23 - L)) with 23 by lia. reflexivity. }
  assert (H24 : 2 ^ Z.succ L * 2 ^ (23 - L) = 16777216).
  { rewrite <- Z.pow_add_r by lia. replace (Z.succ L + (23 - L)) with 24 by lia. reflexivity. }
  split; nia.
Qed.

Lemma subnormal_bounds (m : positive) (e : Z) :
  -149 <= e -> exponent m e < -126 ->
  0 < Z.pos m * 2 ^ (e + 149) < 8388608.
Proof.
  intros He HE. unfold exponent in HE.
  assert (Hp : 0 < 2 ^ (e + 149)) by (apply Z.pow_pos_nonneg; lia).
  split; [nia|].
  apply Z.log2_lt_cancel. rewrite log2_shifted by lia.
  change (Z.log2 8388608) with 23. lia.
Qed.

Lemma of_bits32_bits32 v : is_float32 v = true -> of_bits32 (bits32 v) = v.
Proof.
  destruct v as [|neg|neg|neg m e]; try (intros _; destruct neg; reflexivity).
  { reflexivity. }
  intros (Hodd & HL & He & HE)%is_float32_Fin.
  cbn [bits32]. destruct (-126 <=? exponent m e) eqn:Enormal.
  - apply Z.leb_le in Enormal.
    pose proof (significand_bounds m HL) as HX.
    assert (Hfin : finite neg (Z.pos m * 2 ^ (23 - Z.log2 (Z.pos m))) (exponent m e - 23)
                   = Fin neg m e).
    { rewrite finite_shifted by (assumption || lia). f_equal. unfold exponent. lia. }
    revert HX Hfin. generalize (Z.pos m * 2 ^ (23 - Z.log2 (Z.pos m))).
    generalize dependent (exponent m e). intros E HE Enormal X HX Hfin.
    unfold of_bits32. cbv zeta.
    set (b := sign_bit neg + (E + 127) * 8388608 + (X - 8388608)).
    assert (Hb : (b / 8388608) mod 256 = E + 127 /\ b mod 8388608 = X - 8388608
                 /\ (2147483648 <=? b) = neg).
    { unfold b, sign_bit. destruct neg.
      - repeat split; [Z.div_mod_to_equations; lia..|apply Z.leb_le; lia].
      - repeat split; [Z.div_mod_to_equations; lia..|apply Z.leb_gt; lia]. }
    destruct Hb as (-> & -> & ->).
    replace (E + 127 =? 255) with false by (symmetry; apply Z.eqb_neq; lia).
    replace (E + 127 =? 0) with false by (symmetry; apply Z.eqb_neq; lia).
    replace (8388608 + (X - 8388608)) with X by lia.
    replace (E + 127 - 150) with (E - 23) by lia. exact Hfin.
  - apply Z.leb_gt in Enormal.
    pose proof (subnormal_bounds m e He Enormal) as HX.
    assert (Hfin : finite neg (Z.pos m * 2 ^ (e + 149)) (-149) = Fin neg m e).
    { rewrite finite_shifted by (assumption || unfold exponent in *; lia). f_equal. lia. }
    revert HX Hfin. generalize (Z.pos m * 2 ^ (e + 149)). intros X HX Hfin.
    unfold of_bits32. cbv zeta.
    set (b := sign_bit neg + X).
    assert (Hb : (b / 8388608) mod 256 = 0 /\ b mod 8388608 = X
                 /\ (2147483648 <=? b) = neg).
    { unfold b, sign_bit. destruct neg.
      - repeat split; [Z.div_mod_to_equations; lia..|apply Z.leb_le; lia].
      - repeat split; [Z.div_mod_to_equations; lia..|apply Z.leb_gt; lia]. }
    destruct Hb as (-> & -> & ->). exact Hfin.
Qed.

Lemma bits32_range v : is_float32 v = true -> 0 <= bits32 v < 4294967296.
Proof.
  destruct v as [|neg|neg|neg m e]; try (intros _; destruct neg; cbn; lia).
  { intros _. cbn. lia. }
  intros (Hodd & HL & He & HE)%is_float32_Fin.
  cbn [bits32]. destruct (-126 <=? exponent m e) eqn:Enormal.
  - apply Z.leb_le in Enormal. pose proof (significand_bounds m HL).
    unfold sign_bit. destruct neg; lia.
  - apply Z.leb_gt in Enormal. pose proof (subnormal_bounds m e He Enormal).
    unfold sign_bit. destruct neg; lia.
Qed.

Lemma readFloat_writeFloat v rest :
  is_float32 v = true -> readFloat (writeFloat v ++ rest) = Some (v, rest).
Proof.
  intros Hv. unfold writeFloat. rewrite (fround_exact v Hv). cbv zeta.
  pose proof (bits32_range v Hv) as Hb. cbn [app readFloat].
  replace (bits32 v mod 256 + 256 * ((bits32 v / 256) mod 256)
           + 65536 * ((bits32 v / 65536) mod 256) + 16777216 * (bits32 v / 16777216))
    with (bits32 v) by (Z.div_mod_to_equations; lia).
  now rewrite of_bits32_bits32.
Qed.

Section ArrayRoundTrip.

Context {A : Type}.
Variable write_item : A -> list Z.
Variable read_item : list Z -> option (A * list Z).
Variable ok : A -> bool.
Hypothesis item_round_trip :
  forall x rest, ok x = true -> read_item (write_item x ++ rest) = Some (x, rest).

Lemma read_items_written (l : list A) (rest : list Z) :
  forallb ok l = true ->
  read_items read_item (length l) (flat_map write_item l ++ rest) = Some (l, rest).
Proof.
  induction l as [|x l IH]; intros Hok; [reflexivity|].
  apply andb_true_iff in Hok as [Hx Hl].
  cbn [length flat_map read_items]. rewrite <- app_assoc, item_round_trip by assumption.
  now rewrite IH.
Qed.

Lemma read_blocks_written (fuel : nat) (l : list A) (rest : list Z) :
  forallb ok l = true ->
  read_blocks read_item (S (S fuel)) (writeArray write_item l ++ rest) [] = Some (l, rest).
Proof.
  intros Hok. unfold writeArray. destruct l as [|x l].
  - cbn [is_empty app]. rewrite writeLong_0. reflexivity.
  - cbn [is_empty]. set (val := x :: l) in *.
    rewrite <- !app_assoc. cbn [read_blocks]. rewrite readLong_writeLong.
    assert (Hlen : 0 < len val) by (unfold len, val; simpl; lia).
    replace (len val =? 0) with false by (symmetry; apply Z.eqb_neq; lia).
    replace (len val <? 0) with false by (symmetry; apply Z.ltb_ge; lia).
    replace (Z.to_nat (Z.abs (len val))) with (length val) by (unfold len; lia).
    rewrite read_items_written by assumption.
    rewrite readLong_writeLong. reflexivity.
Qed.

Lemma readArray_writeArray (l : list A) (rest : list Z) :
  forallb ok l = true ->
  readArray read_item (writeArray write_item l ++ rest) = Some (l, rest).
Proof.
  intros Hok. unfold readArray.
  assert (Hne : (1 <= length (writeArray write_item l ++ rest))%nat).
  { unfold writeArray. rewrite writeLong_0, !length_app. simpl. lia. }
  destruct (length (writeArray write_item l ++ rest)) as [|n]; [lia|].
  now apply read_blocks_written.
Qed.

End ArrayRoundTrip.

Lemma readChunk_writeChunk (c : Chunk) (rest : list Z) :
  exact_chunk c = true -> readChunk (writeChunk c ++ rest) = Some (c, rest).
Proof.
  unfold exact_chunk. rewrite !andb_true_iff.
  intros (((((Hid & Hurl) & Htype) & Htitle) & Hcontent) & Hvector).
  unfold readChunk, writeChunk. rewrite <- !app_assoc.
  rewrite !readString_writeString by assumption.
  rewrite (readArray_writeArray writeFloat readFloat is_float32 readFloat_writeFloat)
    by assumption.
  now destruct c.
Qed.

(** C2 (as the code has it). Archival codec round trip: for every
    [ContentData] whose strings are well-formed (no lone surrogate) and whose
    vector components are binary32 values, decoding the encoded bytes gives
    the value back. *)
Theorem codec_round_trip (x : ContentData) :
  exact x = true -> fromBuffer (toBuffer x) = Some x.
Proof.
  intros Hx. unfold fromBuffer, toBuffer.
  rewrite <- (app_nil_r (writeArray writeChunk (chunks x))).
  rewrite (readArray_writeArray writeChunk readChunk exact_chunk readChunk_writeChunk)
    by assumption.
  now destruct x.
Qed.

End AvroFacts.

(** ** The service *)

Section RAGProperties.

Context {env : Collaborators}.

(** ** Chunking *)

Lemma nonspace_concat_nil (chunks : list jsstring) :
  Forall (fun c => c <> [] /\ trim c = c) chunks ->
  nonspace (concat chunks) = [] -> chunks = [].
Proof.
  intros Hgood Hn. destruct chunks as [|c chunks]; [reflexivity|].
  apply Forall_cons in Hgood as [[Hne Ht] _].
  simpl in Hn. rewrite nonspace_app in Hn.
  apply app_eq_nil in Hn as [Hn _]. now apply trimmed_nonspace in Hn.
Qed.

(** C4 (as the code has it). Chunker contract: for every input text
    [chunkText] returns, without failing and without touching the state, a
    sequence of chunks each of which is non-empty, already trimmed and of
    length (so also of trimmed length) at most 1000. The chunks are cut from
    the cleaned text: it is made up of consecutive spans, and the chunks
    are, in order, the spans trimmed, a span of which nothing is left giving
    no chunk. So white space is lost at the two ends of a span and nowhere
    else, the chunks keep in order every code unit of the cleaned text that
    is not white space, and a text whose cleaned form is empty (or all white
    space) yields the empty sequence. *)
Theorem chunker_contract (text : jsstring) (w : World) :
  exists chunks,
    chunkText text w = (inr chunks, w)
    /\ Forall (fun c => c <> [] /\ trim c = c /\ Splitter.len (trim c) <= 1000) chunks
    /\ (exists spans,
          concat spans = cleanMarkdownForIngest text
          /\ chunks = List.filter (fun c => negb (Splitter.is_empty c)) (map trim spans))
    /\ nonspace (concat chunks) = nonspace (cleanMarkdownForIngest text)
    /\ (nonspace (cleanMarkdownForIngest text) = [] -> chunks = []).
Proof.
  destruct (splitText_good (cleanMarkdownForIngest text))
    as (chunks & Hrun & Hgood & Hn).
  exists chunks. unfold chunkText, await. rewrite Hrun.
  split; [reflexivity|]. split; [|split; [|split; [exact Hn|]]].
  - eapply Forall_impl; [exact Hgood|]. intros c (Hne & Ht & Hlen).
    rewrite Ht. auto.
  - exact (splitText_spans _ _ Hrun).
  - intros Hempty. rewrite <- Hn in Hempty.
    apply nonspace_concat_nil; [|assumption].
    eapply Forall_impl; [exact Hgood|]. intros c (Hne & Ht & _). auto.
Qed.

(** ** Properties of the stores *)

Lemma insert_ranked_Permutation {A} (score : A -> Z) (x : A) (l : list A) :
  insert_ranked score x l ≡ₚ x :: l.
Proof.
  induction l as [|y l IH]; [reflexivity|]. cbn [insert_ranked].
  destruct (score x <? score y); [|reflexivity].
  rewrite IH. apply Permutation_swap.
Qed.

Lemma ranking_Permutation {A} (score : A -> Z) (l : list A) :
  foldr (insert_ranked score) [] l ≡ₚ l.
Proof.
  induction l as [|x l IH]; [reflexivity|]. cbn [foldr].
  now rewrite insert_ranked_Permutation, IH.
Qed.

Lemma ranked_elem_of {A} (score : A -> Z) (k : nat) (l : list A) (x : A) :
  x ∈ ranked score k l -> x ∈ l.
Proof.
  unfold ranked. intros Hx.
  apply elem_of_take in Hx as (i & Hi & _).
  apply list_elem_of_lookup_2 in Hi.
  now rewrite ranking_Permutation in Hi.
Qed.

Lemma satisfies_holds (f : Filter) (c : Condition) (payload : gmap string value) :
  satisfies f payload = true -> c ∈ must f -> holds c payload = true.
Proof.
  unfold satisfies. rewrite forallb_forall. intros H Hc.
  apply H. now apply list_elem_of_In.
Qed.

Lemma holds_value (k : string) (v : value) (payload : gmap string value) :
  holds {| cond_key := k; cond_match := MatchValue v |} payload = true
  <-> payload !! k = Some v.
Proof.
  unfold holds; simpl. destruct (payload !! k) as [u|].
  - rewrite bool_decide_eq_true. split; congruence.
  - split; discriminate.
Qed.

Lemma retrieve_conditions_tenant (user : User) (param : HybridSearchParam) :
  exists rest, retrieve_conditions user param = tenant_condition user :: rest.
Proof.
  unfold retrieve_conditions, push_facet.
  repeat match goal with |- context [if ?b then _ else _] => destruct b end;
    simpl; eexists; reflexivity.
Qed.

(** C1. Tenant isolation: whatever filter or predicate the caller supplies,
    [retrieve] puts the tenant-equality condition (key tenantId, value
    user.uid) at the head of the conjunction it hands to the store, the
    predicate [inMemorySearch] hands to the in-memory store is the caller's
    conjoined with tenant equality, and no payload or document either call
    returns carries a tenantId other than the caller's uid. *)
Theorem tenant_isolation (user : User) :
  (forall param, head (retrieve_conditions user param) = Some (tenant_condition user))
  /\ (forall param w,
        Forall (fun payload => payload !! "tenantId" = Some (VStr (uid user)))
               (returned (retrieve user param w)))
  /\ (forall query k f w,
        Forall (fun doc => f doc = true
                           /\ metadata doc !! "tenantId" = Some (VStr (uid user)))
               (returned (inMemorySearch user query k f w))).
Proof.
  split; [|split].
  - intros param. destruct (retrieve_conditions_tenant user param) as [rest ->].
    reflexivity.
  - intros param w. unfold returned, retrieve, bind, await, ret, qdrant_search, gets.
    assert (Hall : forall p v,
      Forall (fun payload => payload !! "tenantId" = Some (VStr (uid user)))
        (point_payload <$>
           (ranked (fun q => similarity v (point_vector q)) topK
              (List.filter (fun q => satisfies {| must := retrieve_conditions user p |}
                                       (point_payload q))
                 ((map_to_list (qdrant w)).*2))))).
    { intros p v. apply Forall_forall. intros payload Hin.
      apply list_elem_of_fmap in Hin as (pt & -> & Hpt).
      apply ranked_elem_of in Hpt.
      rewrite list_elem_of_In in Hpt; apply filter_In in Hpt as [_ Hsat].
      apply holds_value.
      apply (satisfies_holds _ _ _ Hsat). simpl.
      destruct (retrieve_conditions_tenant user p) as [rest ->].
      apply list_elem_of_here. }
    destruct (param_vector param) as [v|] eqn:Hv; simpl.
    + specialize (Hall param (default [] (param_vector param))). exact Hall.
    + destruct (embedQuery (param_query param)) as [e|v]; simpl; [constructor|].
      apply (Hall {| param_query := param_query param; param_vector := Some v;
                     param_filter := param_filter param |} v).
  - intros query k f w. unfold returned, inMemorySearch, similaritySearch, bind, await, gets.
    destruct (embedQuery query) as [e|v]; simpl; [constructor|].
    apply Forall_forall. intros doc Hin.
    apply list_elem_of_fmap in Hin as ([d vec] & -> & Hd).
    apply ranked_elem_of in Hd.
    rewrite list_elem_of_In in Hd; apply filter_In in Hd as [_ Hsat]. simpl in *.
    apply andb_true_iff in Hsat as [Hf Ht].
    apply bool_decide_eq_true in Ht. auto.
Qed.

Lemma push_facet_spec (param : HybridSearchParam)
  (facet : SearchFilter -> option (list jsstring)) (key : string) (conditions : list Condition) :
  push_facet param facet key conditions = conditions ++ facet_condition param facet key.
Proof.
  unfold push_facet, populated, facet_condition.
  destruct (param_filter param) as [f|]; simpl; [|now rewrite app_nil_r].
  destruct (facet f) as [[|x l]|]; simpl; try now rewrite app_nil_r.
  unfold Splitter.len. simpl length.
  destruct (0 <? Z.of_nat (S (length l))) eqn:E; [reflexivity|].
  apply Z.ltb_ge in E. lia.
Qed.

(** C6. Retrieve filter construction: the filter is the conjunction of tenant
    equality followed by the any-of conditions of the populated facets, in
    the order nodeType, url, noteId, resourceId, collectionId; the query
    vector is the caller's when given and the embedding of the query text
    otherwise (an embedding failure fails the call and changes nothing); the
    result is the payloads of the points the store returns for that vector
    and filter, and the state is left as it was. *)
Theorem retrieve_filter_construction (user : User) (param : HybridSearchParam) (w : World) :
  retrieve_conditions user param
  = tenant_condition user
    :: facet_condition param nodeTypes "nodeType"
    ++ facet_condition param urls "url"
    ++ facet_condition param noteIds "noteId"
    ++ facet_condition param resourceIds "resourceId"
    ++ facet_condition param collectionIds "collectionId"
  /\ retrieve user param w
     = match query_vector param with
       | inl e => (inl e, w)
       | inr v =>
           (inr (point_payload <$>
                   ranked (fun p => similarity v (point_vector p)) topK
                     (List.filter
                        (fun p => satisfies {| must := retrieve_conditions user param |}
                                    (point_payload p))
                        (snd <$> map_to_list (qdrant w)))), w)
       end.
Proof.
  split.
  - unfold retrieve_conditions. rewrite !push_facet_spec.
    unfold tenant_condition. simpl. now rewrite <- !app_assoc.
  - unfold retrieve, query_vector, bind, await, ret, qdrant_search, gets.
    destruct (param_vector param) as [v|] eqn:Hv.
    + now rewrite Hv.
    + destruct (embedQuery (param_query param)) as [e|v]; reflexivity.
Qed.

(** ** Deleting a document's points *)

Lemma batchDelete_run (f : Filter) (w : World) :
  batchDelete f w
  = (inr tt, set_qdrant (filter (fun kv => satisfies f (point_payload kv.2) = false))
               (set_deletes (cons f) w)).
Proof. reflexivity. Qed.

Lemma owner_filter_satisfies (user : User) (field : string) (ownerId : jsstring)
  (payload : gmap string value) :
  satisfies (owner_filter user field ownerId) payload = true
  <-> payload !! "tenantId" = Some (VStr (uid user))
      /\ payload !! field = Some (VStr ownerId).
Proof.
  unfold satisfies, owner_filter, tenant_condition; simpl.
  rewrite andb_true_r, andb_true_iff, !holds_value. reflexivity.
Qed.

Lemma owner_delete_lookup (user : User) (field : string) (ownerId : jsstring)
  (store : gmap jsstring PointStruct) (k : jsstring) :
  filter (fun kv => satisfies (owner_filter user field ownerId) (point_payload kv.2) = false)
         store !! k
  = after_owner_delete user field ownerId store k.
Proof.
  unfold after_owner_delete. rewrite map_lookup_filter.
  destruct (store !! k) as [p|]; simpl; [|reflexivity].
  case_bool_decide as Hd.
  - apply owner_filter_satisfies in Hd.
    rewrite option_guard_False; [reflexivity|]. simpl. congruence.
  - rewrite option_guard_True; [reflexivity|]. simpl.
    destruct (satisfies _ _) eqn:E; [|reflexivity].
    apply owner_filter_satisfies in E. contradiction.
Qed.

(** C7. Delete scoping: [deleteResourceNodes] and [deleteNoteNodes] each
    issue one delete, whose filter is exactly tenant equality on the caller's
    uid conjoined with equality on resourceId (resp. noteId); the store
    loses exactly the points whose payload carries both, so the points of
    other tenants and of other owner ids stay as they were. *)
Theorem delete_scoping (user : User) (ownerId : jsstring) (w : World) :
  (let r := deleteResourceNodes user ownerId w in
   r.1 = inr tt
   /\ deletes r.2 = owner_filter user "resourceId" ownerId :: deletes w
   /\ forall k, qdrant r.2 !! k = after_owner_delete user "resourceId" ownerId (qdrant w) k)
  /\ (let r := deleteNoteNodes user ownerId w in
      r.1 = inr tt
      /\ deletes r.2 = owner_filter user "noteId" ownerId :: deletes w
      /\ forall k, qdrant r.2 !! k = after_owner_delete user "noteId" ownerId (qdrant w) k).
Proof.
  split; cbv zeta; unfold deleteResourceNodes, deleteNoteNodes;
    rewrite batchDelete_run; simpl; (split; [reflexivity|split; [reflexivity|]]);
    intros k; apply owner_delete_lookup.
Qed.

(** ** Ingesting a document *)

Lemma indexContent_run (user : User) (doc : Document) (w : World) :
  indexContent user doc w
  = match Splitter.splitText (cleanMarkdownForIngest (pageContent doc)) with
    | None => (inl (Error (lit "TypeError")), w)
    | Some chunks =>
        match embedDocuments chunks with
        | inl e => (inl e, w)
        | inr chunkEmbeds =>
            let points := build_points (uid user) (metadata doc)
                            (document_id (metadata doc)) chunks chunkEmbeds in
            (inr (estimatePointsSize points),
             set_qdrant (upsert points) (set_upserts (cons points) w))
        end
    end.
Proof.
  unfold indexContent, chunkText, bind, await, batchSaveData, modify, ret.
  destruct (Splitter.splitText _) as [chunks|]; [|reflexivity].
  destruct (embedDocuments chunks) as [e|embeds]; reflexivity.
Qed.

(** C3. Embedding failure aborts before any write: when the batched
    embedding call fails on the document's chunks, [indexContent] fails with
    the provider's error and the state is the one it started from: the
    store holds the same points and received no batch. *)
Theorem embedding_failure_aborts (user : User) (doc : Document) (w : World)
  (chunks : list jsstring) (e : exn) :
  Splitter.splitText (cleanMarkdownForIngest (pageContent doc)) = Some chunks ->
  embedDocuments chunks = inl e ->
  indexContent user doc w = (inl e, w)
  /\ upserts (indexContent user doc w).2 = upserts w
  /\ qdrant (indexContent user doc w).2 = qdrant w.
Proof.
  intros Hc He. rewrite indexContent_run, Hc, He. auto.
Qed.

Lemma upsert_lookup (points : list PointStruct) (store : gmap jsstring PointStruct)
  (k : jsstring) :
  upsert points store !! k
  = match last_with_id k points with
    | Some p => Some p
    | None => store !! k
    end.
Proof.
  unfold upsert, last_with_id. revert store.
  induction points as [|p points IH]; intros store; simpl; [reflexivity|].
  rewrite IH. case_bool_decide as Hk.
  - destruct (List.filter _ points) as [|q l] eqn:E; simpl.
    + subst k. now rewrite lookup_insert_eq.
    + simpl in *. destruct (last (q :: l)) eqn:El; [|now apply last_None in El].
      destruct l; simpl in *; congruence.
  - destruct (last _); [reflexivity|]. now rewrite lookup_insert_ne.
Qed.


Lemma build_points_ids (u : jsstring) (meta : gmap string value) (docId : option value)
  (chunks : list jsstring) (embeds : list (list num)) :
  point_id <$> build_points u meta docId chunks embeds = point_ids docId (length chunks).
Proof.
  unfold build_points, point_ids.
  apply list_eq. intros i.
  rewrite !list_lookup_fmap, list_lookup_imap.
  destruct (chunks !! i) as [c|] eqn:Hc; simpl.
  - apply lookup_lt_Some in Hc as Hlt. rewrite lookup_seq_lt by lia. reflexivity.
  - apply lookup_ge_None in Hc. rewrite lookup_seq_ge by lia. reflexivity.
Qed.


(** ** The remote reader and its cache *)

Lemma lru_get_miss (k : jsstring) (c : list (jsstring * json)) :
  LRU.lookup k c = None -> LRU.get k c = (None, c).
Proof. unfold LRU.get. now intros ->. Qed.

Lemma crawl_miss (url : jsstring) (w : World) :
  LRU.lookup url (cache w) = None ->
  crawlFromRemoteReader url w
  = let w1 := set_requests (cons (READER_URL ++ url)) (set_cache (fun _ => cache w) w) in
    match fetch (READER_URL ++ url) with
    | inl e => (inl e, w1)
    | inr response =>
        if negb (resp_status response =? 200)
        then (inl (Error (lit "call remote reader failed: "
                          ++ decimal (resp_status response) ++ lit " "
                          ++ resp_statusText response ++ lit " "
                          ++ text_method_source)), w1)
        else match resp_json response with
             | inl e => (inl e, w1)
             | inr data =>
                 if negb (truthy data)
                 then (inl (Error (lit "invalid data from remote reader: "
                                   ++ text_method_source)), w1)
                 else (inr (Some data), set_cache (LRU.set cache_max url data) w1)
             end
    end.
Proof.
  intros Hmiss.
  unfold crawlFromRemoteReader, bind, cache_get, remote_fetch, bind, modify, await, throw,
    cache_set, modify, ret.
  rewrite (lru_get_miss _ _ Hmiss). cbv beta iota zeta.
  destruct (fetch (READER_URL ++ url)) as [e|response]; [reflexivity|].
  destruct (negb (resp_status response =? 200)); [reflexivity|].
  destruct (resp_json response) as [e|data]; [reflexivity|].
  destruct (negb (truthy data)); reflexivity.
Qed.

Lemma set_cache_same (w : World) : set_cache (fun _ => cache w) w = w.
Proof. now destruct w. Qed.

(** C8 (as the code has it). Remote fetch failure: on a cache miss, a
    response whose status is not 200 fails the call with an [Error] whose
    message carries the status and the status text; a 200 response whose
    body is not JSON fails it with the parser's exception; a 200 response
    whose payload is empty (falsy) fails it with the error "invalid data from
    remote reader", which carries no status. In each case nothing is
    returned and the cache is the one the call started with. *)
Theorem remote_fetch_failure (url : jsstring) (w : World) (response : Response) :
  LRU.lookup url (cache w) = None ->
  fetch (READER_URL ++ url) = inr response ->
  let failed := set_requests (cons (READER_URL ++ url)) w in
  (resp_status response <> 200 ->
     crawlFromRemoteReader url w
     = (inl (Error (lit "call remote reader failed: "
                    ++ decimal (resp_status response) ++ lit " "
                    ++ resp_statusText response ++ lit " "
                    ++ text_method_source)), failed))
  /\ (resp_status response = 200 -> forall e, resp_json response = inl e ->
        crawlFromRemoteReader url w = (inl e, failed))
  /\ (resp_status response = 200 -> forall data, resp_json response = inr data ->
        truthy data = false ->
        crawlFromRemoteReader url w
        = (inl (Error (lit "invalid data from remote reader: " ++ text_method_source)),
           failed))
  /\ cache failed = cache w.
Proof.
  intros Hmiss Hfetch. cbv zeta.
  rewrite (crawl_miss _ _ Hmiss), Hfetch, set_cache_same. cbv zeta.
  repeat split.
  - intros Hs. apply Z.eqb_neq in Hs. now rewrite Hs.
  - intros Hs e He. apply Z.eqb_eq in Hs. now rewrite Hs, He.
  - intros Hs data Hd Ht. apply Z.eqb_eq in Hs. now rewrite Hs, Hd, Ht.
Qed.

Lemma cache_set_cache f w : cache (set_cache f w) = f (cache w).
Proof. reflexivity. Qed.

Lemma cache_set_requests f w : cache (set_requests f w) = cache w.
Proof. reflexivity. Qed.

Lemma requests_set_cache f w : requests (set_cache f w) = requests w.
Proof. reflexivity. Qed.

Create Rewrite HintDb world.
#[local] Hint Rewrite cache_set_cache cache_set_requests requests_set_cache : world.

Lemma lru_remove_idem (k : jsstring) (c : list (jsstring * json)) :
  LRU.remove k (LRU.remove k c) = LRU.remove k c.
Proof.
  unfold LRU.remove. induction c as [|kv c IH]; simpl; [reflexivity|].
  destruct (negb (bool_decide (kv.1 = k))) eqn:E; simpl; [rewrite E|]; now rewrite ?IH.
Qed.

Lemma lru_remove_cons_same (k : jsstring) (v : json) (c : list (jsstring * json)) :
  LRU.remove k ((k, v) :: c) = LRU.remove k c.
Proof. unfold LRU.remove. simpl. now rewrite bool_decide_eq_true_2. Qed.

Lemma lru_lookup_cons_same (k : jsstring) (v : json) (c : list (jsstring * json)) :
  LRU.lookup k ((k, v) :: c) = Some v.
Proof. unfold LRU.lookup. simpl. now rewrite bool_decide_eq_true_2. Qed.

Lemma cached_within_lookup url data n c :
  cached_within url data n c -> LRU.lookup url c = Some data.
Proof.
  intros (pre & post & -> & _ & Hpre). unfold LRU.lookup.
  induction Hpre as [|kv pre Hkv _ IH]; simpl.
  - now rewrite bool_decide_eq_true_2.
  - now rewrite bool_decide_eq_false_2.
Qed.

Lemma cached_within_weaken url data n m c :
  (n <= m)%nat -> cached_within url data n c -> cached_within url data m c.
Proof. intros Hle (pre & post & -> & Hn & Hpre). exists pre, post. repeat split; [lia|assumption]. Qed.

Lemma cached_within_front url data c :
  cached_within url data 0 ((url, data) :: c).
Proof. exists [], c. repeat split; [simpl; lia|constructor]. Qed.

Lemma lru_remove_length k (c : list (jsstring * json)) :
  (length (LRU.remove k c) <= length c)%nat.
Proof. apply List.filter_length_le. Qed.

Lemma cached_within_touch url data n c u v :
  u <> url -> cached_within url data n c ->
  cached_within url data (S n) ((u, v) :: LRU.remove u c).
Proof.
  intros Hne (pre & post & -> & Hn & Hpre).
  exists ((u, v) :: LRU.remove u pre), (LRU.remove u post). repeat split.
  - unfold LRU.remove. rewrite List.filter_app. simpl.
    rewrite bool_decide_eq_false_2 by congruence. reflexivity.
  - simpl. pose proof (lru_remove_length u pre). lia.
  - constructor; [simpl; congruence|].
    unfold LRU.remove. rewrite Forall_forall in *. intros kv Hkv.
    apply Hpre. rewrite list_elem_of_In in *. now apply filter_In in Hkv as [? _].
Qed.

Lemma cached_within_take url data n c m :
  (n < m)%nat -> cached_within url data n c -> cached_within url data n (take m c).
Proof.
  intros Hlt (pre & post & -> & Hn & Hpre).
  exists pre, (take (m - S (length pre)) post). repeat split; [|assumption..].
  rewrite take_app_ge by lia.
  replace (m - length pre)%nat with (S (m - S (length pre))) by lia. reflexivity.
Qed.

Lemma crawl_hit (url : jsstring) (v : json) (w : World) :
  LRU.lookup url (cache w) = Some v -> truthy v = true ->
  crawlFromRemoteReader url w
  = (inr (Some v), set_cache (fun _ => (url, v) :: LRU.remove url (cache w)) w).
Proof.
  intros Hl Ht.
  unfold crawlFromRemoteReader, bind, cache_get, LRU.get. rewrite Hl, Ht.
  autorewrite with world. rewrite lru_lookup_cons_same, lru_remove_cons_same, lru_remove_idem.
  now destruct w.
Qed.

(** One more call, for any URL, moves a cached entry back by one place at
    most. *)
Lemma crawl_keeps_cached url data n u w :
  truthy data = true -> (S n < cache_max)%nat ->
  cached_within url data n (cache w) ->
  cached_within url data (S n) (cache (crawlFromRemoteReader u w).2).
Proof.
  intros Ht Hn Hc.
  destruct (decide (u = url)) as [->|Hne].
  { rewrite (crawl_hit _ data) by eauto using cached_within_lookup.
    cbn [snd]. autorewrite with world.
    apply (cached_within_weaken _ _ 0); [lia|apply cached_within_front]. }
  unfold crawlFromRemoteReader, bind, cache_get, LRU.get.
  destruct (LRU.lookup u (cache w)) as [v|] eqn:Hl.
  - destruct (truthy v) eqn:Hv; cbv beta iota; autorewrite with world.
    + rewrite lru_lookup_cons_same. cbn [snd]. autorewrite with world.
      rewrite lru_remove_cons_same, lru_remove_idem.
      now apply cached_within_touch.
    + unfold remote_fetch, bind, modify, await, throw, cache_set, modify, ret.
      destruct (fetch (READER_URL ++ u)) as [e|response];
        [cbn [snd]; autorewrite with world; now apply cached_within_touch|].
      destruct (negb (resp_status response =? 200));
        [cbn [snd]; autorewrite with world; now apply cached_within_touch|].
      destruct (resp_json response) as [e|d];
        [cbn [snd]; autorewrite with world; now apply cached_within_touch|].
      destruct (negb (truthy d)); cbn [snd]; autorewrite with world;
        [now apply cached_within_touch|].
      unfold LRU.set. rewrite lru_remove_cons_same, lru_remove_idem.
      apply cached_within_take; [assumption|]. now apply cached_within_touch.
  - unfold remote_fetch, bind, modify, await, throw, cache_set, modify, ret.
    assert (Hsame : cached_within url data (S n) (cache w))
      by (apply (cached_within_weaken _ _ n); [lia|assumption]).
    destruct (fetch (READER_URL ++ u)) as [e|response];
      [cbn [snd]; autorewrite with world; exact Hsame|].
    destruct (negb (resp_status response =? 200));
      [cbn [snd]; autorewrite with world; exact Hsame|].
    destruct (resp_json response) as [e|d];
      [cbn [snd]; autorewrite with world; exact Hsame|].
    destruct (negb (truthy d)); cbn [snd]; autorewrite with world; [exact Hsame|].
    unfold LRU.set. apply cached_within_take; [assumption|]. now apply cached_within_touch.
Qed.

Lemma run_crawls_keeps_cached url data urls n w :
  truthy data = true -> (n + length urls < cache_max)%nat ->
  cached_within url data n (cache w) ->
  cached_within url data (n + length urls) (cache (run_crawls urls w)).
Proof.
  intros Ht. revert n w. induction urls as [|u urls IH]; intros n w Hn Hc; simpl in *.
  - now rewrite Nat.add_0_r.
  - replace (n + S (length urls))%nat with (S n + length urls)%nat by lia.
    apply IH; [lia|]. apply crawl_keeps_cached; [assumption|lia|assumption].
Qed.

Lemma crawl_success_cached url w r w' :
  crawlFromRemoteReader url w = (inr r, w') ->
  exists data, r = Some data /\ truthy data = true /\ cached_within url data 0 (cache w').
Proof.
  unfold crawlFromRemoteReader, bind, cache_get, LRU.get.
  assert (Hfetch : forall w0,
    (let 'pair r0 w1 := remote_fetch (READER_URL ++ url) w0 in
     match r0 with
     | inl e => (inl e, w1)
     | inr response =>
         (if negb (resp_status response =? 200)
          then throw (Error (lit "call remote reader failed: "
                             ++ decimal (resp_status response) ++ lit " "
                             ++ resp_statusText response ++ lit " " ++ text_method_source))
          else bind (await (resp_json response)) (fun data =>
                 if negb (truthy data)
                 then throw (Error (lit "invalid data from remote reader: "
                                    ++ text_method_source))
                 else bind (cache_set url data) (fun _ => ret (Some data)))) w1
     end) = (inr r, w') ->
    exists data, r = Some data /\ truthy data = true /\ cached_within url data 0 (cache w')).
  { intros w0. unfold remote_fetch, bind, modify, await, throw, cache_set, modify, ret.
    destruct (fetch (READER_URL ++ url)) as [e|response]; [discriminate|].
    destruct (negb (resp_status response =? 200)); [discriminate|].
    destruct (resp_json response) as [e|d]; [discriminate|].
    destruct (truthy d) eqn:Hd; cbn [negb]; [|discriminate].
    intros [= <- <-]. exists d. repeat split; [assumption|].
    autorewrite with world. unfold LRU.set, cache_max.
    rewrite firstn_cons. apply cached_within_front. }
  destruct (LRU.lookup url (cache w)) as [v|] eqn:Hl.
  - destruct (truthy v) eqn:Hv; cbv beta iota.
    + autorewrite with world. rewrite lru_lookup_cons_same.
      intros [= <- <-]. exists v. repeat split; [assumption|].
      autorewrite with world. apply cached_within_front.
    + apply Hfetch.
  - apply Hfetch.
Qed.

(** C9. Fetch cache correctness: a successful [crawlFromRemoteReader] of a
    URL returns a result it has stored in the cache under that URL, as the
    most recently used entry; and after any sequence of fewer than 1000
    further calls (the capacity of the cache), for whatever URLs and whatever
    their outcome, a call for the same URL returns that same result and
    requests nothing from the network. *)
Theorem fetch_cache_correct (url : jsstring) (w : World) (r : option json) (w' : World) :
  crawlFromRemoteReader url w = (inr r, w') ->
  exists data,
    r = Some data
    /\ LRU.lookup url (cache w') = Some data
    /\ head (cache w') = Some (url, data)
    /\ forall others, (length others < cache_max)%nat ->
         let w'' := run_crawls others w' in
         (crawlFromRemoteReader url w'').1 = inr (Some data)
         /\ requests (crawlFromRemoteReader url w'').2 = requests w''.
Proof.
  intros Hrun. destruct (crawl_success_cached _ _ _ _ Hrun) as (data & -> & Ht & Hc).
  exists data. split; [reflexivity|]. split; [eauto using cached_within_lookup|]. split.
  - destruct Hc as (pre & post & -> & Hlen & _). destruct pre; [reflexivity|simpl in Hlen; lia].
  - intros others Hlen. cbv zeta.
    pose proof (run_crawls_keeps_cached url data others 0 w' Ht Hlen Hc) as Hk.
    rewrite (crawl_hit _ data) by eauto using cached_within_lookup.
    split; reflexivity.
Qed.

(** ** Indexing into the in-memory store *)

Lemma chunk_documents_length u meta start chunks :
  length (chunk_documents u meta start chunks) = length chunks.
Proof. revert start. induction chunks; intros; simpl; auto. Qed.

Lemma chunk_documents_contents u meta start chunks :
  pageContent <$> chunk_documents u meta start chunks = trim <$> chunks.
Proof.
  revert start. induction chunks as [|c cs IH]; intros start; simpl; [reflexivity|].
  f_equal. apply IH.
Qed.

Lemma chunk_documents_lookup u meta start chunks i chunk :
  chunks !! i = Some chunk ->
  chunk_documents u meta start chunks !! i
  = Some {| pageContent := trim chunk;
            metadata :=
              <["end" := VNum (start + Splitter.len (concat (trim <$> take i chunks))
                               + Splitter.len (trim chunk))]>
                (<["start" := VNum (start + Splitter.len (concat (trim <$> take i chunks)))]>
                   (<["tenantId" := VStr u]> meta)) |}.
Proof.
  revert start i. induction chunks as [|c chunks IH]; intros start i Hi; [discriminate|].
  destruct i as [|i]; simpl in *.
  - injection Hi as ->. unfold Splitter.len at 2 4. simpl. now rewrite !Z.add_0_r.
  - rewrite (IH _ _ Hi). now rewrite !len_app, !Z.add_assoc.
Qed.

Lemma slice_concat_take (ls : list jsstring) (i : nat) (x : jsstring) :
  ls !! i = Some x ->
  slice (concat ls) (Splitter.len (concat (take i ls)))
        (Splitter.len (concat (take i ls)) + Splitter.len x) = x.
Proof.
  intros Hi. unfold slice, Splitter.len.
  assert (Hsplit : concat ls = concat (take i ls) ++ x ++ concat (drop (S i) ls)).
  { rewrite <- (take_drop_middle ls i x Hi) at 1. now rewrite concat_app, concat_cons. }
  rewrite Hsplit.
  replace (Z.to_nat (Z.of_nat (length (concat (take i ls))))) with
    (length (concat (take i ls))) by lia.
  rewrite drop_app_length.
  replace (Z.to_nat _) with (length x) by lia.
  now rewrite take_app_length.
Qed.

(** The entries [addVectors] makes from index [idx] on: one per vector, with
    the document at its index, unless the vectors outnumber the documents. *)
Lemma memory_vectors_run (vectors : list (list num)) : forall idx documents,
  memory_vectors idx vectors documents
  = if (length vectors <=? length (drop idx documents))%nat
    then inr (zip_with (fun d v => (d, Some v)) (drop idx documents) vectors)
    else inl missing_document.
Proof.
  induction vectors as [|v vectors IH]; intros idx documents.
  - cbn [memory_vectors length Nat.leb]. now rewrite zip_with_nil_r.
  - cbn [memory_vectors length]. rewrite IH.
    destruct (documents !! idx) as [d|] eqn:Hd.
    + rewrite (drop_S _ _ _ Hd). cbn [length Nat.leb zip_with].
      now destruct (length vectors <=? length (drop (S idx) documents))%nat.
    + apply lookup_ge_None in Hd. rewrite drop_ge by assumption. reflexivity.
Qed.

Lemma addDocuments_run (documents : list Document) (w : World) :
  addDocuments documents w
  = match embedDocuments (pageContent <$> documents) with
    | inl e => (inl e, w)
    | inr vectors =>
        if (length vectors <=? length documents)%nat
        then (inr tt, set_memoryVectors
                        (fun mv => mv ++ zip_with (fun d v => (d, Some v)) documents vectors) w)
        else (inl missing_document, w)
    end.
Proof.
  unfold addDocuments, addVectors, bind, await, modify.
  change (map pageContent documents) with (pageContent <$> documents).
  destruct (embedDocuments _) as [e|vectors]; [reflexivity|].
  rewrite memory_vectors_run, !drop_0.
  now destruct (length vectors <=? length documents)%nat.
Qed.

(** C10 (as the code has it). Chunk offsets: [inMemoryIndexContent] makes one
    document per chunk, whose content is the trimmed chunk and whose metadata
    carries the caller's tenantId and the offsets start and end; start is the
    total length of the trimmed chunks before it (0 for the first, the
    previous end for the others) and end - start is the length of the
    content, so the intervals are consecutive, non-overlapping and cover the
    concatenation of the contents exactly once; they are offsets into that
    concatenation, of which each content is the slice from start to end. The
    documents are stored with the vectors of the embedding reply, one per
    vector and so one per chunk when the reply has a vector for each; a
    reply with more vectors than chunks fails the call and stores nothing. *)
Theorem chunk_offsets (user : User) (doc : Document) (needChunk : bool) (w : World)
  (chunks : list jsstring) (vectors : list (list num)) :
  chunks_of doc needChunk = Some chunks ->
  embedDocuments (trim <$> chunks) = inr vectors ->
  exists docs,
    inMemoryIndexContent user doc needChunk w
    = (if (length vectors <=? length chunks)%nat
       then (inr tt, set_memoryVectors
                       (fun mv => mv ++ zip_with (fun d v => (d, Some v)) docs vectors) w)
       else (inl missing_document, w))
    /\ pageContent <$> docs = trim <$> chunks
    /\ forall i d, docs !! i = Some d ->
         let s := Splitter.len (concat (take i (pageContent <$> docs))) in
         let e := s + Splitter.len (pageContent d) in
         metadata d !! "tenantId" = Some (VStr (uid user))
         /\ metadata d !! "start" = Some (VNum s)
         /\ metadata d !! "end" = Some (VNum e)
         /\ slice (concat (pageContent <$> docs)) s e = pageContent d.
Proof.
  intros Hc He.
  exists (chunk_documents (uid user) (metadata doc) 0 chunks).
  pose proof (chunk_documents_contents (uid user) (metadata doc) 0 chunks) as Hcontents.
  split; [|split; [exact Hcontents|]].
  - assert (Hrun : inMemoryIndexContent user doc needChunk w
                   = addDocuments (chunk_documents (uid user) (metadata doc) 0 chunks) w).
    { unfold inMemoryIndexContent, chunks_of, chunkText, bind, await, ret in *.
      destruct needChunk; [now rewrite Hc|now injection Hc as <-]. }
    rewrite Hrun, addDocuments_run, Hcontents, He, chunk_documents_length.
    reflexivity.
  - intros i d Hd. cbv zeta. rewrite Hcontents.
    assert (Hi : (i < length chunks)%nat).
    { apply lookup_lt_Some in Hd. now rewrite chunk_documents_length in Hd. }
    destruct (lookup_lt_is_Some_2 chunks i Hi) as [chunk Hchunk].
    rewrite (chunk_documents_lookup _ _ _ _ _ _ Hchunk) in Hd. injection Hd as <-.
    cbn [metadata pageContent]. rewrite <- fmap_take, !Z.add_0_l.
    repeat split.
    + rewrite !lookup_insert_ne by discriminate. apply lookup_insert_eq.
    + rewrite lookup_insert_ne by discriminate. apply lookup_insert_eq.
    + apply lookup_insert_eq.
    + rewrite fmap_take. apply slice_concat_take.
      now rewrite list_lookup_fmap, Hchunk.
Qed.

End RAGProperties.

(** ** Short texts *)

Section ShortTexts.

Import Splitter.

Variables chunkSize chunkOverlap : Z.

Lemma mergeLoop_fits (splits : list jsstring) : forall docs cur total,
  total + len (concat splits) <= chunkSize ->
  mergeLoop chunkSize chunkOverlap [] splits docs cur total
  = Some (push_doc docs (cur ++ splits)).
Proof.
  induction splits as [|d splits IH]; intros docs cur total Hfit.
  - cbn [mergeLoop]. now rewrite app_nil_r.
  - cbn [mergeLoop concat] in *. cbv zeta. rewrite len_app in Hfit.
    pose proof (len_nonneg (concat splits)).
    change (len (A:=Z) []) with 0. rewrite Z.mul_0_r, Z.add_0_r.
    replace (chunkSize <? total + len d) with false by (symmetry; apply Z.ltb_ge; lia).
    cbn [andb]. rewrite IH by lia. now rewrite <- app_assoc.
Qed.

Lemma splitLoop_all_small recur (splits : list jsstring) : forall goodSplits finalChunks,
  Forall (fun s => len s < chunkSize) splits ->
  splitLoop chunkSize chunkOverlap recur splits goodSplits finalChunks
  = if is_empty (goodSplits ++ splits) then Some finalChunks
    else match mergeSplits chunkSize chunkOverlap (goodSplits ++ splits) [] with
         | None => None
         | Some mergedText => Some (finalChunks ++ mergedText)
         end.
Proof.
  induction splits as [|s splits IH]; intros goodSplits finalChunks Hsmall.
  - cbn [splitLoop]. now rewrite app_nil_r.
  - apply Forall_cons in Hsmall as [Hs Hsmall]. cbn [splitLoop].
    replace (len s <? chunkSize) with true by (symmetry; now apply Z.ltb_lt).
    rewrite IH by assumption. now rewrite <- app_assoc.
Qed.

Lemma piece_length (pieces : list jsstring) (p : jsstring) :
  p ∈ pieces -> len p <= len (concat pieces).
Proof.
  induction pieces as [|x pieces IH]; intros Hin; [now apply elem_of_nil in Hin|].
  cbn [concat]. rewrite len_app. pose proof (len_nonneg x).
  pose proof (len_nonneg (concat pieces)).
  apply elem_of_cons in Hin as [->|Hin]; [lia|]. specialize (IH Hin). lia.
Qed.

Lemma splitLoop_short recur (text separator : jsstring) :
  len text < chunkSize ->
  splitLoop chunkSize chunkOverlap recur (splitOnSeparator text separator) [] []
  = Some (one_chunk text).
Proof.
  intros Hshort.
  pose proof (splitOnSeparator_concat text separator) as Hcat.
  rewrite splitLoop_all_small.
  - cbn [app]. unfold mergeSplits. rewrite mergeLoop_fits by (rewrite Hcat; lia).
    cbn [app]. unfold push_doc, joinDocs, one_chunk. rewrite join_empty, Hcat.
    destruct (is_empty (splitOnSeparator text separator)) eqn:E.
    + apply is_empty_true in E. rewrite E in Hcat. simpl in Hcat. subst text. reflexivity.
    + destruct (is_empty (trim text)); reflexivity.
  - apply Forall_forall. intros p Hp. apply piece_length in Hp. rewrite Hcat in Hp. lia.
Qed.

Lemma splitRec_short (separators : list jsstring) : forall fallback text,
  len text < chunkSize ->
  splitRec chunkSize chunkOverlap separators fallback text = Some (one_chunk text).
Proof.
  induction separators as [|s rest IH]; intros fallback text Hshort; cbn [splitRec].
  - now apply splitLoop_short.
  - destruct (is_empty s); [now apply splitLoop_short|].
    destruct (includes text s); [now apply splitLoop_short|now apply IH].
Qed.

End ShortTexts.

(** ** Searching, deleting and ingesting, composed *)

Section RAGCompositions.

Context {env : Collaborators}.

Lemma retrieve_run (user : User) (param : HybridSearchParam) (w : World) :
  retrieve user param w
  = match query_vector param with
    | inl e => (inl e, w)
    | inr v =>
        (inr (point_payload <$>
                ranked (fun p => similarity v (point_vector p)) topK
                  (List.filter
                     (fun p => satisfies {| must := retrieve_conditions user param |}
                                 (point_payload p))
                     (snd <$> map_to_list (qdrant w)))), w)
    end.
Proof.
  unfold retrieve, query_vector, bind, await, ret, qdrant_search, gets.
  destruct (param_vector param) as [v|] eqn:Hv.
  - now rewrite Hv.
  - destruct (embedQuery (param_query param)) as [e|v]; reflexivity.
Qed.

(** What [retrieve] returns is the payload of a stored point that satisfies
    the filter of the call. *)
Lemma retrieve_returned (user : User) (param : HybridSearchParam) (w : World)
  (payload : gmap string value) :
  payload ∈ returned (retrieve user param w) ->
  exists k p, qdrant w !! k = Some p /\ payload = point_payload p
              /\ satisfies {| must := retrieve_conditions user param |} payload = true.
Proof.
  rewrite retrieve_run. unfold returned.
  destruct (query_vector param) as [e|v]; cbn [fst]; [intros H; now apply elem_of_nil in H|].
  intros Hin. apply list_elem_of_fmap in Hin as (p & -> & Hp).
  apply ranked_elem_of in Hp.
  rewrite list_elem_of_In in Hp. apply filter_In in Hp as [Hp Hsat].
  rewrite <- list_elem_of_In in Hp.
  apply list_elem_of_fmap in Hp as ([k p'] & -> & Hkp).
  apply elem_of_map_to_list in Hkp. eauto.
Qed.

Lemma holds_any (k : string) (ids : list jsstring) (payload : gmap string value) :
  holds {| cond_key := k; cond_match := MatchAny (VStr <$> ids) |} payload = true ->
  exists id, id ∈ ids /\ payload !! k = Some (VStr id).
Proof.
  unfold holds; simpl. destruct (payload !! k) as [v|]; [|discriminate].
  rewrite bool_decide_eq_true. intros Hin.
  apply list_elem_of_fmap in Hin as (id & -> & Hid). eauto.
Qed.

Lemma facet_condition_populated (param : HybridSearchParam) (sf : SearchFilter)
  (facet : SearchFilter -> option (list jsstring)) (key : string) (ids : list jsstring) :
  param_filter param = Some sf -> facet sf = Some ids -> ids <> [] ->
  facet_condition param facet key
  = [ {| cond_key := key; cond_match := MatchAny (VStr <$> ids) |} ].
Proof.
  intros Hsf Hf Hne. unfold facet_condition. rewrite Hsf, Hf.
  destruct ids; [contradiction|reflexivity].
Qed.

Lemma retrieve_conditions_facets (user : User) (param : HybridSearchParam) :
  retrieve_conditions user param
  = tenant_condition user
    :: facet_condition param nodeTypes "nodeType"
    ++ facet_condition param urls "url"
    ++ facet_condition param noteIds "noteId"
    ++ facet_condition param resourceIds "resourceId"
    ++ facet_condition param collectionIds "collectionId".
Proof.
  unfold retrieve_conditions. rewrite !push_facet_spec.
  unfold tenant_condition. simpl. now rewrite <- !app_assoc.
Qed.

(** The condition of each of the five facets is one of the conditions of the
    filter. *)
Lemma facet_in_conditions (user : User) (param : HybridSearchParam)
  (facet : SearchFilter -> option (list jsstring)) (key : string) :
  (facet, key) ∈ facets ->
  forall c, c ∈ facet_condition param facet key -> c ∈ retrieve_conditions user param.
Proof.
  intros Hf c Hc. rewrite retrieve_conditions_facets. unfold facets in Hf.
  apply elem_of_cons; right.
  repeat (apply elem_of_cons in Hf as [Hf|Hf];
          [injection Hf as -> ->; rewrite !elem_of_app; tauto|]).
  now apply elem_of_nil in Hf.
Qed.

(** X1. A populated facet is honoured: when the caller gives a non-empty list
    for one of the five facets, every payload [retrieve] returns carries, in
    the field of that facet, one of the listed values. *)
Theorem retrieve_honours_facets (user : User) (param : HybridSearchParam) (w : World)
  (sf : SearchFilter) (facet : SearchFilter -> option (list jsstring)) (key : string)
  (ids : list jsstring) :
  (facet, key) ∈ facets ->
  param_filter param = Some sf -> facet sf = Some ids -> ids <> [] ->
  Forall (fun payload => exists id, id ∈ ids /\ payload !! key = Some (VStr id))
         (returned (retrieve user param w)).
Proof.
  intros Hfacet Hsf Hf Hne. apply Forall_forall. intros payload Hin.
  apply retrieve_returned in Hin as (k & p & _ & _ & Hsat).
  apply holds_any. apply (satisfies_holds _ _ _ Hsat). cbn [must].
  apply (facet_in_conditions user param facet key Hfacet).
  rewrite (facet_condition_populated param sf facet key ids) by assumption.
  apply list_elem_of_here.
Qed.

(** X2. [retrieve] only reads: whatever it returns or throws, the state is
    the one it started from, and it returns no more payloads than the store's
    result limit. *)
Theorem retrieve_reads_only (user : User) (param : HybridSearchParam) (w : World) :
  (retrieve user param w).2 = w
  /\ (length (returned (retrieve user param w)) <= topK)%nat.
Proof.
  rewrite retrieve_run. unfold returned.
  destruct (query_vector param) as [e|v]; cbn [fst snd]; (split; [reflexivity|]).
  - simpl. lia.
  - rewrite length_fmap. unfold ranked. rewrite length_take. lia.
Qed.


(** A point that is left after a delete by owner was stored before, and
    does not carry both the tenant and the owner id. *)
Lemma after_owner_delete_none (user : User) (field : string) (ownerId : jsstring)
  (store : gmap jsstring PointStruct) (k : jsstring) (p : PointStruct) :
  after_owner_delete user field ownerId store k = Some p ->
  store !! k = Some p
  /\ ~ (point_payload p !! "tenantId" = Some (VStr (uid user))
        /\ point_payload p !! field = Some (VStr ownerId)).
Proof.
  unfold after_owner_delete. destruct (store !! k) as [q|]; [|discriminate].
  destruct (bool_decide _) eqn:E; [discriminate|].
  intros [= ->]. split; [reflexivity|]. now apply bool_decide_eq_false in E.
Qed.

Lemma owner_delete_run (user : User) (field : string) (ownerId : jsstring) (w : World) :
  batchDelete (owner_filter user field ownerId) w
  = (inr tt,
     set_qdrant (filter (fun kv => satisfies (owner_filter user field ownerId)
                                     (point_payload kv.2) = false))
       (set_deletes (cons (owner_filter user field ownerId)) w)).
Proof. apply batchDelete_run. Qed.

Lemma qdrant_set_qdrant f w : qdrant (set_qdrant f w) = f (qdrant w).
Proof. now destruct w. Qed.

Lemma qdrant_set_deletes f w : qdrant (set_deletes f w) = qdrant w.
Proof. now destruct w. Qed.

Lemma qdrant_set_upserts f w : qdrant (set_upserts f w) = qdrant w.
Proof. now destruct w. Qed.

(** After a delete by owner, a search of the same tenant restricted to that
    owner finds nothing. *)
Lemma owner_delete_then_retrieve (user : User) (field : string) (ownerId : jsstring)
  (param : HybridSearchParam) (w : World) :
  {| cond_key := field; cond_match := MatchAny (VStr <$> [ownerId]) |}
    ∈ retrieve_conditions user param ->
  returned (retrieve user param (batchDelete (owner_filter user field ownerId) w).2) = [].
Proof.
  intros Hc. rewrite owner_delete_run. cbn [snd].
  destruct (returned _) as [|payload l] eqn:E; [reflexivity|exfalso].
  assert (Hin : payload ∈ returned (retrieve user param
            (set_qdrant (filter (fun kv => satisfies (owner_filter user field ownerId)
                                             (point_payload kv.2) = false))
               (set_deletes (cons (owner_filter user field ownerId)) w))))
    by (rewrite E; apply list_elem_of_here).
  apply retrieve_returned in Hin as (k & p & Hk & -> & Hsat).
  rewrite qdrant_set_qdrant, qdrant_set_deletes, owner_delete_lookup in Hk.
  apply after_owner_delete_none in Hk as [_ Hnot]. apply Hnot. split.
  - apply holds_value. apply (satisfies_holds _ _ _ Hsat). cbn [must].
    destruct (retrieve_conditions_tenant user param) as [rest ->]. apply list_elem_of_here.
  - pose proof (satisfies_holds _ _ _ Hsat Hc) as Hany.
    apply holds_any in Hany as (id & Hid & Hp).
    apply list_elem_of_singleton in Hid. now subst id.
Qed.

(** X3. Deleted means no longer found: after [deleteNoteNodes] for a note
    (or [deleteResourceNodes] for a resource), a [retrieve] of the same user
    restricted to that one note (resource) returns nothing, whatever the
    query, the vector and the other facets are. *)
Theorem delete_then_retrieve (user : User) (ownerId : jsstring) (w : World)
  (query : jsstring) (vector : option (list num)) (sf : SearchFilter) :
  returned (retrieve user
              {| param_query := query; param_vector := vector;
                 param_filter := Some {| nodeTypes := nodeTypes sf; urls := urls sf;
                                         noteIds := Some [ownerId];
                                         resourceIds := resourceIds sf;
                                         collectionIds := collectionIds sf |} |}
              (deleteNoteNodes user ownerId w).2) = []
  /\ returned (retrieve user
                 {| param_query := query; param_vector := vector;
                    param_filter := Some {| nodeTypes := nodeTypes sf; urls := urls sf;
                                            noteIds := noteIds sf;
                                            resourceIds := Some [ownerId];
                                            collectionIds := collectionIds sf |} |}
                 (deleteResourceNodes user ownerId w).2) = [].
Proof.
  split.
  - apply (owner_delete_then_retrieve user "noteId").
    apply (facet_in_conditions user _ noteIds "noteId");
      [unfold facets; rewrite !elem_of_cons; tauto|].
    apply list_elem_of_here.
  - apply (owner_delete_then_retrieve user "resourceId").
    apply (facet_in_conditions user _ resourceIds "resourceId");
      [unfold facets; rewrite !elem_of_cons; tauto|].
    apply list_elem_of_here.
Qed.

Lemma after_owner_delete_idem (user : User) (field : string) (ownerId : jsstring)
  (store store' : gmap jsstring PointStruct) (k : jsstring) :
  store' !! k = after_owner_delete user field ownerId store k ->
  after_owner_delete user field ownerId store' k = store' !! k.
Proof.
  intros H. unfold after_owner_delete at 1.
  destruct (store' !! k) as [p|] eqn:E; [|reflexivity].
  symmetry in H. apply after_owner_delete_none in H as [_ Hnot].
  now rewrite bool_decide_eq_false_2.
Qed.

Lemma owner_delete_idem (user : User) (field : string) (ownerId : jsstring) (w : World) :
  let delete := batchDelete (owner_filter user field ownerId) in
  qdrant (delete (delete w).2).2 = qdrant (delete w).2.
Proof.
  cbv zeta. rewrite !owner_delete_run. cbn [snd].
  rewrite !qdrant_set_qdrant, !qdrant_set_deletes, qdrant_set_qdrant, qdrant_set_deletes.
  apply map_eq. intros k. rewrite owner_delete_lookup.
  eapply after_owner_delete_idem. apply owner_delete_lookup.
Qed.

(** X4. Deleting is idempotent on the store: a second [deleteResourceNodes]
    (or [deleteNoteNodes]) with the same arguments removes nothing more. *)
Theorem delete_idempotent (user : User) (ownerId : jsstring) (w : World) :
  qdrant (deleteResourceNodes user ownerId (deleteResourceNodes user ownerId w).2).2
  = qdrant (deleteResourceNodes user ownerId w).2
  /\ qdrant (deleteNoteNodes user ownerId (deleteNoteNodes user ownerId w).2).2
     = qdrant (deleteNoteNodes user ownerId w).2.
Proof.
  split.
  - apply (owner_delete_idem user "resourceId").
  - apply (owner_delete_idem user "noteId").
Qed.

Lemma upserts_saved f g w : upserts (set_qdrant f (set_upserts g w)) = g (upserts w).
Proof. now destruct w. Qed.

Lemma qdrant_saved f g w : qdrant (set_qdrant f (set_upserts g w)) = f (qdrant w).
Proof. now destruct w. Qed.

(** A successful [indexContent] is one batch of points built from the chunks
    of the document, saved. *)
Lemma indexContent_success (user : User) (doc : Document) (w : World) (size : Z) (w' : World) :
  indexContent user doc w = (inr size, w') ->
  exists chunks chunkEmbeds,
    let points := build_points (uid user) (metadata doc) (document_id (metadata doc))
                    chunks chunkEmbeds in
    upserts w' = points :: upserts w
    /\ qdrant w' = upsert points (qdrant w).
Proof.
  rewrite indexContent_run.
  destruct (Splitter.splitText _) as [chunks|]; [|discriminate].
  destruct (embedDocuments chunks) as [e|embeds]; [discriminate|].
  cbv zeta. intros [= _ <-]. exists chunks, embeds.
  now rewrite upserts_saved, qdrant_saved.
Qed.

(** What the store holds under the id of a point of the batch is a point of
    the batch. *)
Lemma upsert_elem_of (points : list PointStruct) (store : gmap jsstring PointStruct)
  (p : PointStruct) :
  p ∈ points ->
  exists q, upsert points store !! point_id p = Some q /\ q ∈ points.
Proof.
  intros Hin. rewrite upsert_lookup. unfold last_with_id.
  assert (Hp : p ∈ List.filter (fun q => bool_decide (point_id q = point_id p)) points).
  { rewrite list_elem_of_In. apply filter_In. rewrite <- list_elem_of_In.
    split; [assumption|]. now apply bool_decide_eq_true. }
  destruct (last _) as [q|] eqn:E.
  - exists q. split; [reflexivity|].
    apply last_Some in E as [l' E].
    assert (Hq : q ∈ List.filter (fun q => bool_decide (point_id q = point_id p)) points)
      by (rewrite E; apply elem_of_app; right; apply list_elem_of_here).
    rewrite list_elem_of_In in Hq. apply filter_In in Hq as [Hq _].
    now rewrite list_elem_of_In.
  - apply last_None in E. rewrite E in Hp. now apply elem_of_nil in Hp.
Qed.

(** The payload of a built point: the tenant is the caller's, and every
    field but tenantId, content and seq is the metadata's. *)
Lemma build_points_payload (u : jsstring) (meta : gmap string value) (docId : option value)
  (chunks : list jsstring) (embeds : list (list num)) (p : PointStruct) :
  p ∈ build_points u meta docId chunks embeds ->
  point_payload p !! "tenantId" = Some (VStr u)
  /\ forall field, field <> "tenantId" -> field <> "content" -> field <> "seq" ->
       point_payload p !! field = meta !! field.
Proof.
  unfold build_points. intros Hin.
  apply elem_of_lookup_imap in Hin as (i & chunk & -> & _). cbn [point_payload]. split.
  - apply lookup_insert_eq.
  - intros field H1 H2 H3. now rewrite !lookup_insert_ne by congruence.
Qed.

(** X5. Ingest, then delete: when the metadata of a document names its
    resource (its note), the points a successful [indexContent] saved for it
    are all gone from the store after [deleteResourceNodes]
    ([deleteNoteNodes]) of the same user for that id. *)
Theorem ingest_then_delete (user : User) (doc : Document) (w : World) (size : Z) (w' : World)
  (field : string) (delete : User -> jsstring -> M unit) (ownerId : jsstring) :
  (field, delete) ∈ owner_deletes ->
  metadata doc !! field = Some (VStr ownerId) ->
  indexContent user doc w = (inr size, w') ->
  exists points,
    upserts w' = points :: upserts w
    /\ Forall (fun p => qdrant (delete user ownerId w').2 !! point_id p = None) points.
Proof.
  intros Hdel Hmeta Hrun.
  apply indexContent_success in Hrun as (chunks & embeds & Hups & Hq). cbv zeta in *.
  eexists. split; [exact Hups|].
  assert (Hfield : field = "resourceId" \/ field = "noteId").
  { unfold owner_deletes in Hdel. rewrite !elem_of_cons in Hdel.
    destruct Hdel as [[= -> _]|[[= -> _]|H]]; [tauto|tauto|now apply elem_of_nil in H]. }
  assert (Hrun : delete user ownerId w' = batchDelete (owner_filter user field ownerId) w').
  { unfold owner_deletes in Hdel. rewrite !elem_of_cons in Hdel.
    destruct Hdel as [[= -> ->]|[[= -> ->]|H]];
      [reflexivity|reflexivity|now apply elem_of_nil in H]. }
  rewrite Hrun, owner_delete_run. cbn [snd].
  apply Forall_forall. intros p Hp.
  rewrite qdrant_set_qdrant, qdrant_set_deletes, owner_delete_lookup, Hq.
  unfold after_owner_delete.
  destruct (upsert_elem_of _ (qdrant w) p Hp) as (q & -> & Hin).
  apply build_points_payload in Hin as [Htenant Hother].
  rewrite bool_decide_eq_true_2; [reflexivity|].
  split; [assumption|].
  rewrite Hother; [assumption|destruct Hfield as [-> | ->]; discriminate..].
Qed.

Lemma upsert_idem (points : list PointStruct) (store : gmap jsstring PointStruct) :
  upsert points (upsert points store) = upsert points store.
Proof.
  apply map_eq. intros k. rewrite !upsert_lookup. now destruct (last_with_id k points).
Qed.

(** X6. Ingesting again changes nothing: with the embedding provider
    answering as before, a second [indexContent] of the same document by the
    same user leaves the store as the first one left it, whether the calls
    succeed or fail. *)
Theorem reingest_idempotent (user : User) (doc : Document) (w : World) :
  qdrant (indexContent user doc (indexContent user doc w).2).2
  = qdrant (indexContent user doc w).2.
Proof.
  rewrite !indexContent_run.
  destruct (Splitter.splitText _) as [chunks|]; [|reflexivity].
  destruct (embedDocuments chunks) as [e|embeds]; [reflexivity|].
  cbv zeta. cbn [snd]. rewrite !qdrant_saved. apply upsert_idem.
Qed.

(** X7. [indexContent] never removes a point: every id the store held before
    the call it holds after it, so the points of chunks a document no longer
    has stay in the store; and it touches neither the in-memory index, the
    reader cache nor the object storage. *)
Theorem ingest_only_adds (user : User) (doc : Document) (w : World) :
  let w' := (indexContent user doc w).2 in
  dom (qdrant w) ⊆ dom (qdrant w')
  /\ deletes w' = deletes w
  /\ memoryVectors w' = memoryVectors w
  /\ cache w' = cache w
  /\ objects w' = objects w.
Proof.
  cbv zeta. rewrite indexContent_run.
  destruct (Splitter.splitText _) as [chunks|]; [|cbn [snd]; split; [intros k Hk; exact Hk|tauto]].
  destruct (embedDocuments chunks) as [e|embeds]; [cbn [snd]; split; [intros k Hk; exact Hk|tauto]|].
  cbv zeta. cbn [snd]. split; [|now destruct w].
  rewrite qdrant_saved. intros k. rewrite !elem_of_dom, upsert_lookup.
  destruct (last_with_id k _); [eauto|auto].
Qed.


(** ** The in-memory index *)

(** Stamping the tenant leaves the contents as they are. *)
Lemma stamped_contents (user : User) (docs : list Document) :
  pageContent <$> (stamped user <$> docs) = pageContent <$> docs.
Proof. rewrite <- list_fmap_compose. now apply list_fmap_ext. Qed.

Lemma inMemoryIndexDocuments_run (user : User) (docs : list Document) (w : World) :
  inMemoryIndexDocuments user docs w
  = match embedDocuments (pageContent <$> docs) with
    | inl e => (inl e, w)
    | inr vectors =>
        if (length vectors <=? length docs)%nat
        then (inr tt, set_memoryVectors
                        (fun mv => mv ++ zip_with (fun d v => (d, Some v))
                                           (stamped user <$> docs) vectors)
                        w)
        else (inl missing_document, w)
    end.
Proof.
  unfold inMemoryIndexDocuments.
  change (map ?f docs) with (stamped user <$> docs).
  now rewrite addDocuments_run, stamped_contents, length_fmap.
Qed.

(** X8. [inMemoryIndexDocuments] embeds the contents in one call and appends
    one document per vector of the reply, in order: the i-th with the
    content of the i-th item as given, the tenantId of the caller whatever
    the item's metadata said, and every other field of the metadata as
    given. A reply with more vectors than items fails the call, and so does
    a failing embedding call, with its error; in both cases the index is as
    it was. *)
Theorem inMemoryIndexDocuments_stamps (user : User) (docs : list Document) (w : World) :
  match embedDocuments (pageContent <$> docs) with
  | inl e => inMemoryIndexDocuments user docs w = (inl e, w)
  | inr vectors =>
      if (length vectors <=? length docs)%nat
      then
        exists added,
          inMemoryIndexDocuments user docs w
          = (inr tt, set_memoryVectors (fun mv => mv ++ added) w)
          /\ length added = length vectors
          /\ forall i v, vectors !! i = Some v ->
               exists d d',
                 docs !! i = Some d
                 /\ added !! i = Some (d', Some v)
                 /\ pageContent d' = pageContent d
                 /\ metadata d' !! "tenantId" = Some (VStr (uid user))
                 /\ forall key, key <> "tenantId" -> metadata d' !! key = metadata d !! key
      else inMemoryIndexDocuments user docs w = (inl missing_document, w)
  end.
Proof.
  rewrite inMemoryIndexDocuments_run.
  destruct (embedDocuments _) as [e|vectors]; [reflexivity|].
  destruct (length vectors <=? length docs)%nat eqn:Hlen; [|reflexivity].
  apply Nat.leb_le in Hlen.
  eexists. split; [reflexivity|].
  split; [rewrite length_zip_with, length_fmap; lia|].
  intros i v Hv.
  assert (Hi : (i < length docs)%nat) by (apply lookup_lt_Some in Hv; lia).
  destruct (lookup_lt_is_Some_2 docs i Hi) as [d Hd].
  exists d, (stamped user d). split; [exact Hd|].
  split; [|split; [reflexivity|split; [apply lookup_insert_eq|]]].
  - rewrite lookup_zip_with, list_lookup_fmap, Hd, Hv. reflexivity.
  - intros key Hkey. cbn [stamped metadata]. now rewrite lookup_insert_ne by congruence.
Qed.

Lemma inMemorySearch_run (user : User) (query : jsstring) (k : option nat)
  (f : Document -> bool) (w : World) :
  inMemorySearch user query k f w
  = match embedQuery query with
    | inl e => (inl e, w)
    | inr v =>
        (inr (fst <$> ranked (fun dv => similarity v dv.2) (default 10%nat k)
                        (List.filter (fun dv => accepts user f dv.1) (memoryVectors w))), w)
    end.
Proof.
  unfold inMemorySearch, similaritySearch, bind, await, gets.
  now destruct (embedQuery query).
Qed.

(** X9. [inMemorySearch] only reads, and returns at most [k] documents, 10
    when no [k] is given. *)
Theorem inMemorySearch_reads_only (user : User) (query : jsstring) (k : option nat)
  (f : Document -> bool) (w : World) :
  (inMemorySearch user query k f w).2 = w
  /\ (length (returned (inMemorySearch user query k f w)) <= default 10 k)%nat.
Proof.
  rewrite inMemorySearch_run. unfold returned.
  destruct (embedQuery query) as [e|v]; cbn [fst snd]; (split; [reflexivity|]).
  - simpl. lia.
  - rewrite length_fmap. unfold ranked. rewrite length_take. lia.
Qed.

(** X10. Nothing accepted is dropped below the limit: when the query can be
    embedded and the documents of the caller's tenant that pass the caller's
    filter are no more than [k], the search returns all of them, each as
    often as it is stored. *)
Theorem inMemorySearch_complete (user : User) (query : jsstring) (k : option nat)
  (f : Document -> bool) (w : World) (v : list num) :
  embedQuery query = inr v ->
  (length (List.filter (fun dv => accepts user f dv.1) (memoryVectors w)) <= default 10 k)%nat ->
  returned (inMemorySearch user query k f w)
  ≡ₚ fst <$> List.filter (fun dv => accepts user f dv.1) (memoryVectors w).
Proof.
  intros Hv Hlen. rewrite inMemorySearch_run, Hv. unfold returned, ranked. cbn [fst].
  rewrite take_ge by (rewrite ranking_Permutation; exact Hlen).
  now rewrite ranking_Permutation.
Qed.

Lemma chunk_documents_tenant (u : jsstring) (meta : gmap string value) (chunks : list jsstring) :
  forall start,
    Forall (fun d => metadata d !! "tenantId" = Some (VStr u))
           (chunk_documents u meta start chunks).
Proof.
  induction chunks as [|c chunks IH]; intros start; cbn [chunk_documents]; constructor.
  - cbn [metadata]. rewrite !lookup_insert_ne by discriminate. apply lookup_insert_eq.
  - apply IH.
Qed.

Lemma filter_none {A} (p : A -> bool) (l : list A) :
  Forall (fun x => p x = false) l -> List.filter p l = [].
Proof.
  induction 1 as [|x l Hx _ IH]; [reflexivity|]. simpl. now rewrite Hx.
Qed.

(** Documents of another tenant add nothing to what a search sees. *)
Lemma foreign_documents_unseen (user : User) (f : Document -> bool)
  (mv : list (Document * option (list num))) (documents : list Document)
  (vectors : list (list num)) (u : jsstring) :
  u <> uid user ->
  Forall (fun d => metadata d !! "tenantId" = Some (VStr u)) documents ->
  List.filter (fun dv => accepts user f dv.1)
    (mv ++ zip_with (fun d v => (d, Some v)) documents vectors)
  = List.filter (fun dv => accepts user f dv.1) mv.
Proof.
  intros Hne Hall. rewrite List.filter_app.
  enough (List.filter (fun dv => accepts user f dv.1)
            (zip_with (fun d v => (d, Some v)) documents vectors) = []) as ->
    by apply app_nil_r.
  apply filter_none. apply Forall_forall. intros [d vec] Hin.
  apply elem_of_zip_with in Hin as (d' & v & [= -> ->] & Hd & _).
  rewrite Forall_forall in Hall. specialize (Hall _ Hd).
  unfold accepts. cbn [fst]. rewrite Hall, bool_decide_eq_false_2 by congruence.
  now rewrite andb_false_r.
Qed.

Lemma memoryVectors_set_memoryVectors g w :
  memoryVectors (set_memoryVectors g w) = g (memoryVectors w).
Proof. now destruct w. Qed.

(** X11. One tenant's indexing is invisible to another: what [inMemorySearch]
    returns to a user is the same before and after a user with a different
    uid has indexed documents or a content, whatever tenantId those
    documents claimed for themselves. *)
Theorem memory_index_private (owner other : User) (docs : list Document) (doc : Document)
  (needChunk : bool) (query : jsstring) (k : option nat) (f : Document -> bool) (w : World) :
  uid owner <> uid other ->
  (inMemorySearch other query k f (inMemoryIndexDocuments owner docs w).2).1
  = (inMemorySearch other query k f w).1
  /\ (inMemorySearch other query k f (inMemoryIndexContent owner doc needChunk w).2).1
     = (inMemorySearch other query k f w).1.
Proof.
  intros Hne. split.
  - rewrite !inMemorySearch_run, inMemoryIndexDocuments_run.
    destruct (embedQuery query) as [e|v]; [reflexivity|].
    destruct (embedDocuments _) as [e|vectors]; [reflexivity|].
    destruct (length vectors <=? length docs)%nat; [|reflexivity].
    cbn [fst snd]. rewrite memoryVectors_set_memoryVectors.
    rewrite (foreign_documents_unseen other f _ _ vectors (uid owner) Hne); [reflexivity|].
    apply Forall_forall. intros d Hd.
    apply list_elem_of_fmap in Hd as (d0 & -> & _). apply lookup_insert_eq.
  - rewrite !inMemorySearch_run.
    destruct (embedQuery query) as [e|v]; [reflexivity|]. cbn [fst]. do 3 f_equal.
    unfold inMemoryIndexContent, bind.
    destruct (_ w) as [[e|chunks] w1] eqn:Hchunks.
    + cbn [snd].
      destruct needChunk; [|discriminate].
      unfold chunkText, await in Hchunks. now injection Hchunks as _ <-.
    + assert (w1 = w) as ->.
      { destruct needChunk; [|now injection Hchunks].
        unfold chunkText, await in Hchunks. now injection Hchunks. }
      rewrite addDocuments_run.
      destruct (embedDocuments _) as [e|vectors]; [reflexivity|].
      destruct (length vectors <=? length _)%nat; [|reflexivity].
      cbn [snd]. rewrite memoryVectors_set_memoryVectors.
      apply (foreign_documents_unseen other f _ _ vectors (uid owner) Hne).
      apply chunk_documents_tenant.
Qed.


(** ** The cache of reader results *)

Lemma requests_set_requests f w : requests (set_requests f w) = f (requests w).
Proof. now destruct w. Qed.

Lemma lru_get_fst (k : jsstring) (c : list (jsstring * json)) :
  (LRU.get k c).1 = LRU.lookup k c.
Proof. unfold LRU.get. now destruct (LRU.lookup k c). Qed.

(** A call the cache does not answer: one request, and the result is cached
    when it is a truthy value. *)
Lemma crawl_fetch (url : jsstring) (w : World) :
  served url (cache w) = false ->
  crawlFromRemoteReader url w
  = let w1 := set_requests (cons (READER_URL ++ url))
                (set_cache (fun _ => (LRU.get url (cache w)).2) w) in
    match fetch (READER_URL ++ url) with
    | inl e => (inl e, w1)
    | inr response =>
        if negb (resp_status response =? 200)
        then (inl (Error (lit "call remote reader failed: "
                          ++ decimal (resp_status response) ++ lit " "
                          ++ resp_statusText response ++ lit " "
                          ++ text_method_source)), w1)
        else match resp_json response with
             | inl e => (inl e, w1)
             | inr data =>
                 if negb (truthy data)
                 then (inl (Error (lit "invalid data from remote reader: "
                                   ++ text_method_source)), w1)
                 else (inr (Some data), set_cache (LRU.set cache_max url data) w1)
             end
    end.
Proof.
  unfold served. intros Hmiss.
  unfold crawlFromRemoteReader, bind, cache_get.
  pose proof (lru_get_fst url (cache w)) as Hfst.
  destruct (LRU.get url (cache w)) as [hit c]. cbn [fst snd] in *. subst hit.
  rewrite Hmiss. unfold remote_fetch, bind, modify, await, throw, cache_set, ret.
  destruct (fetch (READER_URL ++ url)) as [e|response]; [reflexivity|].
  destruct (negb (resp_status response =? 200)); [reflexivity|].
  destruct (resp_json response) as [e|data]; [reflexivity|].
  destruct (negb (truthy data)); reflexivity.
Qed.

Lemma crawl_served (url : jsstring) (w : World) :
  served url (cache w) = true ->
  exists v, LRU.lookup url (cache w) = Some v /\ truthy v = true
            /\ crawlFromRemoteReader url w
               = (inr (Some v), set_cache (fun _ => (url, v) :: LRU.remove url (cache w)) w).
Proof.
  unfold served. destruct (LRU.lookup url (cache w)) as [v|] eqn:Hl; [|discriminate].
  intros Ht. exists v. split; [reflexivity|]. split; [assumption|]. now apply crawl_hit.
Qed.

(** X12. Requests of a call: [crawlFromRemoteReader] sends no request when the
    cache holds a truthy value for the URL, and exactly one otherwise, to the
    reader's address followed by the URL, whatever the call then returns or
    throws. *)
Theorem crawl_requests (url : jsstring) (w : World) :
  requests (crawlFromRemoteReader url w).2
  = if served url (cache w) then requests w else (READER_URL ++ url) :: requests w.
Proof.
  destruct (served url (cache w)) eqn:Hs.
  - apply crawl_served in Hs as (v & _ & _ & ->). cbn [snd]. apply requests_set_cache.
  - rewrite crawl_fetch by assumption. cbv zeta.
    repeat match goal with
           | |- context [match ?x with _ => _ end] => destruct x
           end;
      cbn [snd]; rewrite ?requests_set_cache, requests_set_requests, requests_set_cache;
      reflexivity.
Qed.

Lemma lru_lookup_elem_of (k : jsstring) (v : json) (c : list (jsstring * json)) :
  LRU.lookup k c = Some v -> (k, v) ∈ c.
Proof.
  unfold LRU.lookup. destruct (List.find _ c) as [[k' v']|] eqn:E; [|discriminate].
  cbn. intros [= ->]. apply find_some in E as [Hin Hk].
  apply bool_decide_eq_true in Hk. cbn in Hk. subst k'. now apply list_elem_of_In.
Qed.

Lemma lru_remove_elem_of (k : jsstring) (kv : jsstring * json) (c : list (jsstring * json)) :
  kv ∈ LRU.remove k c <-> kv ∈ c /\ kv.1 <> k.
Proof.
  unfold LRU.remove. rewrite !list_elem_of_In, filter_In, negb_true_iff, bool_decide_eq_false.
  reflexivity.
Qed.

Lemma lru_remove_shorter (k : jsstring) (v : json) (c : list (jsstring * json)) :
  (k, v) ∈ c -> (length (LRU.remove k c) < length c)%nat.
Proof.
  unfold LRU.remove. induction c as [|kv c IH]; intros Hin; [now apply elem_of_nil in Hin|].
  cbn [List.filter]. case_bool_decide as Hk; cbn [negb length].
  - pose proof (lru_remove_length k c) as Hle. unfold LRU.remove in Hle. lia.
  - apply elem_of_cons in Hin as [<-|Hin]; [now contradiction Hk|].
    specialize (IH Hin). lia.
Qed.

Lemma lru_front_NoDup (k : jsstring) (v : json) (c : list (jsstring * json)) :
  NoDup c.*1 -> NoDup ((k, v) :: LRU.remove k c).*1.
Proof.
  intros Hnd. rewrite fmap_cons. apply NoDup_cons. split.
  - intros Hin. apply list_elem_of_fmap in Hin as (kv & Hk & Hkv).
    apply lru_remove_elem_of in Hkv as [_ Hne]. now apply Hne.
  - unfold LRU.remove. induction c as [|kv c IH]; [constructor|].
    rewrite fmap_cons in Hnd. apply NoDup_cons in Hnd as [Hkv Hnd].
    cbn [List.filter]. destruct (negb _); [|now apply IH].
    rewrite fmap_cons. apply NoDup_cons. split; [|now apply IH].
    intros Hin. apply Hkv. apply list_elem_of_fmap in Hin as (kv' & Hk & Hin).
    apply list_elem_of_fmap. exists kv'. split; [assumption|].
    rewrite list_elem_of_In in *. now apply filter_In in Hin as [? _].
Qed.

Lemma lru_front_truthy (k : jsstring) (v : json) (c : list (jsstring * json)) :
  truthy v = true -> Forall (fun kv => truthy kv.2 = true) c ->
  Forall (fun kv => truthy kv.2 = true) ((k, v) :: LRU.remove k c).
Proof.
  intros Hv Hc. constructor; [assumption|].
  apply Forall_forall. intros kv Hin. apply lru_remove_elem_of in Hin as [Hin _].
  rewrite Forall_forall in Hc. now apply Hc.
Qed.

(** Reading an entry keeps the cache in order. *)
Lemma lru_get_ok (k : jsstring) (c : list (jsstring * json)) :
  cache_ok c -> cache_ok (LRU.get k c).2.
Proof.
  intros (Hlen & Hnd & Ht). unfold LRU.get.
  destruct (LRU.lookup k c) as [v|] eqn:Hl; cbn [snd]; [|now repeat split].
  apply lru_lookup_elem_of in Hl. split; [|split].
  - pose proof (lru_remove_shorter k v c Hl). cbn [length]. lia.
  - now apply lru_front_NoDup.
  - apply lru_front_truthy; [|assumption].
    rewrite Forall_forall in Ht. apply (Ht _ Hl).
Qed.

(** Writing a truthy value keeps the cache in order, and within its size
    whatever its size was. *)
Lemma lru_set_ok (k : jsstring) (v : json) (c : list (jsstring * json)) :
  truthy v = true -> NoDup c.*1 -> Forall (fun kv => truthy kv.2 = true) c ->
  cache_ok (LRU.set cache_max k v c).
Proof.
  intros Hv Hnd Ht. unfold LRU.set. split; [|split].
  - rewrite length_take. lia.
  - rewrite fmap_take. eapply sublist_NoDup; [|apply sublist_take].
    now apply lru_front_NoDup.
  - apply Forall_take. now apply lru_front_truthy.
Qed.

(** X13. The cache stays in order: if it holds at most 1000 entries, no URL
    twice and truthy values only, then so it does after a call of
    [crawlFromRemoteReader], whatever the call returns or throws. *)
Theorem crawl_keeps_cache_ok (url : jsstring) (w : World) :
  cache_ok (cache w) -> cache_ok (cache (crawlFromRemoteReader url w).2).
Proof.
  intros Hok. destruct (served url (cache w)) eqn:Hs.
  - pose proof (lru_get_ok url _ Hok) as Hget.
    apply crawl_served in Hs as (v & Hl & _ & ->). cbn [snd]. rewrite cache_set_cache.
    unfold LRU.get in Hget. now rewrite Hl in Hget.
  - rewrite crawl_fetch by assumption. cbv zeta.
    pose proof (lru_get_ok url _ Hok) as Hget.
    destruct (fetch _) as [e|response];
      [cbn [snd]; now rewrite cache_set_requests, cache_set_cache|].
    destruct (negb (resp_status response =? 200));
      [cbn [snd]; now rewrite cache_set_requests, cache_set_cache|].
    destruct (resp_json response) as [e|data];
      [cbn [snd]; now rewrite cache_set_requests, cache_set_cache|].
    destruct (negb (truthy data)) eqn:Ht;
      [cbn [snd]; now rewrite cache_set_requests, cache_set_cache|].
    cbn [snd]. rewrite cache_set_cache, cache_set_requests, cache_set_cache.
    destruct Hget as (_ & Hnd & Hall).
    apply lru_set_ok; [now apply negb_false_iff in Ht|assumption..].
Qed.

Lemma lru_lookup_remove_ne (k url : jsstring) (c : list (jsstring * json)) :
  k <> url -> LRU.lookup k (LRU.remove url c) = LRU.lookup k c.
Proof.
  intros Hne. unfold LRU.lookup, LRU.remove. f_equal.
  induction c as [|kv c IH]; [reflexivity|]. cbn [List.filter List.find].
  case_bool_decide as Hu; cbn [negb].
  - rewrite bool_decide_eq_false_2 by congruence. exact IH.
  - cbn [List.find]. now rewrite IH.
Qed.

(** Reading an entry changes no answer of the cache. *)
Lemma lru_get_lookup (url k : jsstring) (c : list (jsstring * json)) :
  LRU.lookup k (LRU.get url c).2 = LRU.lookup k c.
Proof.
  unfold LRU.get. destruct (LRU.lookup url c) as [v|] eqn:Hl; cbn [snd]; [|reflexivity].
  destruct (decide (k = url)) as [->|Hne].
  - now rewrite lru_lookup_cons_same.
  - unfold LRU.lookup at 1. cbn [List.find fst].
    rewrite bool_decide_eq_false_2 by congruence.
    now apply lru_lookup_remove_ne.
Qed.

(** X14. A failure is not cached: when [crawlFromRemoteReader] throws, the
    cache answers for every URL as it did before the call, and the next call
    for the same URL asks the reader again. *)
Theorem crawl_failure_not_cached (url : jsstring) (w : World) (e : exn) :
  (crawlFromRemoteReader url w).1 = inl e ->
  let w' := (crawlFromRemoteReader url w).2 in
  (forall k, LRU.lookup k (cache w') = LRU.lookup k (cache w))
  /\ requests (crawlFromRemoteReader url w').2
     = (READER_URL ++ url) :: (READER_URL ++ url) :: requests w.
Proof.
  intros Hfail. cbv zeta.
  destruct (served url (cache w)) eqn:Hs.
  { apply crawl_served in Hs as (v & _ & _ & Hrun). rewrite Hrun in Hfail. discriminate. }
  assert (Hcache : forall k, LRU.lookup k (cache (crawlFromRemoteReader url w).2)
                             = LRU.lookup k (cache w)).
  { intros k. rewrite crawl_fetch in Hfail |- * by assumption. cbv zeta in *.
    destruct (fetch _) as [e'|response];
      [cbn [snd]; rewrite cache_set_requests, cache_set_cache; apply lru_get_lookup|].
    destruct (negb (resp_status response =? 200));
      [cbn [snd]; rewrite cache_set_requests, cache_set_cache; apply lru_get_lookup|].
    destruct (resp_json response) as [e'|data];
      [cbn [snd]; rewrite cache_set_requests, cache_set_cache; apply lru_get_lookup|].
    destruct (negb (truthy data));
      [cbn [snd]; rewrite cache_set_requests, cache_set_cache; apply lru_get_lookup|].
    discriminate. }
  split; [exact Hcache|].
  assert (Hs' : served url (cache (crawlFromRemoteReader url w).2) = false)
    by (unfold served in *; now rewrite Hcache).
  rewrite crawl_fetch by exact Hs'. cbv zeta.
  assert (Hreq : requests (crawlFromRemoteReader url w).2 = (READER_URL ++ url) :: requests w).
  { rewrite crawl_fetch by assumption. cbv zeta.
    repeat match goal with
           | |- context [match ?x with _ => _ end] => destruct x
           end;
      cbn [snd]; rewrite ?requests_set_cache, requests_set_requests, requests_set_cache;
      reflexivity. }
  repeat match goal with
         | |- context [match ?x with _ => _ end] => destruct x
         end;
    cbn [snd]; rewrite ?requests_set_cache, requests_set_requests, requests_set_cache, Hreq;
    reflexivity.
Qed.


(** ** Chunking a short text *)

(** X15. A text that fits in one chunk is not split: when the cleaned text is
    shorter than 1000 code units, [chunkText] returns it trimmed as the one
    chunk, and no chunk when nothing is left of it after trimming. *)
Theorem short_text_one_chunk (text : jsstring) (w : World) :
  Splitter.len (cleanMarkdownForIngest text) < 1000 ->
  chunkText text w = (inr (one_chunk (cleanMarkdownForIngest text)), w).
Proof.
  intros Hshort. unfold chunkText, await, Splitter.splitText, Splitter._splitText.
  now rewrite splitRec_short.
Qed.

(** ** Tenants and the vector store *)

(** X16. One tenant's ingest shows nothing new to another: after a user has
    ingested a document, every payload [retrieve] returns to a user with a
    different uid is the payload of a point the store held before the
    ingest. *)
Theorem ingest_private (owner other : User) (doc : Document) (param : HybridSearchParam)
  (w : World) :
  uid owner <> uid other ->
  Forall (fun payload => exists k p, qdrant w !! k = Some p /\ payload = point_payload p)
         (returned (retrieve other param (indexContent owner doc w).2)).
Proof.
  intros Hne. apply Forall_forall. intros payload Hin.
  apply retrieve_returned in Hin as (k & p & Hk & -> & Hsat).
  exists k, p. split; [|reflexivity].
  rewrite indexContent_run in Hk.
  destruct (Splitter.splitText _) as [chunks|]; [|exact Hk].
  destruct (embedDocuments chunks) as [e|embeds]; [exact Hk|].
  cbv zeta in Hk. cbn [snd] in Hk. rewrite qdrant_saved, upsert_lookup in Hk.
  destruct (last_with_id k _) as [q|] eqn:Hlast; [|exact Hk].
  exfalso. injection Hk as ->.
  unfold last_with_id in Hlast. apply last_Some in Hlast as [l' Hl'].
  assert (Hp : p ∈ List.filter (fun p0 => bool_decide (point_id p0 = k))
                     (build_points (uid owner) (metadata doc) (document_id (metadata doc))
                        chunks embeds))
    by (rewrite Hl'; apply elem_of_app; right; apply list_elem_of_here).
  rewrite list_elem_of_In in Hp. apply filter_In in Hp as [Hp _].
  rewrite <- list_elem_of_In in Hp. apply build_points_payload in Hp as [Htenant _].
  assert (Hother : point_payload p !! "tenantId" = Some (VStr (uid other))).
  { apply holds_value. apply (satisfies_holds _ _ _ Hsat). cbn [must].
    destruct (retrieve_conditions_tenant other param) as [rest ->].
    apply list_elem_of_here. }
  congruence.
Qed.

(** X17. Point ids are not scoped by tenant: when a second user ingests the
    same document after a first one, every id of the first batch holds a
    point of the second user afterwards. *)
Theorem ingest_displaces (first second : User) (doc : Document) (w w1 w2 : World)
  (size1 size2 : Z) :
  indexContent first doc w = (inr size1, w1) ->
  indexContent second doc w1 = (inr size2, w2) ->
  exists points,
    upserts w1 = points :: upserts w
    /\ Forall (fun p => exists q, qdrant w2 !! point_id p = Some q
                                  /\ point_payload q !! "tenantId" = Some (VStr (uid second)))
              points.
Proof.
  rewrite !indexContent_run.
  destruct (Splitter.splitText _) as [chunks|]; [|discriminate].
  destruct (embedDocuments chunks) as [e|embeds]; [discriminate|].
  cbv zeta. intros [= _ <-] [= _ <-].
  eexists. split; [apply upserts_saved|].
  apply Forall_forall. intros p Hp. rewrite !qdrant_saved.
  assert (Hid : point_id p ∈ point_id <$> build_points (uid second) (metadata doc)
                                (document_id (metadata doc)) chunks embeds).
  { rewrite build_points_ids, <- (build_points_ids (uid first) (metadata doc) _ chunks embeds).
    apply list_elem_of_fmap. eauto. }
  apply list_elem_of_fmap in Hid as (p' & Hid & Hp').
  rewrite Hid. destruct (upsert_elem_of _ (upsert
      (build_points (uid first) (metadata doc) (document_id (metadata doc)) chunks embeds)
      (qdrant w)) p' Hp') as (q & Hq & Hin).
  exists q. split; [exact Hq|now apply build_points_payload in Hin as [? _]].
Qed.

(** X18. A failed in-memory indexing writes nothing: when
    [inMemoryIndexContent] or [inMemoryIndexDocuments] throws, be it from
    the chunking, from the embedding call or from a reply with more vectors
    than documents, the state is the one the call started from. *)
Theorem failed_memory_indexing_writes_nothing (user : User) (doc : Document)
  (docs : list Document) (needChunk : bool) (w : World) :
  match inMemoryIndexContent user doc needChunk w with
  | (inl _, w') => w' = w
  | (inr _, _) => True
  end
  /\ match inMemoryIndexDocuments user docs w with
     | (inl _, w') => w' = w
     | (inr _, _) => True
     end.
Proof.
  split.
  - unfold inMemoryIndexContent, bind.
    destruct needChunk.
    + unfold chunkText, await.
      destruct (Splitter.splitText _) as [chunks|]; [|reflexivity].
      rewrite addDocuments_run. destruct (embedDocuments _) as [e|vectors]; [reflexivity|].
      now destruct (length vectors <=? length _)%nat.
    + unfold ret. rewrite addDocuments_run.
      destruct (embedDocuments _) as [e|vectors]; [reflexivity|].
      now destruct (length vectors <=? length _)%nat.
  - rewrite inMemoryIndexDocuments_run.
    destruct (embedDocuments _) as [e|vectors]; [reflexivity|].
    now destruct (length vectors <=? length docs)%nat.
Qed.

(** ** Blank content *)

Lemma blank_text_no_chunks (text : jsstring) :
  nonspace text = [] -> Splitter.splitText text = Some [].
Proof.
  intros Hblank. destruct (splitText_good text) as (chunks & Hrun & Hgood & Hn).
  rewrite Hrun. f_equal. apply nonspace_concat_nil; [|congruence].
  eapply Forall_impl; [exact Hgood|]. intros c (Hne & Ht & _). auto.
Qed.

(** X23. Blank content: when the cleaned content of a document is empty or
    all white space, the embedding provider is still called, with no text.
    If that call fails, [indexContent] and [inMemoryIndexContent] (chunking)
    fail with its error. Otherwise [indexContent] hands the store an empty
    batch and leaves its points as they were, whatever the reply holds, and
    [inMemoryIndexContent] adds nothing to the index: it succeeds on an
    empty reply and fails on any other, there being no document for a
    vector. *)
Theorem blank_content_indexes_nothing (user : User) (doc : Document) (w : World) :
  nonspace (cleanMarkdownForIngest (pageContent doc)) = [] ->
  match embedDocuments [] with
  | inl e =>
      indexContent user doc w = (inl e, w)
      /\ inMemoryIndexContent user doc true w = (inl e, w)
  | inr vectors =>
      (indexContent user doc w).1 = inr (estimatePointsSize [])
      /\ upserts (indexContent user doc w).2 = [] :: upserts w
      /\ qdrant (indexContent user doc w).2 = qdrant w
      /\ (inMemoryIndexContent user doc true w).1
         = (if Splitter.is_empty vectors then inr tt else inl missing_document)
      /\ memoryVectors (inMemoryIndexContent user doc true w).2 = memoryVectors w
  end.
Proof.
  intros Hblank. apply blank_text_no_chunks in Hblank.
  assert (Hmem : inMemoryIndexContent user doc true w = addDocuments [] w).
  { unfold inMemoryIndexContent, bind, chunkText, await. now rewrite Hblank. }
  rewrite Hmem, addDocuments_run, indexContent_run, Hblank.
  change (pageContent <$> []) with (@nil jsstring).
  destruct (embedDocuments []) as [e|vectors]; [split; reflexivity|].
  cbv zeta. cbn [fst snd build_points imap].
  rewrite upserts_saved, qdrant_saved. cbn [upsert foldl].
  repeat split; destruct vectors; cbn [length Nat.leb Splitter.is_empty fst snd];
    rewrite ?memoryVectors_set_memoryVectors; cbn [zip_with];
    rewrite ?app_nil_r; reflexivity.
Qed.

End RAGCompositions.

(** ** The archive, for every content *)

Section CodecFacts.

Import Splitter Avro.

Lemma utf8_decode_replacement (t : list Z) :
  utf8_decode (239 :: 191 :: 189 :: t) = 65533 :: utf8_decode t.
Proof. reflexivity. Qed.

(** What the buffer's encoder writes is read back with one U+FFFD for every
    unpaired surrogate. *)
Lemma utf8_decode_encode_any_bounded (n : nat) : forall s,
  (length s <= n)%nat -> is_string s = true ->
  utf8_decode (utf8_encode s) = toWellFormed s.
Proof.
  unfold toWellFormed.
  induction n as [|n IH]; intros s Hlen Hs.
  - destruct s; [reflexivity|simpl in Hlen; lia].
  - destruct s as [|c rest]; [reflexivity|].
    unfold is_string in Hs. cbn [forallb] in Hs.
    apply andb_true_iff in Hs as [Hc Hrest]. apply in_range_spec in Hc.
    cbn [length] in Hlen.
    assert (IHrest : utf8_decode (utf8_encode rest) = replace_unpaired [65533] rest)
      by (apply IH; [lia|exact Hrest]).
    cbn [replace_unpaired utf8_encode].
    destruct (in_range 55296 56319 c) eqn:Ehi.
    + apply in_range_spec in Ehi.
      replace (c <? 128) with false by (symmetry; apply Z.ltb_ge; lia).
      replace (c <? 2048) with false by (symmetry; apply Z.ltb_ge; lia).
      destruct rest as [|d rest']; [reflexivity|].
      destruct (in_range 56320 57343 d) eqn:Elo.
      * apply in_range_spec in Elo. rewrite utf8_decode_4 by assumption.
        cbn [forallb] in Hrest. apply andb_true_iff in Hrest as [_ Hrest'].
        cbn [length] in Hlen. rewrite IH by (lia || exact Hrest'). reflexivity.
      * rewrite utf8_decode_replacement. now rewrite IHrest.
    + apply in_range_false in Ehi.
      destruct (in_range 56320 57343 c) eqn:Elo.
      * apply in_range_spec in Elo.
        replace (c <? 128) with false by (symmetry; apply Z.ltb_ge; lia).
        replace (c <? 2048) with false by (symmetry; apply Z.ltb_ge; lia).
        rewrite utf8_decode_replacement. now rewrite IHrest.
      * apply in_range_false in Elo.
        destruct (c <? 128) eqn:E1; [|destruct (c <? 2048) eqn:E2].
        -- apply Z.ltb_lt in E1. rewrite utf8_decode_1 by lia. now rewrite IHrest.
        -- apply Z.ltb_ge in E1. apply Z.ltb_lt in E2. rewrite utf8_decode_2 by lia.
           now rewrite IHrest.
        -- apply Z.ltb_ge in E2. rewrite utf8_decode_3 by lia. now rewrite IHrest.
Qed.

(** A code unit that starts no pair is written on its own. *)
Lemma utf8_write_single (c : Z) (rest : list Z) :
  in_range 55296 56319 c && match rest with d :: _ => in_range 56320 57343 d | [] => false end
  = false ->
  utf8_write (c :: rest)
  = (if c <? 128 then [c]
     else if c <? 2048 then [192 + c / 64; 128 + c mod 64]
     else [224 + c / 4096; 128 + (c / 64) mod 64; 128 + c mod 64])
    ++ utf8_write rest.
Proof.
  intros Hpair. cbn [utf8_write].
  destruct (c <? 128); [reflexivity|]. destruct (c <? 2048); [reflexivity|].
  destruct rest as [|d rest]; [reflexivity|]. now rewrite Hpair.
Qed.

(** What the loop of [Tap.writeString] writes is read back with three U+FFFD
    for every unpaired surrogate. *)
Lemma utf8_decode_write_any_bounded (n : nat) : forall s,
  (length s <= n)%nat -> is_string s = true ->
  utf8_decode (utf8_write s) = replace_unpaired [65533; 65533; 65533] s.
Proof.
  induction n as [|n IH]; intros s Hlen Hs.
  - destruct s; [reflexivity|simpl in Hlen; lia].
  - destruct s as [|c rest]; [reflexivity|].
    unfold is_string in Hs. cbn [forallb] in Hs.
    apply andb_true_iff in Hs as [Hc Hrest]. apply in_range_spec in Hc.
    cbn [length] in Hlen.
    assert (IHrest : utf8_decode (utf8_write rest)
                     = replace_unpaired [65533; 65533; 65533] rest)
      by (apply IH; [lia|exact Hrest]).
    cbn [replace_unpaired].
    destruct (in_range 55296 56319 c) eqn:Ehi.
    + apply in_range_spec in Ehi.
      destruct rest as [|d rest'].
      * rewrite utf8_write_single by (rewrite andb_false_r; reflexivity).
        replace (c <? 128) with false by (symmetry; apply Z.ltb_ge; lia).
        replace (c <? 2048) with false by (symmetry; apply Z.ltb_ge; lia).
        cbn [app utf8_write]. rewrite utf8_decode_surrogate by lia. reflexivity.
      * destruct (in_range 56320 57343 d) eqn:Elo.
        -- cbn [utf8_write].
           replace (c <? 128) with false by (symmetry; apply Z.ltb_ge; lia).
           replace (c <? 2048) with false by (symmetry; apply Z.ltb_ge; lia).
           replace (in_range 55296 56319 c) with true
             by (symmetry; apply in_range_spec; lia).
           rewrite Elo. cbn [andb]. cbv zeta.
           apply in_range_spec in Elo. rewrite utf8_decode_4 by assumption.
           cbn [forallb] in Hrest. apply andb_true_iff in Hrest as [_ Hrest'].
           cbn [length] in Hlen. rewrite IH by (lia || exact Hrest'). reflexivity.
        -- rewrite utf8_write_single by (rewrite Elo; apply andb_false_r).
           replace (c <? 128) with false by (symmetry; apply Z.ltb_ge; lia).
           replace (c <? 2048) with false by (symmetry; apply Z.ltb_ge; lia).
           cbn [app]. rewrite utf8_decode_surrogate by lia. now rewrite IHrest.
    + rewrite utf8_write_single by (now rewrite Ehi).
      apply in_range_false in Ehi.
      destruct (in_range 56320 57343 c) eqn:Elo.
      * apply in_range_spec in Elo.
        replace (c <? 128) with false by (symmetry; apply Z.ltb_ge; lia).
        replace (c <? 2048) with false by (symmetry; apply Z.ltb_ge; lia).
        cbn [app]. rewrite utf8_decode_surrogate by lia. now rewrite IHrest.
      * apply in_range_false in Elo.
        destruct (c <? 128) eqn:E1; [|destruct (c <? 2048) eqn:E2]; cbn [app].
        -- apply Z.ltb_lt in E1. rewrite utf8_decode_1 by lia. now rewrite IHrest.
        -- apply Z.ltb_ge in E1. apply Z.ltb_lt in E2. rewrite utf8_decode_2 by lia.
           now rewrite IHrest.
        -- apply Z.ltb_ge in E2. rewrite utf8_decode_3 by lia. now rewrite IHrest.
Qed.

(** The two encoders write the same number of bytes. *)
Lemma utf8_write_length_bounded (n : nat) : forall s,
  (length s <= n)%nat -> length (utf8_write s) = length (utf8_encode s).
Proof.
  induction n as [|n IH]; intros s Hlen.
  - destruct s; [reflexivity|simpl in Hlen; lia].
  - destruct s as [|c rest]; [reflexivity|]. cbn [length] in Hlen.
    assert (IHrest : length (utf8_write rest) = length (utf8_encode rest))
      by (apply IH; lia).
    cbn [utf8_write utf8_encode].
    destruct (c <? 128); [cbn [length]; now rewrite IHrest|].
    destruct (c <? 2048); [cbn [length]; now rewrite IHrest|].
    destruct rest as [|d rest'].
    + now destruct (in_range 55296 56319 c), (in_range 56320 57343 c).
    + destruct (in_range 55296 56319 c); cbn [andb].
      * destruct (in_range 56320 57343 d); cbv zeta; cbn [length];
          [|now rewrite IHrest].
        cbn [length] in Hlen. rewrite IH by lia. reflexivity.
      * destruct (in_range 56320 57343 c); cbn [length]; now rewrite IHrest.
Qed.

Lemma readString_writeString_any (s : jsstring) (rest : list Z) :
  is_string s = true -> readString (writeString s ++ rest) = Some (read_back s, rest).
Proof.
  intros Hs. unfold writeString, read_back, byteLength. cbv zeta.
  destruct (64 <? len (utf8_encode s)).
  - rewrite <- app_assoc, readString_framing.
    now rewrite (utf8_decode_encode_any_bounded (length s)).
  - replace (len (utf8_encode s)) with (len (utf8_write s))
      by (unfold len; now rewrite (utf8_write_length_bounded (length s))).
    rewrite <- app_assoc, readString_framing.
    now rewrite (utf8_decode_write_any_bounded (length s)).
Qed.

(** The replacement leaves no surrogate on its own. *)
Lemma replace_unpaired_isWellFormed_bounded (r : jsstring) (n : nat) :
  (forall t, isWellFormed (r ++ t) = isWellFormed t) ->
  forall s, (length s <= n)%nat -> is_string s = true ->
    isWellFormed (replace_unpaired r s) = true.
Proof.
  intros Hr. induction n as [|n IH]; intros s Hlen Hs.
  - destruct s; [reflexivity|simpl in Hlen; lia].
  - destruct s as [|c rest]; [reflexivity|].
    unfold is_string in Hs. cbn [forallb] in Hs.
    apply andb_true_iff in Hs as [Hc Hrest]. cbn [length] in Hlen.
    assert (IHrest : isWellFormed (replace_unpaired r rest) = true)
      by (apply IH; [lia|exact Hrest]).
    cbn [replace_unpaired].
    destruct (in_range 55296 56319 c) eqn:Ehi.
    + destruct rest as [|d rest'].
      * rewrite <- (app_nil_r r), Hr. reflexivity.
      * destruct (in_range 56320 57343 d) eqn:Elo.
        -- cbn [isWellFormed]. rewrite Ehi, Elo. cbn [andb].
           cbn [forallb] in Hrest. apply andb_true_iff in Hrest as [_ Hrest'].
           cbn [length] in Hlen. apply IH; [lia|exact Hrest'].
        -- now rewrite Hr.
    + destruct (in_range 56320 57343 c) eqn:Elo.
      * now rewrite Hr.
      * cbn [isWellFormed]. rewrite Ehi, Hc, Elo. exact IHrest.
Qed.

Lemma read_back_isWellFormed (s : jsstring) :
  is_string s = true -> isWellFormed (read_back s) = true.
Proof.
  intros Hs. unfold read_back, toWellFormed.
  destruct (64 <? byteLength s);
    now apply (replace_unpaired_isWellFormed_bounded _ (length s)).
Qed.

(** Every positive integer is an odd one times a power of two. *)
Lemma odd_part (p : positive) :
  exists (m : positive) (j : Z),
    Z.pos p = Z.pos m * 2 ^ j /\ Z.odd (Z.pos m) = true /\ 0 <= j.
Proof.
  induction p as [p _|p (m & j & Heq & Hodd & Hj)|].
  - exists (p~1)%positive, 0. repeat split; [lia|lia].
  - exists m, (j + 1). repeat split; [|assumption|lia].
    rewrite Z.pow_add_r by lia. change (2 ^ 1) with 2. lia.
  - exists 1%positive, 0. repeat split; lia.
Qed.

Lemma finite_is_float32 (neg : bool) (k q : Z) :
  0 < k <= 16777216 -> -149 <= q -> q + Z.log2 k <= 127 ->
  is_float32 (finite neg k q) = true.
Proof.
  intros Hk Hq HE.
  destruct k as [|p|p]; [lia| |lia].
  destruct (odd_part p) as (m & j & Heq & Hodd & Hj).
  assert (Hlog : Z.log2 (Z.pos p) = Z.log2 (Z.pos m) + j)
    by (rewrite Heq; now apply log2_shifted).
  assert (Hlog24 : Z.log2 (Z.pos p) <= 24).
  { change 24 with (Z.log2 16777216). apply Z.log2_le_mono. lia. }
  pose proof (Z.log2_nonneg (Z.pos m)) as Hm0.
  assert (HL : Z.log2 (Z.pos m) <= 23).
  { destruct (Z.eq_dec (Z.pos p) 16777216) as [E|NE].
    - destruct (Z.eq_dec (Z.log2 (Z.pos m)) 0) as [->|Hne]; [lia|].
      exfalso.
      assert (Hj24 : j < 24) by (rewrite E in Hlog; change (Z.log2 16777216) with 24 in Hlog; lia).
      assert (Hdiv : 16777216 = 2 ^ j * 2 ^ (24 - j)).
      { rewrite <- Z.pow_add_r by lia. replace (j + (24 - j)) with 24 by lia. reflexivity. }
      assert (H2j : 0 < 2 ^ j) by (apply Z.pow_pos_nonneg; lia).
      assert (Hm : Z.pos m = 2 ^ (24 - j)) by nia.
      rewrite Hm in Hodd. rewrite <- Z.negb_even in Hodd.
      rewrite Z.even_pow in Hodd by lia. discriminate.
    - assert (Z.log2 (Z.pos p) < 24) by (apply Z.log2_lt_pow2; lia). lia. }
  rewrite Heq, finite_shifted by (assumption || lia).
  cbn [is_float32]. unfold exponent. rewrite Hodd.
  rewrite !andb_true_iff, !Z.leb_le. lia.
Qed.

Lemma round_half_even_bounds (m shift : Z) :
  0 <= m -> 0 < shift ->
  m / 2 ^ shift <= round_half_even m shift <= m / 2 ^ shift + 1.
Proof.
  intros Hm Hshift. unfold round_half_even. cbv zeta.
  destruct (_ || _); lia.
Qed.

(** [Math.fround] gives a binary32 value. *)
Lemma fround_is_float32 (v : num) : is_float32 (fround v) = true.
Proof.
  destruct v as [| | |neg m e]; try reflexivity.
  cbn [fround]. cbv zeta.
  set (L := Z.log2 (Z.pos m)). unfold exponent. fold L.
  set (q := Z.max (e + L - 23) (-149)).
  destruct (Z.log2_spec (Z.pos m) ltac:(lia)) as [Hlo Hhi]. fold L in Hlo, Hhi.
  pose proof (Z.log2_nonneg (Z.pos m)) as HL0. fold L in HL0.
  set (k := if q <=? e then Z.pos m * 2 ^ (e - q) else round_half_even (Z.pos m) (q - e)).
  assert (Hk : 0 <= k <= 16777216).
  { unfold k. destruct (q <=? e) eqn:Eq.
    - apply Z.leb_le in Eq.
      assert (Hp : 0 < 2 ^ (e - q)) by (apply Z.pow_pos_nonneg; lia).
      split; [nia|].
      assert (Hlt : Z.pos m * 2 ^ (e - q) < 2 ^ 24); [|change (2 ^ 24) with 16777216 in Hlt; lia].
      apply Z.log2_lt_pow2; [nia|]. rewrite log2_shifted by lia. fold L. unfold q. lia.
    - apply Z.leb_gt in Eq.
      pose proof (round_half_even_bounds (Z.pos m) (q - e) ltac:(lia) ltac:(lia)) as [Hlow Hup].
      assert (Hp : 0 < 2 ^ (q - e)) by (apply Z.pow_pos_nonneg; lia).
      assert (Hdiv0 : 0 <= Z.pos m / 2 ^ (q - e)) by (apply Z.div_pos; lia).
      split; [lia|].
      assert (Hdiv : Z.pos m / 2 ^ (q - e) < 16777216); [|lia].
      apply Z.div_lt_upper_bound; [lia|].
      assert (Hle : 2 ^ Z.succ L <= 2 ^ (q - e + 24))
        by (apply Z.pow_le_mono_r; [lia|unfold q; lia]).
      rewrite Z.pow_add_r in Hle by lia. change (2 ^ 24) with 16777216 in Hle. lia. }
  destruct (k =? 0) eqn:Ek0; [reflexivity|]. apply Z.eqb_neq in Ek0.
  destruct (127 <? q + Z.log2 k) eqn:Eover; [reflexivity|]. apply Z.ltb_ge in Eover.
  apply finite_is_float32; [lia|unfold q; lia|lia].
Qed.

Lemma readFloat_writeFloat_any (v : num) (rest : list Z) :
  readFloat (writeFloat v ++ rest) = Some (fround v, rest).
Proof.
  pose proof (fround_is_float32 v) as Hv.
  replace (writeFloat v) with (writeFloat (fround v))
    by (unfold writeFloat; now rewrite (fround_exact (fround v) Hv)).
  now apply readFloat_writeFloat.
Qed.

Section ArrayReadBack.

Context {A : Type}.
Variable write_item : A -> list Z.
Variable read_item : list Z -> option (A * list Z).
Variable ok : A -> bool.
Variable kept : A -> A.
Hypothesis item_read_back :
  forall x rest, ok x = true -> read_item (write_item x ++ rest) = Some (kept x, rest).

Lemma read_items_kept (l : list A) (rest : list Z) :
  forallb ok l = true ->
  read_items read_item (length l) (flat_map write_item l ++ rest) = Some (kept <$> l, rest).
Proof.
  induction l as [|x l IH]; intros Hok; [reflexivity|].
  apply andb_true_iff in Hok as [Hx Hl].
  cbn [length flat_map read_items]. rewrite <- app_assoc, item_read_back by assumption.
  now rewrite IH.
Qed.

Lemma read_blocks_kept (fuel : nat) (l : list A) (rest : list Z) :
  forallb ok l = true ->
  read_blocks read_item (S (S fuel)) (writeArray write_item l ++ rest) []
  = Some (kept <$> l, rest).
Proof.
  intros Hok. unfold writeArray. destruct l as [|x l].
  - cbn [is_empty app]. rewrite writeLong_0. reflexivity.
  - cbn [is_empty]. set (val := x :: l) in *.
    rewrite <- !app_assoc. cbn [read_blocks]. rewrite readLong_writeLong.
    assert (Hlen : 0 < len val) by (unfold len, val; simpl; lia).
    replace (len val =? 0) with false by (symmetry; apply Z.eqb_neq; lia).
    replace (len val <? 0) with false by (symmetry; apply Z.ltb_ge; lia).
    replace (Z.to_nat (Z.abs (len val))) with (length val) by (unfold len; lia).
    rewrite read_items_kept by assumption.
    rewrite readLong_writeLong. reflexivity.
Qed.

Lemma readArray_kept (l : list A) (rest : list Z) :
  forallb ok l = true ->
  readArray read_item (writeArray write_item l ++ rest) = Some (kept <$> l, rest).
Proof.
  intros Hok. unfold readArray.
  assert (Hne : (1 <= length (writeArray write_item l ++ rest))%nat).
  { unfold writeArray. rewrite writeLong_0, !length_app. simpl. lia. }
  destruct (length (writeArray write_item l ++ rest)) as [|n]; [lia|].
  now apply read_blocks_kept.
Qed.

End ArrayReadBack.


Lemma readChunk_writeChunk_any (c : Chunk) (rest : list Z) :
  valid_chunk c = true -> readChunk (writeChunk c ++ rest) = Some (stored_chunk c, rest).
Proof.
  unfold valid_chunk. rewrite !andb_true_iff.
  intros ((((Hid & Hurl) & Htype) & Htitle) & Hcontent).
  unfold readChunk, writeChunk. rewrite <- !app_assoc.
  rewrite !readString_writeString_any by assumption.
  rewrite (readArray_kept writeFloat readFloat (fun _ => true) fround
             (fun v rest _ => readFloat_writeFloat_any v rest));
    [reflexivity|].
  now apply forallb_forall.
Qed.

Lemma stored_chunk_exact (c : Chunk) :
  valid_chunk c = true -> exact_chunk (stored_chunk c) = true.
Proof.
  unfold valid_chunk, exact_chunk. rewrite !andb_true_iff.
  intros ((((Hid & Hurl) & Htype) & Htitle) & Hcontent). cbn.
  repeat split; try now apply read_back_isWellFormed.
  apply forallb_forall. intros v Hv. apply in_map_iff in Hv as (v0 & <- & _).
  apply fround_is_float32.
Qed.

Lemma stored_exact (x : ContentData) : valid x = true -> exact (stored x) = true.
Proof.
  unfold valid, exact, stored. cbn [chunks]. rewrite !forallb_forall.
  intros Hx c Hc. apply in_map_iff in Hc as (c0 & <- & Hc0).
  apply stored_chunk_exact. now apply Hx.
Qed.

Lemma toBuffer_read (x : ContentData) (rest : list Z) :
  exact x = true -> readArray readChunk (toBuffer x ++ rest) = Some (chunks x, rest).
Proof.
  intros Hx. unfold toBuffer.
  now rewrite (readArray_writeArray writeChunk readChunk exact_chunk readChunk_writeChunk).
Qed.

Lemma toBuffer_read_any (x : ContentData) (rest : list Z) :
  valid x = true ->
  readArray readChunk (toBuffer x ++ rest) = Some (stored_chunk <$> chunks x, rest).
Proof.
  intros Hx. unfold toBuffer.
  now rewrite (readArray_kept writeChunk readChunk valid_chunk stored_chunk
                 readChunk_writeChunk_any).
Qed.

(** X19. What the archive gives back, for every content: decoding the encoding
    of a [ContentData] gives the same chunks in the same order, each vector
    component rounded to the nearest binary32 value and each string with its
    unpaired surrogates replaced: by one U+FFFD each when the string takes
    more than 64 bytes, and by three each when it takes 64 bytes or fewer,
    which avsc writes by its own loop. *)
Theorem codec_reads_back (x : ContentData) :
  valid x = true -> fromBuffer (toBuffer x) = Some (stored x).
Proof.
  intros Hx. unfold fromBuffer.
  rewrite <- (app_nil_r (toBuffer x)). now rewrite toBuffer_read_any.
Qed.

(** X20. What was read from the archive is archived without loss: a content
    that has been through the codec once comes back unchanged from a second
    encoding and decoding. *)
Theorem archive_stable (x : ContentData) :
  valid x = true -> fromBuffer (toBuffer (stored x)) = Some (stored x).
Proof.
  intros Hx. apply stored_exact in Hx. unfold fromBuffer.
  rewrite <- (app_nil_r (toBuffer (stored x))), toBuffer_read by assumption.
  now destruct (stored x).
Qed.

(** X21. Trailing data is refused: a buffer that holds the encoding of a
    content followed by one byte or more is not decoded. *)
Theorem trailing_data_rejected (x : ContentData) (b : Z) (rest : list Z) :
  valid x = true -> fromBuffer (toBuffer x ++ b :: rest) = None.
Proof.
  intros Hx. unfold fromBuffer. now rewrite toBuffer_read_any.
Qed.

End CodecFacts.

(** ** The archive in the object storage *)

Lemma objects_set_objects f w : objects (set_objects f w) = f (objects w).
Proof. now destruct w. Qed.

Lemma loadContentChunks_run (storageKey : jsstring) (w : World) :
  loadContentChunks storageKey w
  = match objects w !! storageKey with
    | None => (inl (Error (lit "NoSuchKey")), w)
    | Some buffer =>
        match Avro.fromBuffer buffer with
        | Some data => (inr data, w)
        | None => (inl (Error (lit "invalid buffer")), w)
        end
    end.
Proof.
  unfold loadContentChunks, bind, getObject, ret, throw.
  destruct (objects w !! storageKey) as [buffer|]; [|reflexivity].
  now destruct (Avro.fromBuffer buffer).
Qed.

(** X22. Saved, then loaded: after [saveContentChunks] of a content under a
    key, [loadContentChunks] of that key gives the content as the archive
    keeps it (unpaired surrogates replaced by U+FFFD, three each in a string
    of at most 64 bytes and one each in a longer one; vectors rounded to
    binary32), and changes nothing; the content saved last under a key is
    the one loaded. *)
Theorem save_then_load (storageKey : jsstring) (earlier data : Avro.ContentData) (w : World) :
  valid data = true ->
  let saved := (saveContentChunks storageKey data w).2 in
  loadContentChunks storageKey saved = (inr (stored data), saved)
  /\ loadContentChunks storageKey
       (saveContentChunks storageKey data (saveContentChunks storageKey earlier w).2).2
     = (inr (stored data),
        (saveContentChunks storageKey data (saveContentChunks storageKey earlier w).2).2).
Proof.
  intros Hdata. cbv zeta.
  assert (Hload : forall w0,
    loadContentChunks storageKey (saveContentChunks storageKey data w0).2
    = (inr (stored data), (saveContentChunks storageKey data w0).2)).
  { intros w0. rewrite loadContentChunks_run.
    unfold saveContentChunks, putObject, modify. cbv zeta. cbn [snd].
    rewrite objects_set_objects, lookup_insert_eq.
    unfold Avro.fromBuffer. rewrite <- (app_nil_r (Avro.toBuffer data)).
    now rewrite (toBuffer_read_any data [] Hdata). }
  split; apply Hload.
Qed.

(** ** Concrete runs *)

(** The filter of a query with one populated facet and one empty one. *)
Example retrieve_conditions_example :
  retrieve_conditions user_u1 about_n1
  = [ {| cond_key := "tenantId"; cond_match := MatchValue (VStr (lit "u1")) |};
      {| cond_key := "noteId"; cond_match := MatchAny [VStr (lit "n1")] |} ].
Proof. reflexivity. Qed.

(** After the first user has ingested a note, the query returns its chunk to
    that user and nothing to another. *)
Example cross_tenant_example :
  let env := collaborators unit_vectors found in
  let w := (indexContent user_u1 note_n1 empty_world).2 in
  returned (retrieve user_u2 about_n1 w) = []
  /\ returned (retrieve user_u1 about_n1 w)
     = [ <["tenantId" := VStr (lit "u1")]>
           (<["content" := VStr (lit "first paragraph")]>
              (<["seq" := VNum 0]> (metadata note_n1))) ].
Proof. split; vm_compute; reflexivity. Qed.

(** A delete by another user leaves the note's chunk in place, the owner's
    delete removes it. *)
Example delete_scoping_example :
  let env := collaborators unit_vectors found in
  let w := (indexContent user_u1 note_n1 empty_world).2 in
  length (returned (retrieve user_u1 about_n1 (deleteNoteNodes user_u2 (lit "n1") w).2)) = 1%nat
  /\ returned (retrieve user_u1 about_n1 (deleteNoteNodes user_u1 (lit "n1") w).2) = [].
Proof. split; vm_compute; reflexivity. Qed.

(** With the embedding provider down, ingesting the note fails and leaves the
    start-up state as it was. *)
Lemma embedding_failure_aborts_witness :
  indexContent (env := collaborators provider_down found) user_u1 note_n1 empty_world
  = (inl (Error (lit "embedding timeout")), empty_world)
  /\ upserts (indexContent (env := collaborators provider_down found)
                user_u1 note_n1 empty_world).2 = []
  /\ qdrant (indexContent (env := collaborators provider_down found)
               user_u1 note_n1 empty_world).2 = ∅.
Proof.
  apply (embedding_failure_aborts (env := collaborators provider_down found)
           user_u1 note_n1 empty_world [lit "first paragraph"]
           (Error (lit "embedding timeout")));
    vm_compute; reflexivity.
Defined.


(** A 503 from the reader fails the call with the status and status text in
    the message, and only the request is recorded. *)
Lemma remote_fetch_failure_witness :
  crawlFromRemoteReader (env := collaborators unit_vectors unavailable) (lit "example.com") empty_world
  = (inl (Error (lit "call remote reader failed: 503 Service Unavailable function text() { [native code] }")),
     set_requests (cons (lit "https://r.jina.ai/example.com")) empty_world).
Proof.
  destruct (remote_fetch_failure (env := collaborators unit_vectors unavailable) (lit "example.com")
              empty_world unavailable eq_refl eq_refl) as (Hstatus & _).
  apply Hstatus. discriminate.
Defined.

(** C8, refuted as stated: a 200 response with an empty payload fails the
    call with an error that carries neither the status nor the status text,
    and two such responses that differ in status text and payload fail it
    with the same error. *)
Lemma invalid_data_error_carries_no_status :
  exists e,
    (crawlFromRemoteReader (env := collaborators unit_vectors empty_ok) (lit "example.com") empty_world).1
    = inl e
    /\ ~ carries_upstream empty_ok e
    /\ (crawlFromRemoteReader (env := collaborators unit_vectors empty_no_content)
          (lit "example.com") empty_world).1 = inl e.
Proof.
  eexists. split; [vm_compute; reflexivity|]. split; [|vm_compute; reflexivity].
  intros [H _]. vm_compute in H. discriminate.
Qed.

(** After a page has been fetched once, it is served again with no further
    request, whatever fewer than 1000 calls come in between. *)
Lemma fetch_cache_correct_witness :
  exists data,
    (crawlFromRemoteReader (env := collaborators unit_vectors found) (lit "example.com") empty_world).1
    = inr (Some data)
    /\ forall others, (length others < cache_max)%nat ->
         let w'' := run_crawls (env := collaborators unit_vectors found) others
                      (crawlFromRemoteReader (env := collaborators unit_vectors found)
                         (lit "example.com") empty_world).2 in
         (crawlFromRemoteReader (env := collaborators unit_vectors found) (lit "example.com") w'').1
         = inr (Some data)
         /\ requests (crawlFromRemoteReader (env := collaborators unit_vectors found)
                        (lit "example.com") w'').2 = requests w''.
Proof.
  destruct (fetch_cache_correct (env := collaborators unit_vectors found) (lit "example.com") empty_world
              (Some page)
              (crawlFromRemoteReader (env := collaborators unit_vectors found)
                 (lit "example.com") empty_world).2 eq_refl)
    as (data & Hdata & _ & _ & Hagain).
  exists data. injection Hdata as <-. split; [reflexivity|exact Hagain].
Defined.

(** The content " a", chunked, is stored as the one document "a". *)
Lemma chunk_offsets_witness :
  exists docs,
    inMemoryIndexContent (env := collaborators unit_vectors found) user_u1 padded true empty_world
    = (inr tt, set_memoryVectors
                 (fun mv => mv ++ zip_with (fun d v => (d, Some v)) docs [[Fin false 1 0]])
                 empty_world)
    /\ pageContent <$> docs = [lit "a"].
Proof.
  destruct (chunk_offsets (env := collaborators unit_vectors found) user_u1 padded true empty_world
              [lit "a"] [[Fin false 1 0]] eq_refl eq_refl)
    as (docs & Hrun & Hcontents & _).
  exists docs. split; [exact Hrun|exact Hcontents].
Defined.

(** C10, refuted as stated: the content " a" indexed as one chunk is stored
    as "a" with the offsets 0 and 1, where the original content has a
    blank. *)
Lemma offsets_not_into_original :
  ~ Forall (fun dv => offsets_into (pageContent padded) dv.1)
      (memoryVectors
         (inMemoryIndexContent (env := collaborators unit_vectors found) user_u1 padded false empty_world).2).
Proof.
  intros H. apply Forall_inv in H as (s & e & Hs & He & Hslice).
  vm_compute in Hs. vm_compute in He.
  injection Hs as <-. injection He as <-.
  vm_compute in Hslice. discriminate.
Qed.

(** C4, refuted as stated: whatever the collaborators, the text cleaner among
    them, the chunks of the text that is one blank do not concatenate to
    it. *)
Lemma blank_not_reconstructed :
  ~ exists env : Collaborators, reconstructs (env := env) (lit " ").
Proof.
  intros (env & chunks & Hrun & Hcat).
  destruct (splitText_good (cleanMarkdownForIngest (lit " ")))
    as (chunks' & Hsplit & Hgood & _).
  unfold chunkText, await in Hrun. rewrite Hsplit in Hrun. simpl in Hrun.
  injection Hrun as <-.
  destruct chunks' as [|c cs]; [discriminate|].
  apply Forall_cons in Hgood as [(Hne & Ht & _) _].
  destruct c as [|x c]; [congruence|].
  simpl in Hcat. injection Hcat as -> Hrest.
  apply app_eq_nil in Hrest as [-> _].
  vm_compute in Ht. discriminate.
Qed.

(** Two runs of 600 letters around a blank come back as two chunks without
    the blank. *)
Example blank_between_chunks_lost :
  (chunkText (env := collaborators unit_vectors found) (repeat 65 600 ++ lit " " ++ repeat 66 600) empty_world).1
  = inr [repeat 65 600; repeat 66 600].
Proof. vm_compute. reflexivity. Qed.

(** *** The archival codec *)

(** What is loaded after a save is what the codec reads back. *)
Lemma load_after_save (storageKey : jsstring) (data : Avro.ContentData) (w : World) :
  Avro.exact data = true ->
  bind (saveContentChunks storageKey data) (fun _ => loadContentChunks storageKey) w
  = (inr data, set_objects <[storageKey := Avro.toBuffer data]> w).
Proof.
  intros Hx. unfold bind, saveContentChunks, loadContentChunks, putObject, getObject,
    modify, bind, ret.
  cbn [objects set_objects]. rewrite lookup_insert_eq.
  unfold Avro.fromBuffer, Avro.toBuffer.
  rewrite <- (app_nil_r (Avro.writeArray Avro.writeChunk (Avro.chunks data))).
  rewrite (readArray_writeArray Avro.writeChunk Avro.readChunk Avro.exact_chunk
             readChunk_writeChunk) by assumption.
  now destruct data.
Qed.

(** The chunk set [archived] is read back as it was written. *)
Lemma codec_round_trip_witness :
  Avro.fromBuffer (Avro.toBuffer archived) = Some archived.
Proof. apply (codec_round_trip archived). vm_compute. reflexivity. Defined.

(** C2, refuted as stated: a vector component that is a double but not a
    binary32 value, here 0.1, is read back as the nearest binary32 value,
    [13421773 * 2^-27]. *)
Lemma tenth_not_preserved :
  Avro.is_double tenth = true
  /\ Avro.fromBuffer (Avro.toBuffer (with_vector [tenth]))
     = Some (with_vector [Fin false 13421773 (-27)])
  /\ Avro.fromBuffer (Avro.toBuffer (with_vector [tenth])) <> Some (with_vector [tenth]).
Proof.
  split; [reflexivity|]. split; [vm_compute; reflexivity|].
  vm_compute. discriminate.
Qed.

(** A lone surrogate in a short string is written as its own three bytes,
    which are read back as three U+FFFD. *)
Example lone_surrogate_replaced :
  Avro.writeString [55357] = [6; 237; 160; 189]
  /\ Avro.readString (Avro.writeString [55357]) = Some ([65533; 65533; 65533], []).
Proof. split; reflexivity. Qed.

(** ** Concrete runs of the further properties *)

(** After user u1 has ingested the note n1, a search restricted to the note
    n1 returns payloads of that note only. *)
Lemma retrieve_honours_facets_witness :
  Forall (fun payload => exists id, id ∈ [lit "n1"] /\ payload !! "noteId" = Some (VStr id))
         (returned (retrieve (env := collaborators unit_vectors found) user_u1 about_n1
                      (indexContent (env := collaborators unit_vectors found)
                         user_u1 note_n1 empty_world).2)).
Proof.
  apply (retrieve_honours_facets (env := collaborators unit_vectors found) user_u1 about_n1 _
           {| nodeTypes := None; urls := None; noteIds := Some [lit "n1"];
              resourceIds := Some []; collectionIds := None |}
           noteIds "noteId" [lit "n1"]).
  - unfold facets. do 2 apply list_elem_of_further. apply list_elem_of_here.
  - reflexivity.
  - reflexivity.
  - discriminate.
Defined.

(** The note n1, ingested by u1 and then deleted by u1, leaves none of its
    points in the store. *)
Lemma ingest_then_delete_witness :
  exists points,
    upserts (indexContent (env := collaborators unit_vectors found)
               user_u1 note_n1 empty_world).2 = points :: upserts empty_world
    /\ Forall (fun p => qdrant (deleteNoteNodes user_u1 (lit "n1")
                                  (indexContent (env := collaborators unit_vectors found)
                                     user_u1 note_n1 empty_world).2).2 !! point_id p = None)
              points.
Proof.
  apply (ingest_then_delete (env := collaborators unit_vectors found) user_u1 note_n1
           empty_world 1 _ "noteId" deleteNoteNodes (lit "n1")).
  - unfold owner_deletes. apply list_elem_of_further. apply list_elem_of_here.
  - vm_compute. reflexivity.
  - vm_compute. reflexivity.
Defined.

(** With one document of u1 in the index, a search of u1 returns it. *)
Lemma inMemorySearch_complete_witness :
  returned (inMemorySearch (env := collaborators unit_vectors found) user_u1 (lit "first") None
              (fun _ => true)
              (inMemoryIndexDocuments (env := collaborators unit_vectors found)
                 user_u1 [note_n1] empty_world).2)
  ≡ₚ fst <$> List.filter (fun dv => accepts user_u1 (fun _ => true) dv.1)
               (memoryVectors
                  (inMemoryIndexDocuments (env := collaborators unit_vectors found)
                     user_u1 [note_n1] empty_world).2).
Proof.
  apply (inMemorySearch_complete (env := collaborators unit_vectors found) user_u1 (lit "first")
           None (fun _ => true) _ [Fin false 1 0]).
  - reflexivity.
  - vm_compute. lia.
Defined.

(** What u2 finds in the in-memory index is the same before and after u1 has
    indexed the note n1 or the content " a". *)
Lemma memory_index_private_witness :
  (inMemorySearch (env := collaborators unit_vectors found) user_u2 (lit "first") None
     (fun _ => true)
     (inMemoryIndexDocuments (env := collaborators unit_vectors found)
        user_u1 [note_n1] empty_world).2).1
  = (inMemorySearch (env := collaborators unit_vectors found) user_u2 (lit "first") None
       (fun _ => true) empty_world).1
  /\ (inMemorySearch (env := collaborators unit_vectors found) user_u2 (lit "first") None
        (fun _ => true)
        (inMemoryIndexContent (env := collaborators unit_vectors found)
           user_u1 padded true empty_world).2).1
     = (inMemorySearch (env := collaborators unit_vectors found) user_u2 (lit "first") None
          (fun _ => true) empty_world).1.
Proof.
  apply (memory_index_private (env := collaborators unit_vectors found) user_u1 user_u2
           [note_n1] padded true (lit "first") None (fun _ => true) empty_world).
  intros H. vm_compute in H. discriminate H.
Defined.

(** The cache after the first page has been fetched is in order. *)
Lemma crawl_keeps_cache_ok_witness :
  cache_ok (cache (crawlFromRemoteReader (env := collaborators unit_vectors found)
                     (lit "example.com") empty_world).2).
Proof.
  apply (crawl_keeps_cache_ok (env := collaborators unit_vectors found)
           (lit "example.com") empty_world).
  split; [|split].
  - unfold cache_max. simpl. lia.
  - constructor.
  - constructor.
Defined.

(** With the reader answering 503, a second call for the same URL sends a
    second request. *)
Lemma crawl_failure_not_cached_witness :
  requests (crawlFromRemoteReader (env := collaborators unit_vectors unavailable)
              (lit "example.com")
              (crawlFromRemoteReader (env := collaborators unit_vectors unavailable)
                 (lit "example.com") empty_world).2).2
  = [lit "https://r.jina.ai/example.com"; lit "https://r.jina.ai/example.com"].
Proof.
  destruct (crawl_failure_not_cached (env := collaborators unit_vectors unavailable)
              (lit "example.com") empty_world
              (Error (lit "call remote reader failed: 503 Service Unavailable function text() { [native code] }"))
              eq_refl) as [_ Hrequests].
  exact Hrequests.
Defined.

(** The text " hello " is the one chunk "hello". *)
Lemma short_text_one_chunk_witness :
  chunkText (env := collaborators unit_vectors found) (lit " hello ") empty_world
  = (inr [lit "hello"], empty_world).
Proof.
  exact (short_text_one_chunk (env := collaborators unit_vectors found) (lit " hello ")
           empty_world eq_refl).
Defined.

(** A title that is a lone surrogate is read back as three U+FFFD, a content
    of 22 lone surrogates, which takes more than 64 bytes, as 22 U+FFFD, and
    the vector component 0.1 as the nearest binary32 value. *)
Lemma codec_reads_back_witness :
  Avro.fromBuffer (Avro.toBuffer unpaired)
  = Some {| Avro.chunks :=
              [ {| Avro.chunk_id := lit "c1"; Avro.chunk_url := lit "";
                   Avro.chunk_type := lit ""; Avro.chunk_title := [65533; 65533; 65533];
                   Avro.chunk_content := replicate 22 65533;
                   Avro.chunk_vector := [Fin false 13421773 (-27)] |} ] |}.
Proof. exact (codec_reads_back unpaired eq_refl). Defined.

(** What was read back of it is read back again as it is. *)
Lemma archive_stable_witness :
  Avro.fromBuffer (Avro.toBuffer (stored unpaired)) = Some (stored unpaired).
Proof. exact (archive_stable unpaired eq_refl). Defined.

(** The encoding of a chunk set followed by a zero byte is not decoded. *)
Lemma trailing_data_rejected_witness :
  Avro.fromBuffer (Avro.toBuffer archived ++ [0]) = None.
Proof. exact (trailing_data_rejected archived 0 [] eq_refl). Defined.

(** Saved over an earlier content and loaded, the content comes back as the
    archive keeps it. *)
Lemma save_then_load_witness :
  (loadContentChunks (lit "chunks/r1")
     (saveContentChunks (lit "chunks/r1") unpaired
        (saveContentChunks (lit "chunks/r1") archived empty_world).2).2).1
  = inr (stored unpaired).
Proof.
  destruct (save_then_load (lit "chunks/r1") archived unpaired empty_world eq_refl)
    as [_ Hload].
  now rewrite Hload.
Defined.

(** What u2 retrieves after u1 has ingested the note n1 was in the store
    before. *)
Lemma ingest_private_witness :
  Forall (fun payload => exists k p, qdrant empty_world !! k = Some p
                                     /\ payload = point_payload p)
         (returned (retrieve (env := collaborators unit_vectors found) user_u2 about_n1
                      (indexContent (env := collaborators unit_vectors found)
                         user_u1 note_n1 empty_world).2)).
Proof.
  apply (ingest_private (env := collaborators unit_vectors found) user_u1 user_u2 note_n1
           about_n1 empty_world).
  intros H. vm_compute in H. discriminate H.
Defined.

(** After u1 and then u2 have ingested the note n1, the point of the note
    belongs to u2. *)
Lemma ingest_displaces_witness :
  exists points,
    upserts (indexContent (env := collaborators unit_vectors found)
               user_u1 note_n1 empty_world).2 = points :: upserts empty_world
    /\ Forall (fun p => exists q,
                 qdrant (indexContent (env := collaborators unit_vectors found) user_u2 note_n1
                           (indexContent (env := collaborators unit_vectors found)
                              user_u1 note_n1 empty_world).2).2 !! point_id p = Some q
                 /\ point_payload q !! "tenantId" = Some (VStr (uid user_u2)))
              points.
Proof.
  apply (ingest_displaces (env := collaborators unit_vectors found) user_u1 user_u2 note_n1
           empty_world _ _ 1 1).
  - vm_compute. reflexivity.
  - vm_compute. reflexivity.
Defined.

(** A content of two blanks: [indexContent] saves an empty batch, and
    [inMemoryIndexContent] adds nothing. *)
Lemma blank_content_indexes_nothing_witness :
  upserts (indexContent (env := collaborators unit_vectors found) user_u1 blank empty_world).2
  = [[]]
  /\ memoryVectors (inMemoryIndexContent (env := collaborators unit_vectors found)
                      user_u1 blank true empty_world).2 = [].
Proof.
  destruct (blank_content_indexes_nothing (env := collaborators unit_vectors found)
              user_u1 blank empty_world eq_refl) as (_ & Hupserts & _ & _ & Hmemory).
  split; [exact Hupserts|exact Hmemory].
Defined.
